(** * The histogram metric of client_golang: bucket routing and percentiles

    A shallow embedding of [metrics/histogram.go].

    Conventions of the embedding:
    - a Go [int] is a [Z]; it is 64 bits wide, as on the usual platforms,
      and the arithmetic of the percentile query wraps around ([wrap64]);
      a slice index is a [nat];
    - a [float64] is a rational [Q]; comparisons are exact, and where the
      code multiplies, adds or divides floats, or converts an [int] to a
      float, the result is rounded to the nearest binary64 value, ties to
      even ([round64]); the conversion [int(f)] truncates toward zero and
      yields the least [int] outside the range of [int] ([toInt64]); the
      sign of a zero is not modelled, and infinities and NaN appear only
      where the code can produce them ([float64]);
    - a [map[string]T] is a [gmap string T]; a [nil] label map is [None];
    - a slice is a [list]; an index that is out of range panics;
    - a panic is an explicit [Panic] outcome;
    - a pointer into [histogram.buckets] is the index of the bucket;
    - the reader/writer mutex is not modelled: each operation is one
      atomic step on the engine state. *)

From Stdlib Require Import ZArith QArith Qround Qabs Qpower Lia Lqa.
From stdpp Require Import base option list sorting gmap strings.

(** ** Panics and outcomes *)

Inductive panic : Type :=
| IndexOutOfRange (index len : nat)
| NilDereference
| NegativeLength
| IllegalCondition.

Inductive outcome (A : Type) : Type :=
| Ok (a : A)
| Panic (p : panic).

Arguments Ok {A} a.
Arguments Panic {A} p.

#[global] Instance outcome_ret : MRet outcome := fun A a => Ok a.

#[global] Instance outcome_bind : MBind outcome := fun A C f m =>
  match m with
  | Ok a => f a
  | Panic p => Panic p
  end.

#[global] Instance outcome_fmap : FMap outcome := fun A C f m =>
  match m with
  | Ok a => Ok (f a)
  | Panic p => Panic p
  end.

(** [l[i]] on a slice. *)
Definition index {A : Type} (l : list A) (i : nat) : outcome A :=
  match l !! i with
  | Some x => Ok x
  | None => Panic (IndexOutOfRange i (length l))
  end.

(** [*p] on a pointer read from a map: a missing key yields [nil]. *)
Definition deref {A : Type} (p : option A) : outcome A :=
  match p with
  | Some x => Ok x
  | None => Panic NilDereference
  end.

(** How a call that returns nothing ends. *)
Inductive completion : Type :=
| Returns
| Panics (p : panic).

(** ** Numbers *)

(** Truncation toward zero. *)
Definition truncate (q : Q) : Z := Z.quot (Qnum q) (Z.pos (Qden q)).

(** [a < b] on floats. *)
Definition Qlt_bool (a b : Q) : bool := negb (Qle_bool b a).

Definition sumZ (l : list Z) : Z := foldr Z.add 0%Z l.

(** Arithmetic on [int] wraps around at 64 bits. *)
Definition wrap64 (z : Z) : Z := ((z + 2 ^ 63) mod 2 ^ 64 - 2 ^ 63)%Z.

(** [int(f)]: the fraction is dropped. For a value outside the range of
    [int] the language leaves the result to the implementation; amd64
    yields the least [int]. *)
Definition toInt64 (q : Q) : Z :=
  let t := truncate q in
  if ((- 2 ^ 63 <=? t) && (t <? 2 ^ 63))%Z then t else (- 2 ^ 63)%Z.

Definition Qpow2 (k : Z) : Q :=
  match k with
  | Z0 => 1%Q
  | Zpos p => inject_Z (2 ^ Zpos p)
  | Zneg p => Qmake 1 (2 ^ p)%positive
  end.

(** The least [k], counting up from [k0] for at most [fuel] steps, such
    that [q <= 2^k]. *)
Fixpoint leastPow2From (q : Q) (k0 : Z) (fuel : nat) : Z :=
  match fuel with
  | O => k0
  | S fuel' =>
      if Qle_bool q (Qpow2 k0) then k0 else leastPow2From q (k0 + 1) fuel'
  end.

(** [int(math.Ceil(math.Log2(upper)))] for a positive [upper], with the
    logarithm at its exact value: the least integer [k] with
    [upper <= 2^k]. The float that [math.Log2] returns is exact at the
    powers of two; for an [upper] within a rounding error above [2^k] it
    can be [k] itself, and the code then makes one boundary less than
    this count. The search starts at [-log2_up(den)] where
    [2^k <= 1/den <= upper] and stops at the latest at [log2_up(num)]
    where [upper <= num <= 2^k]. *)
Definition ceilLog2 (upper : Q) : Z :=
  let lo := (- Z.log2_up (Z.pos (Qden upper)))%Z in
  let hi := Z.log2_up (Qnum upper) in
  leastPow2From upper lo (Z.to_nat (hi - lo)).

(** The greatest [k] with [2^k <= q], for a positive [q]. *)
Definition floorLog2 (q : Q) : Z :=
  let c := ceilLog2 q in if Qle_bool (Qpow2 c) q then c else (c - 1)%Z.

(** The nearest integer, the even one of two that are equally near. *)
Definition roundHalfEven (q : Q) : Z :=
  let f := Qfloor q in
  match Qcompare (q - inject_Z f) (1 # 2) with
  | Lt => f
  | Gt => (f + 1)%Z
  | Eq => if Z.even f then f else (f + 1)%Z
  end.

(** The exponent of the last of the 53 bits of the binary64 value
    nearest to [q]; the least exponent is that of the subnormal
    numbers. *)
Definition exponentOf (q : Q) : Z := Z.max (-1074) (floorLog2 (Qabs q) - 52).

(** The result of a binary64 operation whose exact result is [q]: the
    nearest multiple of [2^exponentOf q]. A result of magnitude [2^1024]
    or more stands for an infinity. *)
Definition round64 (q : Q) : Q :=
  if Qeq_bool q 0 then 0%Q
  else
    let e := exponentOf q in
    (inject_Z (roundHalfEven (q / Qpow2 e)) * Qpow2 e)%Q.

(** ** The Bucket interface

    The engine uses four methods of a [Bucket]; the implementations live
    outside [histogram.go]. *)

Module Bucket.

Class Ops (B : Type) : Type := {
  Add : B -> Q -> B;
  Observations : B -> Z;
  ValueForIndex : B -> Z -> Q;
  Reset : B -> B
}.

End Bucket.

(** Modelled from the spec: the exact-storage Bucket of the concrete
    scenarios, whose implementation is not part of [histogram.go]. It
    keeps every ingested value in arrival order, counts them, returns the
    value at index [i] for [0 <= i < count] and forgets everything on
    reset. Outside that range the spec leaves the value open and the
    model answers [0]. *)
Module ExactBucket.

Definition t : Type := list Q.

Definition empty : t := [].

Definition valueAt (b : t) (i : Z) : Q :=
  if (i <? 0)%Z then 0%Q else nth (Z.to_nat i) b 0%Q.

#[global] Instance ops : Bucket.Ops t := {|
  Bucket.Add := fun b v => b ++ [v];
  Bucket.Observations := fun b => Z.of_nat (length b);
  Bucket.ValueForIndex := valueAt;
  Bucket.Reset := fun _ => []
|}.

End ExactBucket.

(** ** Boundary generators *)

(** A [float64] as [EquallySizedBucketsFor] can receive and produce it.
    The sign of a zero is not kept: the only divisor of this file is
    [float64(count)], which is never the negative zero. *)
Inductive float64 : Type :=
| Finite (q : Q)
| Infinity (negative : bool)
| NaN.

(** The float for the exact result [q] of an operation. *)
Definition ieee (q : Q) : float64 :=
  let r := round64 q in
  if Qle_bool (Qpow2 1024) (Qabs r) then Infinity (Qlt_bool r 0) else Finite r.

(** [float64(z)]. *)
Definition ofInt (z : Z) : float64 := ieee (inject_Z z).

Definition fneg (x : float64) : float64 :=
  match x with
  | Finite a => Finite (- a)
  | Infinity s => Infinity (negb s)
  | NaN => NaN
  end.

Definition fadd (x y : float64) : float64 :=
  match x, y with
  | NaN, _ | _, NaN => NaN
  | Finite a, Finite b => ieee (a + b)
  | Infinity s, Finite _ | Finite _, Infinity s => Infinity s
  | Infinity s, Infinity t => if Bool.eqb s t then Infinity s else NaN
  end.

Definition fsub (x y : float64) : float64 := fadd x (fneg y).

Definition fmul (x y : float64) : float64 :=
  match x, y with
  | NaN, _ | _, NaN => NaN
  | Finite a, Finite b => ieee (a * b)
  | Infinity s, Finite b | Finite b, Infinity s =>
      if Qeq_bool b 0 then NaN else Infinity (xorb s (Qlt_bool b 0))
  | Infinity s, Infinity t => Infinity (xorb s t)
  end.

Definition fdiv (x y : float64) : float64 :=
  match x, y with
  | NaN, _ | _, NaN => NaN
  | Finite a, Finite b =>
      if Qeq_bool b 0
      then if Qeq_bool a 0 then NaN else Infinity (Qlt_bool a 0)
      else ieee (a / b)
  | Infinity s, Finite b => Infinity (xorb s (Qlt_bool b 0))
  | Finite _, Infinity _ => Finite 0
  | Infinity _, Infinity _ => NaN
  end.

(** The loop of [EquallySizedBucketsFor] from index [i] on. *)
Fixpoint equalStarts (lower partitionSize : float64) (i count : nat) : list float64 :=
  match count with
  | O => []
  | S count' =>
      let m := ofInt (Z.of_nat i) in
      fadd lower (fmul m partitionSize)
        :: equalStarts lower partitionSize (S i) count'
  end.

(** [make] with a negative length panics. *)
Definition EquallySizedBucketsFor (lower upper : float64) (count : Z)
  : outcome (list float64) :=
  if (count <? 0)%Z then Panic NegativeLength
  else
    let partitionSize := fdiv (fsub upper lower) (ofInt count) in
    Ok (equalStarts lower partitionSize 0 (Z.to_nat count)).

(** The loop [for i, j := 0, 0.0; i < bucketCount;
    i, j = i+1, math.Pow(2, float64(i+1.0))]: the right-hand sides are
    evaluated with the old [i]. The powers of two below [2^1024] are
    floats, so the power is exact for every count a float [upper] can
    give. *)
Fixpoint logStarts (i : nat) (j : Q) (remaining : nat) : list Q :=
  match remaining with
  | O => []
  | S remaining' =>
      j :: logStarts (S i) (Qpow2 (Z.of_nat i + 1)) remaining'
  end.

(** For [upper <= 0] the logarithm is not a number and the conversion to
    [int] is platform-defined; the model panics there, as the usual
    platforms do on the negative length. *)
Definition LogarithmicSizedBucketsFor (lower upper : Q) : outcome (list Q) :=
  if Qle_bool upper 0 then Panic NegativeLength
  else
    let bucketCount := ceilLog2 upper in
    if (bucketCount <? 0)%Z then Panic NegativeLength
    else Ok (logStarts 0 0%Q (Z.to_nat bucketCount)).

(** ** The engine *)

Record HistogramSpecification (B : Type) : Type := {
  BucketBuilder : B;
  ReportablePercentiles : list Q;
  Starts : list Q
}.

Record histogramValue (B : Type) : Type := {
  buckets : list B;
  labels : gmap string string
}.

Record histogram (B : Type) : Type := {
  bucketMaker : B;
  bucketStarts : list Q;
  values : gmap string (histogramValue B);
  reportablePercentiles : list Q
}.

Arguments BucketBuilder {B} _.
Arguments ReportablePercentiles {B} _.
Arguments Starts {B} _.
Arguments buckets {B} _.
Arguments labels {B} _.
Arguments bucketMaker {B} _.
Arguments bucketStarts {B} _.
Arguments values {B} _.
Arguments reportablePercentiles {B} _.

(** What [ResetAll] does, in order: [bucket.Reset()] on bucket [i] of a
    series, which leaves the bucket in state [after], and
    [delete(h.values, signature)]. *)
Inductive event (B : Type) : Type :=
| BucketReset (signature : string) (i : nat) (after : B)
| SeriesDeleted (signature : string).

Arguments BucketReset {B} signature i after.
Arguments SeriesDeleted {B} signature.

Section Engine.

Context {B : Type} `{Bucket.Ops B}.

(** [utility.LabelsToSignature] and the constants of [formatFloat] are
    declared outside [histogram.go]. *)
Variable LabelsToSignature : gmap string string -> string.
Variable formatFloat : Q -> string.

(** [h.values = m], every other field kept. *)
Definition withValues (h : histogram B) (m : gmap string (histogramValue B)) : histogram B :=
  {| bucketMaker := bucketMaker h;
     bucketStarts := bucketStarts h;
     values := m;
     reportablePercentiles := reportablePercentiles h |}.

(** [histogram.buckets = bs], the labels kept. *)
Definition withBuckets (histogram : histogramValue B) (bs : list B) : histogramValue B :=
  {| buckets := bs; labels := labels histogram |}.

(** The routing loop of [Add]: [i] is the position of the head of
    [starts] in [h.bucketStarts]. *)
Fixpoint route (i lastIndex : nat) (starts : list Q) (value : Q) : nat :=
  match starts with
  | [] => lastIndex
  | bucketStart :: rest =>
      if Qlt_bool value bucketStart then lastIndex
      else route (S i) i rest value
  end.

Definition lastIndexFor (starts : list Q) (value : Q) : nat :=
  route 0 0 starts value.

Definition Add (h : histogram B) (labels : option (gmap string string)) (value : Q)
  : histogram B * completion :=
  let labels := default ∅ labels in
  let signature := LabelsToSignature labels in
  let '(h, histogram) :=
    match values h !! signature with
    | Some original => (h, original)
    | None =>
        let bucketCount := length (bucketStarts h) in
        let histogram :=
          {| buckets := replicate bucketCount (bucketMaker h);
             labels := labels |} in
        (withValues h (<[signature := histogram]> (values h)), histogram)
    end in
  let lastIndex := lastIndexFor (bucketStarts h) value in
  match buckets histogram !! lastIndex with
  | None =>
      (h, Panics (IndexOutOfRange lastIndex (length (buckets histogram))))
  | Some bucket =>
      let histogram :=
        withBuckets histogram (<[lastIndex := Bucket.Add bucket value]> (buckets histogram)) in
      (withValues h (<[signature := histogram]> (values h)), Returns)
  end.

(** [previousCumulativeObservations]. *)
Definition previousCumulativeObservations (cumulativeObservations : list Z) (bucketIndex : nat)
  : outcome Z :=
  match bucketIndex with
  | O => Ok 0%Z
  | S k => index cumulativeObservations k
  end.

(** [prospectiveIndexForPercentile]. *)
Definition prospectiveIndexForPercentile (percentile : Q) (totalObservations : Z) : Z :=
  toInt64 (round64 (percentile * round64 (inject_Z (wrap64 (totalObservations - 1))))).

(** The loop of [nextNonEmptyBucketElement]; [remaining] is
    [bucketCount - i]. Running out of buckets is the fatal condition. *)
Fixpoint nextNonEmptyFrom (h : histogram B) (signature : string)
    (remaining i : nat) (observationsByBucket : list Z) : outcome (nat * Z) :=
  match remaining with
  | O => Panic IllegalCondition
  | S remaining' =>
      observations ← index observationsByBucket i;
      if (observations =? 0)%Z
      then nextNonEmptyFrom h signature remaining' (S i) observationsByBucket
      else
        histogram ← deref (values h !! signature);
        _ ← index (buckets histogram) i;
        Ok (i, 0%Z)
  end.

Definition nextNonEmptyBucketElement (h : histogram B) (signature : string)
    (currentIndex bucketCount : nat) (observationsByBucket : list Z) : outcome (nat * Z) :=
  nextNonEmptyFrom h signature (bucketCount - currentIndex) currentIndex observationsByBucket.

(** The first loop of [bucketForPercentile]: the counts, their running
    sums and the total, written into slices of length [bucketCount]. *)
Fixpoint tally (i : nat) (bs : list B) (observationsByBucket cumulative : list Z)
    (totalObservations : Z) : outcome (list Z * list Z * Z) :=
  match bs with
  | [] => Ok (observationsByBucket, cumulative, totalObservations)
  | bucket :: rest =>
      let observations := Bucket.Observations bucket in
      _ ← index observationsByBucket i;
      let totalObservations := wrap64 (totalObservations + Bucket.Observations bucket) in
      _ ← index cumulative i;
      tally (S i) rest (<[i := observations]> observationsByBucket)
        (<[i := totalObservations]> cumulative) totalObservations
  end.

(** The second loop of [bucketForPercentile] from position [i] on;
    [Ok None] when the loop runs to its end. *)
Fixpoint search (h : histogram B) (signature : string) (histogram : histogramValue B)
    (bucketCount : nat) (observationsByBucket cumulative : list Z)
    (prospectiveIndex : Z) (i : nat) (rest : list Z) : outcome (option (nat * Z)) :=
  match rest with
  | [] => Ok None
  | cumulativeObservation :: rest' =>
      if (cumulativeObservation =? 0)%Z
      then search h signature histogram bucketCount observationsByBucket cumulative
             prospectiveIndex (S i) rest'
      else if (cumulativeObservation >=? prospectiveIndex)%Z
      then
        previous ← previousCumulativeObservations cumulative i;
        let subIndex := wrap64 (prospectiveIndex - previous) in
        observations ← index observationsByBucket i;
        if (observations =? subIndex)%Z
        then Some <$> nextNonEmptyBucketElement h signature (S i) bucketCount
                        observationsByBucket
        else
          _ ← index (buckets histogram) i;
          Ok (Some (i, subIndex))
      else search h signature histogram bucketCount observationsByBucket cumulative
             prospectiveIndex (S i) rest'
  end.

(** [bucketForPercentile] up to the end of its search loop. *)
Definition bucketSearch (h : histogram B) (signature : string) (percentile : Q)
  : outcome (option (nat * Z)) :=
  let bucketCount := length (bucketStarts h) in
  histogram ← deref (values h !! signature);
  '(observationsByBucket, cumulative, totalObservations) ←
    tally 0 (buckets histogram) (replicate bucketCount 0%Z) (replicate bucketCount 0%Z) 0%Z;
  let prospectiveIndex := prospectiveIndexForPercentile percentile totalObservations in
  search h signature histogram bucketCount observationsByBucket cumulative
    prospectiveIndex 0 cumulative.

Definition bucketForPercentile (h : histogram B) (signature : string) (percentile : Q)
  : outcome (nat * Z) :=
  found ← bucketSearch h signature percentile;
  match found with
  | Some selected => Ok selected
  | None =>
      histogram ← deref (values h !! signature);
      _ ← index (buckets histogram) 0;
      Ok (0, 0%Z)
  end.

Definition percentile (h : histogram B) (signature : string) (p : Q) : outcome Q :=
  '(i, subIndex) ← bucketForPercentile h signature p;
  histogram ← deref (values h !! signature);
  bucket ← index (buckets histogram) i;
  Ok (Bucket.ValueForIndex bucket subIndex).

(** The percentile table of one series in [AsMarshallable]. *)
Fixpoint intermediateFor (h : histogram B) (signature : string) (percentiles : list Q)
    (intermediate : gmap string Q) : outcome (gmap string Q) :=
  match percentiles with
  | [] => Ok intermediate
  | p :: rest =>
      v ← percentile h signature p;
      intermediateFor h signature rest (<[formatFloat p := v]> intermediate)
  end.

Fixpoint marshalSeries (h : histogram B) (series : list (string * histogramValue B))
  : outcome (list (gmap string string * gmap string Q)) :=
  match series with
  | [] => Ok []
  | (signature, value) :: rest =>
      intermediate ← intermediateFor h signature (reportablePercentiles h) ∅;
      others ← marshalSeries h rest;
      Ok ((labels value, intermediate) :: others)
  end.

(** [AsMarshallable]: the list stored under the value key, one entry per
    series. *)
Definition AsMarshallable (h : histogram B)
  : outcome (list (gmap string string * gmap string Q)) :=
  marshalSeries h (map_to_list (values h)).

(** The events of one iteration of the outer loop of [ResetAll]. *)
Definition resetSeries (signature : string) (value : histogramValue B) : list (event B) :=
  imap (fun i bucket => BucketReset signature i (Bucket.Reset bucket)) (buckets value)
    ++ [SeriesDeleted signature].

Fixpoint resetLoop (series : list (string * histogramValue B))
    (m : gmap string (histogramValue B)) : gmap string (histogramValue B) * list (event B) :=
  match series with
  | [] => (m, [])
  | (signature, value) :: rest =>
      let '(m', trace) := resetLoop rest (delete signature m) in
      (m', resetSeries signature value ++ trace)
  end.

(** [ResetAll], with the trace of what it did. *)
Definition ResetAll (h : histogram B) : histogram B * list (event B) :=
  let '(m, trace) := resetLoop (map_to_list (values h)) (values h) in
  (withValues h m, trace).

Definition NewHistogram (specification : HistogramSpecification B) : histogram B :=
  {| bucketMaker := BucketBuilder specification;
     bucketStarts := Starts specification;
     reportablePercentiles := ReportablePercentiles specification;
     values := ∅ |}.

(** The sum of the counts of a series. *)
Definition totalObservations (histogram : histogramValue B) : Z :=
  sumZ (Bucket.Observations <$> buckets histogram).

End Engine.

(** * Properties *)

(** ** Comparisons and truncation *)

Lemma Qlt_bool_true (a b : Q) : Qlt_bool a b = true <-> (a < b)%Q.
Proof.
  unfold Qlt_bool. rewrite negb_true_iff. split.
  - intros Hf. apply Qnot_le_lt. intros Hle.
    apply Qle_bool_iff in Hle. congruence.
  - intros Hlt. destruct (Qle_bool b a) eqn:E; [|done].
    apply Qle_bool_iff in E. exfalso. by apply (Qlt_not_le a b).
Qed.

Lemma Qlt_bool_false (a b : Q) : Qlt_bool a b = false <-> (b <= a)%Q.
Proof.
  unfold Qlt_bool. rewrite negb_false_iff. apply Qle_bool_iff.
Qed.

(** ** Powers of two and the binary logarithm *)

Lemma leastPow2From_spec (q : Q) (fuel : nat) (k0 : Z) :
  (forall k, (k < k0)%Z -> ~ (q <= Qpow2 k)%Q) ->
  (q <= Qpow2 (k0 + Z.of_nat fuel))%Q ->
  (q <= Qpow2 (leastPow2From q k0 fuel))%Q /\
  (forall k, (k < leastPow2From q k0 fuel)%Z -> ~ (q <= Qpow2 k)%Q).
Proof.
  revert k0. induction fuel as [|fuel IH]; intros k0 Hbelow Htop; simpl.
  - by rewrite Z.add_0_r in Htop.
  - destruct (Qle_bool q (Qpow2 k0)) eqn:E.
    + apply Qle_bool_iff in E. by split.
    + apply IH.
      * intros k Hk. destruct (decide (k = k0)) as [->|Hne].
        -- intros Hle. apply Qle_bool_iff in Hle. congruence.
        -- apply Hbelow. lia.
      * by replace (k0 + 1 + Z.of_nat fuel)%Z with (k0 + Z.of_nat (S fuel))%Z by lia.
Qed.

Lemma ceilLog2_spec (upper : Q) :
  (0 < upper)%Q ->
  (upper <= Qpow2 (ceilLog2 upper))%Q /\
  (forall k, (k < ceilLog2 upper)%Z -> ~ (upper <= Qpow2 k)%Q).
Proof.
  destruct upper as [n d]. unfold Qlt. simpl. rewrite Z.mul_1_r. intros Hn.
  unfold ceilLog2. cbn [Qnum Qden].
  pose proof (Z.log2_up_nonneg n) as Hhi.
  pose proof (Z.log2_up_nonneg (Z.pos d)) as Hlo.
  apply leastPow2From_spec.
  - intros k Hk. destruct k as [|p|p]; [lia|lia|].
    unfold Qpow2, Qle. cbn [Qnum Qden]. rewrite Pos2Z.inj_pow.
    assert (Hd : (Z.pos d <= 2 ^ Z.log2_up (Z.pos d))%Z).
    { destruct (decide (Z.pos d = 1%Z)) as [->|Hne]; [done|].
      apply Z.log2_up_spec. lia. }
    assert (Hp : (2 ^ Z.log2_up (Z.pos d) < 2 ^ Z.pos p)%Z)
      by (apply Z.pow_lt_mono_r; lia).
    nia.
  - rewrite Z2Nat.id by lia.
    replace (- Z.log2_up (Z.pos d) + (Z.log2_up n - - Z.log2_up (Z.pos d)))%Z
      with (Z.log2_up n) by lia.
    assert (Hnle : (n <= 2 ^ Z.log2_up n)%Z).
    { destruct (decide (n = 1%Z)) as [->|Hne]; [done|].
      apply Z.log2_up_spec. lia. }
    assert (Hpos : (0 < 2 ^ Z.log2_up n)%Z) by (apply Z.pow_pos_nonneg; lia).
    destruct (Z.log2_up n) as [|p|p] eqn:E; [| |lia].
    + unfold Qpow2, Qle. simpl in *. nia.
    + unfold Qpow2, Qle, inject_Z. cbn [Qnum Qden]. nia.
Qed.

Lemma Qpow2_Qpower (k : Z) : (Qpow2 k == 2 ^ k)%Q.
Proof.
  destruct k as [|p|p].
  - reflexivity.
  - unfold Qpow2. by rewrite Zpower_Qpower.
  - change (Z.neg p) with (- Z.pos p)%Z. rewrite Qpower_opp.
    change 2%Q with (inject_Z 2). rewrite <- Zpower_Qpower by done.
    unfold Qpow2. rewrite <- Pos2Z.inj_pow. reflexivity.
Qed.

Lemma Qpow2_pos (k : Z) : (0 < Qpow2 k)%Q.
Proof. rewrite Qpow2_Qpower. by apply Qpower_0_lt. Qed.

Lemma Qpow2_plus (a b : Z) : (Qpow2 (a + b) == Qpow2 a * Qpow2 b)%Q.
Proof. rewrite !Qpow2_Qpower. by apply Qpower_plus. Qed.

Lemma Qpow2_le (a b : Z) : (a <= b)%Z -> (Qpow2 a <= Qpow2 b)%Q.
Proof. intros Hab. rewrite !Qpow2_Qpower. by apply Qpower_le_compat_l. Qed.

Lemma Qpow2_lt (a b : Z) : (a < b)%Z -> (Qpow2 a < Qpow2 b)%Q.
Proof. intros Hab. rewrite !Qpow2_Qpower. by apply Qpower_lt_compat_l. Qed.

Lemma Qpow2_le_inv (a b : Z) : (Qpow2 a <= Qpow2 b)%Q -> (a <= b)%Z.
Proof.
  intros Hle. destruct (Z_le_gt_dec a b) as [|Hgt]; [done|].
  exfalso. apply (Qlt_not_le _ _ (Qpow2_lt b a ltac:(lia))). done.
Qed.

Lemma Qpow2_lt_inv (a b : Z) : (Qpow2 a < Qpow2 b)%Q -> (a < b)%Z.
Proof.
  intros Hlt. destruct (Z_lt_le_dec a b) as [|Hge]; [done|].
  exfalso. apply (Qlt_not_le _ _ Hlt). by apply Qpow2_le.
Qed.

Lemma Qpow2_nonneg (k : Z) : (0 <= k)%Z -> Qpow2 k = inject_Z (2 ^ k).
Proof. destruct k; [done|done|lia]. Qed.

(** ** The binary logarithm, rounded down *)

Lemma floorLog2_spec (q : Q) :
  (0 < q)%Q -> (Qpow2 (floorLog2 q) <= q)%Q /\ (q < Qpow2 (floorLog2 q + 1))%Q.
Proof.
  intros Hq. destruct (ceilLog2_spec q Hq) as [Hle Hleast]. unfold floorLog2.
  destruct (Qle_bool (Qpow2 (ceilLog2 q)) q) eqn:E.
  - apply Qle_bool_iff in E. split; [done|].
    eapply Qle_lt_trans; [exact Hle|]. apply Qpow2_lt. lia.
  - split.
    + apply Qlt_le_weak, Qnot_le_lt, Hleast. lia.
    + replace (ceilLog2 q - 1 + 1)%Z with (ceilLog2 q) by lia.
      apply Qnot_le_lt. intros Hc. apply Qle_bool_iff in Hc. congruence.
Qed.

Lemma floorLog2_unique (q : Q) (k : Z) :
  (Qpow2 k <= q)%Q -> (q < Qpow2 (k + 1))%Q -> floorLog2 q = k.
Proof.
  intros Hlo Hhi.
  assert (Hq : (0 < q)%Q) by (eapply Qlt_le_trans; [apply (Qpow2_pos k)|done]).
  destruct (floorLog2_spec q Hq) as [Hlo' Hhi'].
  assert (H1 : (floorLog2 q < k + 1)%Z)
    by (apply Qpow2_lt_inv; by eapply Qle_lt_trans).
  assert (H2 : (k < floorLog2 q + 1)%Z)
    by (apply Qpow2_lt_inv; by eapply Qle_lt_trans).
  lia.
Qed.

Lemma floorLog2_comp (x y : Q) : (0 < x)%Q -> (x == y)%Q -> floorLog2 x = floorLog2 y.
Proof.
  intros Hx Hxy. destruct (floorLog2_spec x Hx) as [Hlo Hhi].
  symmetry. apply floorLog2_unique; by rewrite <- Hxy.
Qed.

Lemma floorLog2_mono (x y : Q) :
  (0 < x)%Q -> (x <= y)%Q -> (floorLog2 x <= floorLog2 y)%Z.
Proof.
  intros Hx Hxy.
  assert (Hy : (0 < y)%Q) by (by eapply Qlt_le_trans).
  destruct (floorLog2_spec x Hx) as [Hlo _]. destruct (floorLog2_spec y Hy) as [_ Hhi].
  assert (H : (floorLog2 x < floorLog2 y + 1)%Z).
  { apply Qpow2_lt_inv. eapply Qle_lt_trans; [exact Hlo|]. by eapply Qle_lt_trans. }
  lia.
Qed.

(** ** Rounding to the nearest integer, ties to even *)

Lemma Qfloor_unique (x : Q) (z : Z) :
  (inject_Z z <= x)%Q -> (x < inject_Z (z + 1))%Q -> Qfloor x = z.
Proof.
  intros Hlo Hhi.
  pose proof (Qfloor_resp_le _ _ Hlo) as H1. rewrite Qfloor_Z in H1.
  assert (H2 : (inject_Z (Qfloor x) < inject_Z (z + 1))%Q)
    by (eapply Qle_lt_trans; [apply Qfloor_le|done]).
  rewrite <- Zlt_Qlt in H2. lia.
Qed.

#[global] Instance roundHalfEven_comp : Proper (Qeq ==> eq) roundHalfEven.
Proof.
  intros x y Hxy. unfold roundHalfEven. rewrite (Qfloor_comp _ _ Hxy).
  destruct (Qcompare_spec (x - inject_Z (Qfloor y)) (1 # 2)) as [Hx|Hx|Hx];
    destruct (Qcompare_spec (y - inject_Z (Qfloor y)) (1 # 2)) as [Hy|Hy|Hy];
    try done; exfalso; lra.
Qed.

Lemma roundHalfEven_Z (z : Z) : roundHalfEven (inject_Z z) = z.
Proof.
  unfold roundHalfEven. rewrite Qfloor_Z.
  destruct (Qcompare_spec (inject_Z z - inject_Z z) (1 # 2)) as [Hc|Hc|Hc];
    [exfalso; lra|done|exfalso; lra].
Qed.

Lemma roundHalfEven_floor (x : Q) :
  (Qfloor x <= roundHalfEven x <= Qfloor x + 1)%Z.
Proof.
  unfold roundHalfEven. destruct (_ ?= _)%Q; [destruct (Z.even _)| |]; lia.
Qed.

Lemma roundHalfEven_mono (x y : Q) :
  (x <= y)%Q -> (roundHalfEven x <= roundHalfEven y)%Z.
Proof.
  intros Hxy. pose proof (Qfloor_resp_le _ _ Hxy) as Hf.
  pose proof (roundHalfEven_floor x). pose proof (roundHalfEven_floor y).
  destruct (decide (Qfloor x = Qfloor y)) as [Heq|Hne]; [|lia].
  unfold roundHalfEven. rewrite Heq.
  destruct (Qcompare_spec (x - inject_Z (Qfloor y)) (1 # 2)) as [Hx|Hx|Hx];
    destruct (Qcompare_spec (y - inject_Z (Qfloor y)) (1 # 2)) as [Hy|Hy|Hy];
    try (destruct (Z.even (Qfloor y))); try lia; exfalso; lra.
Qed.

Lemma roundHalfEven_opp (x : Q) : roundHalfEven (- x) = (- roundHalfEven x)%Z.
Proof.
  pose proof (Qfloor_le x) as Hlo. pose proof (Qlt_floor x) as Hhi.
  rewrite inject_Z_plus in Hhi. change (inject_Z 1) with 1%Q in Hhi.
  destruct (Qeq_dec x (inject_Z (Qfloor x))) as [Hint|Hfrac].
  - rewrite (roundHalfEven_comp x _ Hint), roundHalfEven_Z.
    rewrite (roundHalfEven_comp (- x) (inject_Z (- Qfloor x))); [apply roundHalfEven_Z|].
    rewrite inject_Z_opp. by apply Qopp_comp.
  - assert (Hlt : (inject_Z (Qfloor x) < x)%Q).
    { apply Qle_lteq in Hlo as [|Heq]; [done|]. exfalso. apply Hfrac. by symmetry. }
    assert (He : (inject_Z (- Qfloor x - 1) == - inject_Z (Qfloor x) - 1)%Q).
    { unfold Z.sub. rewrite inject_Z_plus, inject_Z_opp. reflexivity. }
    assert (Hf : Qfloor (- x) = (- Qfloor x - 1)%Z).
    { apply Qfloor_unique.
      - rewrite He. lra.
      - replace (- Qfloor x - 1 + 1)%Z with (- Qfloor x)%Z by lia.
        rewrite inject_Z_opp. lra. }
    unfold roundHalfEven. rewrite Hf.
    destruct (Qcompare_spec (x - inject_Z (Qfloor x)) (1 # 2)) as [Hx|Hx|Hx];
      destruct (Qcompare_spec (- x - inject_Z (- Qfloor x - 1)) (1 # 2)) as [Hy|Hy|Hy];
      rewrite He in Hy; try (exfalso; lra); try lia.
    replace (- Qfloor x - 1)%Z with (- (Qfloor x + 1))%Z by lia.
    rewrite Z.even_opp, Z.even_add. simpl.
    destruct (Z.even (Qfloor x)); simpl; lia.
Qed.

(** ** Rounding to binary64 *)

Lemma Qabs_nonzero (x : Q) : ~ (x == 0)%Q -> (0 < Qabs x)%Q.
Proof.
  intros Hx. destruct (Qlt_le_dec 0 x) as [Hpos|Hneg].
  - rewrite Qabs_pos; [done|lra].
  - rewrite Qabs_neg by done.
    apply Qle_lteq in Hneg as [|Heq]; [lra|]. by destruct Hx.
Qed.

Lemma exponentOf_comp (x y : Q) :
  ~ (x == 0)%Q -> (x == y)%Q -> exponentOf x = exponentOf y.
Proof.
  intros Hx Hxy. unfold exponentOf.
  rewrite (floorLog2_comp (Qabs x) (Qabs y)); [done|by apply Qabs_nonzero|by rewrite Hxy].
Qed.

Lemma exponentOf_pos (x : Q) :
  (0 < x)%Q -> exponentOf x = Z.max (-1074) (floorLog2 x - 52).
Proof.
  intros Hx. unfold exponentOf.
  rewrite (floorLog2_comp (Qabs x) x); [done| |].
  - apply Qabs_nonzero. lra.
  - apply Qabs_pos. lra.
Qed.

Lemma exponentOf_opp (x : Q) : ~ (x == 0)%Q -> exponentOf (- x) = exponentOf x.
Proof.
  intros Hx. unfold exponentOf.
  rewrite (floorLog2_comp (Qabs (- x)) (Qabs x)); [done| |apply Qabs_opp].
  apply Qabs_nonzero. intros Hz. apply Hx. lra.
Qed.

Lemma round64_nonzero (x : Q) :
  ~ (x == 0)%Q ->
  round64 x = (inject_Z (roundHalfEven (x / Qpow2 (exponentOf x))) * Qpow2 (exponentOf x))%Q.
Proof.
  intros Hx. unfold round64. destruct (Qeq_bool x 0) eqn:E; [|done].
  apply Qeq_bool_iff in E. by destruct Hx.
Qed.

Lemma round64_zero (x : Q) : (x == 0)%Q -> round64 x = 0%Q.
Proof. intros Hx. unfold round64. apply Qeq_bool_iff in Hx. by rewrite Hx. Qed.

#[global] Instance round64_comp : Proper (Qeq ==> Qeq) round64.
Proof.
  intros x y Hxy. destruct (Qeq_dec x 0) as [Hx|Hx].
  - rewrite (round64_zero x Hx), (round64_zero y); [reflexivity|by rewrite <- Hxy].
  - assert (Hy : ~ (y == 0)%Q) by (by rewrite <- Hxy).
    rewrite (round64_nonzero x Hx), (round64_nonzero y Hy).
    rewrite (exponentOf_comp x y Hx Hxy).
    rewrite (roundHalfEven_comp (x / Qpow2 (exponentOf y))%Q (y / Qpow2 (exponentOf y))%Q);
      [reflexivity|by rewrite Hxy].
Qed.

Lemma round64_opp (x : Q) : (round64 (- x) == - round64 x)%Q.
Proof.
  destruct (Qeq_dec x 0) as [Hx|Hx].
  - rewrite (round64_zero x Hx), (round64_zero (- x)); [reflexivity|lra].
  - assert (Hx' : ~ (- x == 0)%Q) by (intros Hz; apply Hx; lra).
    rewrite (round64_nonzero x Hx), (round64_nonzero (- x) Hx'), (exponentOf_opp x Hx).
    rewrite (roundHalfEven_comp (- x / Qpow2 (exponentOf x))%Q (- (x / Qpow2 (exponentOf x)))%Q).
    + rewrite roundHalfEven_opp, inject_Z_opp. ring.
    + unfold Qdiv. ring.
Qed.

Lemma scaled_le (x y : Q) (e : Z) : (x <= y)%Q -> (x / Qpow2 e <= y / Qpow2 e)%Q.
Proof.
  intros Hxy. unfold Qdiv. apply Qmult_le_compat_r; [done|].
  apply Qinv_le_0_compat, Qlt_le_weak, Qpow2_pos.
Qed.

Lemma round64_mono_pos (x y : Q) :
  (0 < x)%Q -> (x <= y)%Q -> (round64 x <= round64 y)%Q.
Proof.
  intros Hx Hxy.
  assert (Hy : (0 < y)%Q) by lra.
  rewrite (round64_nonzero x), (round64_nonzero y) by lra.
  pose proof (floorLog2_mono x y Hx Hxy) as Hfl.
  destruct (floorLog2_spec x Hx) as [_ Hxhi]. destruct (floorLog2_spec y Hy) as [Hylo _].
  rewrite (exponentOf_pos x Hx), (exponentOf_pos y Hy).
  set (ex := Z.max (-1074) (floorLog2 x - 52)). set (ey := Z.max (-1074) (floorLog2 y - 52)).
  assert (Hex : (ex <= ey)%Z) by lia.
  pose proof (Qpow2_pos ex) as Hpx. pose proof (Qpow2_pos ey) as Hpy.
  destruct (decide (ex = ey)) as [->|Hne].
  - apply Qmult_le_compat_r; [|lra]. rewrite <- Zle_Qle.
    by apply roundHalfEven_mono, scaled_le.
  - assert (Hey : ey = (floorLog2 y - 52)%Z) by lia.
    assert (Hx53 : (x / Qpow2 ex <= Qpow2 53)%Q).
    { apply Qle_shift_div_r; [done|]. rewrite <- Qpow2_plus.
      eapply Qle_trans; [apply Qlt_le_weak, Hxhi|]. apply Qpow2_le. lia. }
    assert (Hy52 : (Qpow2 52 <= y / Qpow2 ey)%Q).
    { apply Qle_shift_div_l; [done|]. rewrite <- Qpow2_plus.
      eapply Qle_trans; [|exact Hylo]. apply Qpow2_le. lia. }
    apply roundHalfEven_mono in Hx53, Hy52.
    rewrite (Qpow2_nonneg 53), roundHalfEven_Z in Hx53 by lia.
    rewrite (Qpow2_nonneg 52), roundHalfEven_Z in Hy52 by lia.
    rewrite Zle_Qle in Hx53, Hy52.
    rewrite <- (Qpow2_nonneg 53) in Hx53 by lia. rewrite <- (Qpow2_nonneg 52) in Hy52 by lia.
    apply (Qle_trans _ (Qpow2 53 * Qpow2 ex)%Q).
    { apply Qmult_le_compat_r; [done|lra]. }
    apply (Qle_trans _ (Qpow2 52 * Qpow2 ey)%Q).
    { rewrite <- !Qpow2_plus. apply Qpow2_le. lia. }
    apply Qmult_le_compat_r; [done|lra].
Qed.

Lemma round64_nonneg (x : Q) : (0 <= x)%Q -> (0 <= round64 x)%Q.
Proof.
  intros Hx. destruct (Qeq_dec x 0) as [Hz|Hnz].
  - rewrite (round64_zero x Hz). lra.
  - rewrite (round64_nonzero x Hnz).
    apply Qmult_le_0_compat; [|apply Qlt_le_weak, Qpow2_pos].
    change 0%Q with (inject_Z 0). rewrite <- Zle_Qle.
    rewrite <- (roundHalfEven_Z 0). apply roundHalfEven_mono.
    apply Qle_shift_div_l; [apply Qpow2_pos|]. change (inject_Z 0) with 0%Q. lra.
Qed.

Lemma round64_mono (x y : Q) : (x <= y)%Q -> (round64 x <= round64 y)%Q.
Proof.
  intros Hxy. destruct (Qlt_le_dec 0 x) as [Hx|Hx]; [by apply round64_mono_pos|].
  assert (Hrx : (round64 x <= 0)%Q).
  { assert (H0 : (0 <= round64 (- x))%Q) by (apply round64_nonneg; lra).
    rewrite round64_opp in H0. lra. }
  destruct (Qlt_le_dec y 0) as [Hy|Hy].
  - assert (Hm : (round64 (- y) <= round64 (- x))%Q) by (apply round64_mono_pos; lra).
    rewrite !round64_opp in Hm. lra.
  - pose proof (round64_nonneg y Hy). lra.
Qed.

(** A number with at most 53 significant bits above the least exponent
    is a float. *)
Lemma round64_representable (m k : Z) :
  (Z.abs m < 2 ^ 53)%Z -> (-1074 <= k)%Z ->
  (round64 (inject_Z m * Qpow2 k) == inject_Z m * Qpow2 k)%Q.
Proof.
  intros Hm Hk. set (q := (inject_Z m * Qpow2 k)%Q).
  pose proof (Qpow2_pos k) as Hpk.
  destruct (decide (m = 0%Z)) as [->|Hm0].
  { rewrite (round64_zero q); unfold q; ring. }
  assert (Hq : ~ (q == 0)%Q).
  { unfold q. intros Hz. apply Qmult_integral in Hz as [Hz|Hz]; [|lra].
    apply Hm0. change 0%Q with (inject_Z 0) in Hz. by apply (proj1 (inject_Z_injective m 0)). }
  rewrite (round64_nonzero q Hq). set (e := exponentOf q).
  assert (Hek : (e <= k)%Z).
  { unfold e, exponentOf.
    destruct (floorLog2_spec (Qabs q) (Qabs_nonzero q Hq)) as [Hlo _].
    assert (Habs : (Qabs q < Qpow2 (53 + k))%Q).
    { unfold q. rewrite Qabs_Qmult, (Qabs_pos (Qpow2 k)) by lra.
      rewrite Qpow2_plus. apply Qmult_lt_compat_r; [done|].
      rewrite (Qpow2_nonneg 53) by lia.
      change (Qabs (inject_Z m)) with (inject_Z (Z.abs m)). by rewrite <- Zlt_Qlt. }
    assert (H : (floorLog2 (Qabs q) < 53 + k)%Z)
      by (apply Qpow2_lt_inv; by eapply Qle_lt_trans).
    lia. }
  pose proof (Qpow2_pos e) as Hpe.
  assert (Hsplit : (Qpow2 k == inject_Z (2 ^ (k - e)) * Qpow2 e)%Q).
  { rewrite <- (Qpow2_nonneg (k - e)) by lia. rewrite <- Qpow2_plus.
    by replace (k - e + e)%Z with k by lia. }
  assert (Hscaled : (q / Qpow2 e == inject_Z (m * 2 ^ (k - e)))%Q).
  { unfold q. rewrite Hsplit, inject_Z_mult. field. lra. }
  rewrite (roundHalfEven_comp _ _ Hscaled), roundHalfEven_Z.
  unfold q. rewrite Hsplit, inject_Z_mult. ring.
Qed.

Lemma round64_exact (q : Q) (m k : Z) :
  (q == inject_Z m * Qpow2 k)%Q -> (Z.abs m < 2 ^ 53)%Z -> (-1074 <= k)%Z ->
  (round64 q == q)%Q.
Proof.
  intros Hq Hm Hk. rewrite (round64_comp q _ Hq), round64_representable by done.
  by symmetry.
Qed.

Lemma round64_Z (n : Z) :
  (Z.abs n <= 2 ^ 53)%Z -> (round64 (inject_Z n) == inject_Z n)%Q.
Proof.
  intros Hn. destruct (decide (Z.abs n = 2 ^ 53)%Z) as [Heq|Hne].
  - assert (n = 2 ^ 53 \/ n = - 2 ^ 53)%Z as [-> | ->] by lia.
    + apply (round64_exact _ (2 ^ 52) 1); [vm_compute; reflexivity|lia|lia].
    + apply (round64_exact _ (- 2 ^ 52) 1); [vm_compute; reflexivity|lia|lia].
  - apply (round64_exact _ n 0); [|lia|lia]. change (Qpow2 0) with 1%Q. ring.
Qed.

(** ** Integers of 64 bits *)

Lemma wrap64_id (z : Z) : (- 2 ^ 63 <= z < 2 ^ 63)%Z -> wrap64 z = z.
Proof. intros Hz. unfold wrap64. rewrite Z.mod_small by lia. lia. Qed.

Lemma toInt64_range (q : Q) : (- 2 ^ 63 <= toInt64 q < 2 ^ 63)%Z.
Proof.
  unfold toInt64.
  destruct (Z.leb_spec (- 2 ^ 63) (truncate q)); destruct (Z.ltb_spec (truncate q) (2 ^ 63));
    simpl; lia.
Qed.

Lemma truncate_nonneg_floor (q : Q) : (0 <= q)%Q -> truncate q = Qfloor q.
Proof.
  destruct q as [n d]. unfold Qle, truncate, Qfloor. simpl. rewrite Z.mul_1_r. intros Hn.
  apply Z.quot_div_nonneg; lia.
Qed.

Lemma toInt64_floor (q : Q) (n : Z) :
  (0 <= q)%Q -> (q <= inject_Z n)%Q -> (n < 2 ^ 63)%Z ->
  toInt64 q = Qfloor q /\ (0 <= Qfloor q <= n)%Z.
Proof.
  intros Hq Hn Hbound.
  assert (Hf : (0 <= Qfloor q <= n)%Z).
  { pose proof (Qfloor_resp_le _ _ Hq) as H0. pose proof (Qfloor_resp_le _ _ Hn) as H1.
    change (Qfloor 0) with 0%Z in H0. rewrite Qfloor_Z in H1. done. }
  split; [|done]. unfold toInt64. rewrite (truncate_nonneg_floor q Hq).
  destruct (Z.leb_spec (- 2 ^ 63) (Qfloor q)); destruct (Z.ltb_spec (Qfloor q) (2 ^ 63));
    simpl; lia.
Qed.

(** The rank of a percentile of at least zero among at most [2^53 + 1]
    observations: the count converts to a float without rounding. *)
Lemma prospectiveIndex_int (p : Q) (n : Z) :
  (- 2 ^ 63 <= prospectiveIndexForPercentile p n < 2 ^ 63)%Z.
Proof. unfold prospectiveIndexForPercentile. apply toInt64_range. Qed.

Lemma prospectiveIndex_scaled (p : Q) (n : Z) :
  (0 < n)%Z -> (n - 1 <= 2 ^ 53)%Z ->
  (round64 (p * round64 (inject_Z (wrap64 (n - 1)))) == round64 (p * inject_Z (n - 1)))%Q.
Proof.
  intros Hn Hbound. rewrite wrap64_id by lia.
  apply round64_comp. by rewrite round64_Z by lia.
Qed.

Lemma prospectiveIndex_floor (p : Q) (n : Z) :
  (0 <= p)%Q -> (p <= 1)%Q -> (0 < n)%Z -> (n - 1 <= 2 ^ 53)%Z ->
  prospectiveIndexForPercentile p n = Qfloor (round64 (p * inject_Z (n - 1))) /\
  (0 <= round64 (p * inject_Z (n - 1)))%Q /\
  (round64 (p * inject_Z (n - 1)) <= inject_Z (n - 1))%Q.
Proof.
  intros Hp0 Hp1 Hn Hbound.
  assert (Hn0 : (0 <= inject_Z (n - 1))%Q).
  { change 0%Q with (inject_Z 0). rewrite <- Zle_Qle. lia. }
  assert (Hlo : (0 <= round64 (p * inject_Z (n - 1)))%Q).
  { apply round64_nonneg. by apply Qmult_le_0_compat. }
  assert (Hhi : (round64 (p * inject_Z (n - 1)) <= inject_Z (n - 1))%Q).
  { rewrite <- (round64_Z (n - 1)) at 2 by lia. apply round64_mono.
    rewrite <- (Qmult_1_l (inject_Z (n - 1))) at 2.
    by apply Qmult_le_compat_r. }
  split; [|done]. unfold prospectiveIndexForPercentile.
  destruct (toInt64_floor (round64 (p * round64 (inject_Z (wrap64 (n - 1))))) (n - 1))
    as [Hrank _].
  - by rewrite prospectiveIndex_scaled.
  - by rewrite prospectiveIndex_scaled.
  - lia.
  - rewrite Hrank. apply Qfloor_comp. by apply prospectiveIndex_scaled.
Qed.

Lemma prospectiveIndex_bounds (p : Q) (n : Z) :
  (0 <= p)%Q -> (p <= 1)%Q -> (0 < n)%Z -> (n - 1 <= 2 ^ 53)%Z ->
  (0 <= prospectiveIndexForPercentile p n <= n - 1)%Z.
Proof.
  intros Hp0 Hp1 Hn Hbound.
  destruct (prospectiveIndex_floor p n Hp0 Hp1 Hn Hbound) as (-> & Hlo & Hhi).
  pose proof (Qfloor_resp_le _ _ Hlo) as H0. pose proof (Qfloor_resp_le _ _ Hhi) as H1.
  change (Qfloor 0) with 0%Z in H0. rewrite Qfloor_Z in H1. done.
Qed.

Lemma prospectiveIndex_mono (p1 p2 : Q) (n : Z) :
  (0 <= p1)%Q -> (p1 <= p2)%Q -> (p2 <= 1)%Q -> (0 < n)%Z -> (n - 1 <= 2 ^ 53)%Z ->
  (prospectiveIndexForPercentile p1 n <= prospectiveIndexForPercentile p2 n)%Z.
Proof.
  intros Hp1 Hp12 Hp2 Hn Hbound.
  destruct (prospectiveIndex_floor p1 n) as (-> & _); [done|lra|done|done|].
  destruct (prospectiveIndex_floor p2 n) as (-> & _); [lra|done|done|done|].
  apply Qfloor_resp_le, round64_mono, Qmult_le_compat_r; [done|].
  change 0%Q with (inject_Z 0). rewrite <- Zle_Qle. lia.
Qed.

Lemma prospectiveIndex_one (n : Z) :
  (0 < n)%Z -> (n - 1 <= 2 ^ 53)%Z -> prospectiveIndexForPercentile 1 n = (n - 1)%Z.
Proof.
  intros Hn Hbound.
  destruct (prospectiveIndex_floor 1%Q n) as (-> & _); [lra|lra|done|done|].
  transitivity (Qfloor (inject_Z (n - 1))); [|apply Qfloor_Z].
  apply Qfloor_comp. rewrite Qmult_1_l. apply round64_Z. lia.
Qed.

Lemma prospectiveIndex_zero (n : Z) : prospectiveIndexForPercentile 0 n = 0%Z.
Proof.
  unfold prospectiveIndexForPercentile. rewrite (round64_zero (0 * _)); [done|ring].
Qed.

(** ** Routing *)

(** The number of leading boundaries that are at most [value]. *)
Fixpoint leading (starts : list Q) (value : Q) : nat :=
  match starts with
  | [] => 0
  | bucketStart :: rest =>
      if Qlt_bool value bucketStart then 0 else S (leading rest value)
  end.

Lemma route_leading (starts : list Q) (value : Q) (i lastIndex : nat) :
  route i lastIndex starts value =
  match leading starts value with
  | O => lastIndex
  | S k => i + k
  end.
Proof.
  revert i lastIndex. induction starts as [|b rest IH]; intros i lastIndex; simpl; [done|].
  destruct (Qlt_bool value b); [done|].
  rewrite IH. destruct (leading rest value); lia.
Qed.

Lemma lastIndexFor_leading (starts : list Q) (value : Q) :
  lastIndexFor starts value = Nat.pred (leading starts value).
Proof.
  unfold lastIndexFor. rewrite route_leading. by destruct (leading starts value).
Qed.

Lemma leading_le_length (starts : list Q) (value : Q) :
  leading starts value <= length starts.
Proof.
  induction starts as [|b rest IH]; simpl; [lia|].
  destruct (Qlt_bool value b); lia.
Qed.

Lemma lastIndexFor_lt (starts : list Q) (value : Q) :
  starts <> [] -> lastIndexFor starts value < length starts.
Proof.
  intros Hne. rewrite lastIndexFor_leading.
  pose proof (leading_le_length starts value).
  destruct starts; [done|]. simpl in *. lia.
Qed.

Lemma leading_mono (starts : list Q) (v w : Q) :
  (v <= w)%Q -> leading starts v <= leading starts w.
Proof.
  intros Hvw. induction starts as [|b rest IH]; simpl; [lia|].
  destruct (Qlt_bool v b) eqn:Ev; [lia|].
  destruct (Qlt_bool w b) eqn:Ew; [|lia].
  apply Qlt_bool_true in Ew. apply Qlt_bool_false in Ev.
  exfalso. apply (Qlt_not_le w b Ew). by eapply Qle_trans.
Qed.

(** Routing is monotone in the value, whatever the boundaries are. *)
Lemma lastIndexFor_mono (starts : list Q) (v w : Q) :
  (v <= w)%Q -> lastIndexFor starts v <= lastIndexFor starts w.
Proof.
  intros Hvw. rewrite !lastIndexFor_leading.
  pose proof (leading_mono starts v w Hvw). lia.
Qed.

Lemma leading_below (starts : list Q) (value b : Q) :
  starts !! 0 = Some b -> (value < b)%Q -> leading starts value = 0.
Proof.
  destruct starts as [|b' rest]; [done|]. simpl. intros [= ->] Hlt.
  apply Qlt_bool_true in Hlt. by rewrite Hlt.
Qed.

(** In boundaries sorted in the wide sense, a value in
    [[starts[i], starts[i+1])] passes exactly [i + 1] boundaries. *)
Lemma leading_interval (starts : list Q) (value lo : Q) (i : nat) :
  StronglySorted Qle starts ->
  starts !! i = Some lo -> (lo <= value)%Q ->
  (forall hi, starts !! S i = Some hi -> (value < hi)%Q) ->
  leading starts value = S i.
Proof.
  intros Hs. revert i. induction Hs as [|b rest Hs IH Hall]; intros i Hi Hlo Hhi; [done|].
  simpl. destruct i as [|i]; simpl in Hi.
  - injection Hi as ->.
    destruct (Qlt_bool value lo) eqn:E.
    { apply Qlt_bool_true in E. exfalso. by apply (Qlt_not_le value lo). }
    f_equal. destruct rest as [|hi rest']; [done|]. simpl.
    specialize (Hhi hi eq_refl). apply Qlt_bool_true in Hhi. by rewrite Hhi.
  - assert (Hb : (b <= lo)%Q).
    { rewrite Forall_forall in Hall. apply Hall.
      by eapply list_elem_of_lookup_2. }
    destruct (Qlt_bool value b) eqn:E.
    { apply Qlt_bool_true in E. exfalso. apply (Qlt_not_le value b E).
      by eapply Qle_trans. }
    f_equal. by apply IH.
Qed.

Lemma StronglySorted_Qlt_Qle (starts : list Q) :
  StronglySorted Qlt starts -> StronglySorted Qle starts.
Proof.
  induction 1 as [|b rest Hs IH Hall]; constructor; [done|].
  eapply Forall_impl; [exact Hall|]. intros x. apply Qlt_le_weak.
Qed.

Lemma StronglySorted_Qlt_next (starts : list Q) (i : nat) (lo hi : Q) :
  StronglySorted Qlt starts ->
  starts !! i = Some lo -> starts !! S i = Some hi -> (lo < hi)%Q.
Proof.
  intros Hs. revert i. induction Hs as [|b rest Hs IH Hall]; intros i Hi Hi'; [done|].
  destruct i as [|i]; simpl in *.
  - injection Hi as ->. rewrite Forall_forall in Hall. apply Hall.
    by eapply list_elem_of_lookup_2.
  - by eapply IH.
Qed.

(** ** The engine's states *)

Section EngineFacts.

Context {B : Type} `{Bucket.Ops B}.
Variable LabelsToSignature : gmap string string -> string.

(** The invariant stated with the [histogram] type: every series has one
    bucket per boundary. *)
Definition wellFormed (h : histogram B) : Prop :=
  forall signature s,
    values h !! signature = Some s -> length (buckets s) = length (bucketStarts h).

(** The series [Add] works on: the one stored under the signature, or
    the one it builds with the bucket factory. *)
Definition seriesFor (h : histogram B) (labels : option (gmap string string))
  : histogramValue B :=
  default
    {| buckets := replicate (length (bucketStarts h)) (bucketMaker h);
       labels := default ∅ labels |}
    (values h !! LabelsToSignature (default ∅ labels)).

(** The states an engine built from [spec] goes through. A call of [Add]
    that panics leaves the state it had reached. *)
Inductive reachable (spec : HistogramSpecification B) : histogram B -> Prop :=
| reachable_new : reachable spec (NewHistogram spec)
| reachable_Add h labels value :
    reachable spec h -> reachable spec (fst (Add LabelsToSignature h labels value))
| reachable_ResetAll h :
    reachable spec h -> reachable spec (fst (ResetAll h)).

(** A run of [Add] calls that stops at the first panic. *)
Fixpoint AddAll (h : histogram B) (calls : list (option (gmap string string) * Q))
  : histogram B * completion :=
  match calls with
  | [] => (h, Returns)
  | (labels, value) :: rest =>
      match Add LabelsToSignature h labels value with
      | (h', Returns) => AddAll h' rest
      | (h', Panics p) => (h', Panics p)
      end
  end.

(** The count of a signature's series; no series, no observations. *)
Definition seriesTotal (h : histogram B) (signature : string) : Z :=
  match values h !! signature with
  | Some s => totalObservations s
  | None => 0%Z
  end.

Lemma withValues_id (h : histogram B) : withValues h (values h) = h.
Proof. by destruct h. Qed.

Lemma Add_unfold (h : histogram B) (labels : option (gmap string string)) (value : Q) :
  let signature := LabelsToSignature (default ∅ labels) in
  let s := seriesFor h labels in
  let k := lastIndexFor (bucketStarts h) value in
  Add LabelsToSignature h labels value =
  match buckets s !! k with
  | Some b =>
      (withValues h
         (<[signature := withBuckets s (<[k := Bucket.Add b value]> (buckets s))]> (values h)),
       Returns)
  | None =>
      (withValues h (<[signature := s]> (values h)),
       Panics (IndexOutOfRange k (length (buckets s))))
  end.
Proof.
  unfold Add, seriesFor. simpl.
  destruct (values h !! LabelsToSignature (default ∅ labels)) as [s|] eqn:E; simpl.
  - destruct (buckets s !! _); [done|].
    by rewrite insert_id, withValues_id.
  - destruct (replicate _ _ !! _); [|done].
    unfold withValues. simpl. by rewrite insert_insert_eq.
Qed.

Lemma seriesFor_length (h : histogram B) (labels : option (gmap string string)) :
  wellFormed h -> length (buckets (seriesFor h labels)) = length (bucketStarts h).
Proof.
  intros Hwf. unfold seriesFor.
  destruct (values h !! _) as [s|] eqn:E; simpl.
  - by eapply Hwf.
  - by rewrite length_replicate.
Qed.

Lemma Add_bucketStarts (h : histogram B) labels value :
  bucketStarts (fst (Add LabelsToSignature h labels value)) = bucketStarts h.
Proof. rewrite Add_unfold. simpl. by destruct (_ !! _). Qed.

Lemma Add_bucketMaker (h : histogram B) labels value :
  bucketMaker (fst (Add LabelsToSignature h labels value)) = bucketMaker h.
Proof. rewrite Add_unfold. simpl. by destruct (_ !! _). Qed.

Lemma Add_wellFormed (h : histogram B) labels value :
  wellFormed h -> wellFormed (fst (Add LabelsToSignature h labels value)).
Proof.
  intros Hwf signature s. rewrite Add_bucketStarts.
  pose proof (seriesFor_length h labels Hwf) as Hlen.
  rewrite Add_unfold. simpl.
  destruct (buckets (seriesFor h labels) !! _); simpl;
    (destruct (decide (LabelsToSignature (default ∅ labels) = signature)) as [->|Hne];
     [rewrite lookup_insert_eq; intros [= <-]
     |rewrite lookup_insert_ne by done; apply Hwf]).
  - simpl. by rewrite length_insert.
  - done.
Qed.

(** On a well-formed engine with at least one boundary [Add] returns. *)
Lemma Add_returns (h : histogram B) labels value :
  wellFormed h -> bucketStarts h <> [] ->
  exists b,
    buckets (seriesFor h labels) !! lastIndexFor (bucketStarts h) value = Some b /\
    Add LabelsToSignature h labels value =
    (withValues h
       (<[LabelsToSignature (default ∅ labels) :=
            withBuckets (seriesFor h labels)
              (<[lastIndexFor (bucketStarts h) value := Bucket.Add b value]>
                 (buckets (seriesFor h labels)))]> (values h)),
     Returns).
Proof.
  intros Hwf Hne.
  pose proof (lastIndexFor_lt (bucketStarts h) value Hne) as Hlt.
  rewrite <- (seriesFor_length h labels Hwf) in Hlt.
  apply lookup_lt_is_Some_2 in Hlt as [b Hb].
  exists b. split; [done|]. rewrite Add_unfold. simpl. by rewrite Hb.
Qed.

(** ** ResetAll *)

Lemma resetLoop_cons (signature : string) (value : histogramValue B)
    (rest : list (string * histogramValue B)) (m : gmap string (histogramValue B)) :
  resetLoop ((signature, value) :: rest) m =
  (fst (resetLoop rest (delete signature m)),
   resetSeries signature value ++ snd (resetLoop rest (delete signature m))).
Proof. simpl. by destruct (resetLoop rest (delete signature m)). Qed.

Lemma resetLoop_lookup (series : list (string * histogramValue B))
    (m : gmap string (histogramValue B)) (k : string) :
  (fst (resetLoop series m) !! k = None) \/
  ((k ∉ series.*1) /\ (fst (resetLoop series m) !! k = m !! k)).
Proof.
  revert m. induction series as [|[signature value] rest IH]; intros m.
  - right. split; [|done]. apply not_elem_of_nil.
  - rewrite resetLoop_cons. cbn [fst].
    destruct (IH (delete signature m)) as [Hnone|[Hnotin Heq]]; [by left|].
    destruct (decide (signature = k)) as [->|Hne].
    + left. by rewrite Heq, lookup_delete_eq.
    + right. split.
      * rewrite fmap_cons. cbn [fst]. apply not_elem_of_cons. by split.
      * by rewrite Heq, lookup_delete_ne.
Qed.

Lemma resetLoop_trace (series : list (string * histogramValue B))
    (m : gmap string (histogramValue B)) :
  snd (resetLoop series m) =
  concat ((fun entry => resetSeries (fst entry) (snd entry)) <$> series).
Proof.
  revert m. induction series as [|[signature value] rest IH]; intros m; [done|].
  rewrite resetLoop_cons, fmap_cons. cbn [fst snd concat]. by rewrite IH.
Qed.

Lemma ResetAll_fst (h : histogram B) :
  fst (ResetAll h) = withValues h (fst (resetLoop (map_to_list (values h)) (values h))).
Proof. unfold ResetAll. by destruct (resetLoop _ _). Qed.

Lemma ResetAll_snd (h : histogram B) :
  snd (ResetAll h) = snd (resetLoop (map_to_list (values h)) (values h)).
Proof. unfold ResetAll. by destruct (resetLoop _ _). Qed.

Lemma ResetAll_values (h : histogram B) : values (fst (ResetAll h)) = ∅.
Proof.
  rewrite ResetAll_fst. simpl. apply map_empty. intros k.
  destruct (resetLoop_lookup (map_to_list (values h)) (values h) k)
    as [Hnone|[Hnotin Heq]]; [done|].
  rewrite Heq. destruct (values h !! k) as [s|] eqn:E; [|done].
  exfalso. apply Hnotin. apply list_elem_of_fmap. exists (k, s).
  split; [done|]. by apply elem_of_map_to_list.
Qed.

Lemma ResetAll_bucketStarts (h : histogram B) :
  bucketStarts (fst (ResetAll h)) = bucketStarts h.
Proof. by rewrite ResetAll_fst. Qed.

Lemma ResetAll_bucketMaker (h : histogram B) :
  bucketMaker (fst (ResetAll h)) = bucketMaker h.
Proof. by rewrite ResetAll_fst. Qed.

Lemma ResetAll_reportablePercentiles (h : histogram B) :
  reportablePercentiles (fst (ResetAll h)) = reportablePercentiles h.
Proof. by rewrite ResetAll_fst. Qed.

(** Every bucket of a series is reset before the series is deleted. *)
Lemma resetSeries_order (signature : string) (value : histogramValue B) (i : nat) (b : B) :
  buckets value !! i = Some b ->
  exists before after,
    resetSeries signature value =
      before ++ BucketReset signature i (Bucket.Reset b) :: after /\
    SeriesDeleted signature ∈ after.
Proof.
  intros Hi. unfold resetSeries.
  pose proof (take_drop_middle (buckets value) i b Hi) as Hsplit.
  assert (Hlen : length (take i (buckets value)) = i).
  { apply length_take_le, Nat.lt_le_incl. by eapply lookup_lt_Some. }
  rewrite <- Hsplit, imap_app, imap_cons, Hlen, Nat.add_0_r.
  eexists _, _. split.
  - rewrite <- app_assoc. simpl. reflexivity.
  - apply elem_of_app. right. apply list_elem_of_singleton. reflexivity.
Qed.

Lemma app_middle {A : Type} (l1 before after l2 : list A) (x : A) :
  l1 ++ (before ++ x :: after) ++ l2 = (l1 ++ before) ++ x :: (after ++ l2).
Proof. by rewrite <- !app_assoc. Qed.

Lemma ResetAll_order (h : histogram B) (signature : string) (s : histogramValue B)
    (i : nat) (b : B) :
  values h !! signature = Some s -> buckets s !! i = Some b ->
  exists before after,
    snd (ResetAll h) = before ++ BucketReset signature i (Bucket.Reset b) :: after /\
    SeriesDeleted signature ∈ after.
Proof.
  intros Hs Hi. rewrite ResetAll_snd, resetLoop_trace.
  apply elem_of_map_to_list in Hs.
  apply list_elem_of_split in Hs as (l1 & l2 & ->).
  rewrite fmap_app, fmap_cons, concat_app. simpl.
  destruct (resetSeries_order signature s i b Hi) as (before & after & -> & Hin).
  eexists _, _. split.
  - apply app_middle.
  - apply elem_of_app. by left.
Qed.

Lemma wellFormed_new (spec : HistogramSpecification B) : wellFormed (NewHistogram spec).
Proof. intros signature s. simpl. by rewrite lookup_empty. Qed.

Lemma ResetAll_wellFormed (h : histogram B) : wellFormed (fst (ResetAll h)).
Proof. intros signature s. by rewrite ResetAll_values, lookup_empty. Qed.

Lemma reachable_wellFormed (spec : HistogramSpecification B) (h : histogram B) :
  reachable spec h -> wellFormed h.
Proof.
  induction 1.
  - apply wellFormed_new.
  - by apply Add_wellFormed.
  - apply ResetAll_wellFormed.
Qed.

Lemma reachable_bucketStarts (spec : HistogramSpecification B) (h : histogram B) :
  reachable spec h -> bucketStarts h = Starts spec.
Proof.
  induction 1; [done| |].
  - by rewrite Add_bucketStarts.
  - by rewrite ResetAll_bucketStarts.
Qed.

Lemma reachable_bucketMaker (spec : HistogramSpecification B) (h : histogram B) :
  reachable spec h -> bucketMaker h = BucketBuilder spec.
Proof.
  induction 1; [done| |].
  - by rewrite Add_bucketMaker.
  - by rewrite ResetAll_bucketMaker.
Qed.

(** ** Counting observations *)

(** Running sums of [obs] on top of [acc]. *)
Fixpoint cumulate (acc : Z) (obs : list Z) : list Z :=
  match obs with
  | [] => []
  | o :: rest => (acc + o)%Z :: cumulate (acc + o) rest
  end.

Lemma bind_Ok {A C : Type} (a : A) (f : A -> outcome C) : (Ok a ≫= f) = f a.
Proof. reflexivity. Qed.

Lemma index_Ok {A : Type} (l : list A) (i : nat) (x : A) :
  l !! i = Some x -> index l i = Ok x.
Proof. unfold index. by intros ->. Qed.

Lemma sumZ_app (l1 l2 : list Z) : sumZ (l1 ++ l2) = (sumZ l1 + sumZ l2)%Z.
Proof. unfold sumZ. induction l1 as [|x l1 IH]; simpl; lia. Qed.

Lemma sumZ_nonneg (l : list Z) : Forall (Z.le 0) l -> (0 <= sumZ l)%Z.
Proof. unfold sumZ. induction 1; simpl; lia. Qed.

Lemma sumZ_insert (l : list Z) (i : nat) (x y : Z) :
  l !! i = Some x -> sumZ (<[i := y]> l) = (sumZ l - x + y)%Z.
Proof.
  intros Hi. rewrite <- (take_drop_middle l i x Hi) at 2.
  rewrite insert_take_drop by (by eapply lookup_lt_Some).
  rewrite !sumZ_app. unfold sumZ. simpl. lia.
Qed.

Lemma sumZ_replicate (n : nat) : sumZ (replicate n 0%Z) = 0%Z.
Proof. unfold sumZ. induction n; simpl; lia. Qed.

Lemma length_cumulate (acc : Z) (obs : list Z) : length (cumulate acc obs) = length obs.
Proof. revert acc. induction obs as [|o rest IH]; intros acc; simpl; [done|]. by rewrite IH. Qed.

Lemma cumulate_lookup (acc : Z) (obs : list Z) (i : nat) :
  i < length obs ->
  cumulate acc obs !! i = Some (acc + sumZ (take (S i) obs))%Z.
Proof.
  revert acc i. induction obs as [|o rest IH]; intros acc i Hi; simpl in *; [lia|].
  destruct i as [|i]; simpl.
  - f_equal. unfold sumZ. simpl. destruct rest; simpl; lia.
  - rewrite IH by lia. f_equal. unfold sumZ. simpl. lia.
Qed.

Lemma previous_spec (obs : list Z) (i : nat) :
  i <= length obs ->
  previousCumulativeObservations (cumulate 0 obs) i = Ok (sumZ (take i obs)).
Proof.
  intros Hi. destruct i as [|i]; simpl.
  - done.
  - erewrite index_Ok; [done|]. by rewrite cumulate_lookup by lia.
Qed.

Lemma cumulate_zero (obs : list Z) :
  Forall (Z.le 0) obs -> sumZ obs = 0%Z -> Forall (eq 0%Z) (cumulate 0 obs).
Proof.
  induction 1 as [|o rest Ho Hrest IH]; intros Hsum; simpl; [constructor|].
  pose proof (sumZ_nonneg rest Hrest) as Hnn.
  unfold sumZ in Hsum, Hnn. simpl in Hsum. fold (sumZ rest) in Hsum, Hnn.
  assert (o = 0%Z) as -> by lia. simpl.
  constructor; [done|]. apply IH. lia.
Qed.

Lemma insert_middle {A : Type} (l1 l2 : list A) (x y : A) (n : nat) :
  n = length l1 -> <[n := y]> (l1 ++ x :: l2) = l1 ++ y :: l2.
Proof. intros ->. induction l1 as [|a l1 IH]; simpl; [done|]. by rewrite IH. Qed.

(** With non-negative counts whose sum stays in the range of [int], the
    running sums of [tally] do not wrap around. *)
Lemma tally_spec (bs : list B) (before_o before_c : list Z) (total : Z) :
  length before_c = length before_o ->
  Forall (Z.le 0) (Bucket.Observations <$> bs) ->
  (0 <= total)%Z -> (total + sumZ (Bucket.Observations <$> bs) < 2 ^ 63)%Z ->
  tally (length before_o) bs
    (before_o ++ replicate (length bs) 0%Z) (before_c ++ replicate (length bs) 0%Z) total =
  Ok (before_o ++ (Bucket.Observations <$> bs),
      before_c ++ cumulate total (Bucket.Observations <$> bs),
      (total + sumZ (Bucket.Observations <$> bs))%Z).
Proof.
  revert before_o before_c total.
  induction bs as [|b rest IH]; intros before_o before_c total Hlen Hnn Htotal Hbound.
  - simpl. unfold sumZ. simpl. by rewrite !app_nil_r, Z.add_0_r.
  - rewrite fmap_cons in Hnn, Hbound. apply Forall_cons in Hnn as [Hb Hnn].
    pose proof (sumZ_nonneg _ Hnn) as Hrest.
    assert (Hsum : sumZ (Bucket.Observations b :: (Bucket.Observations <$> rest)) =
                   (Bucket.Observations b + sumZ (Bucket.Observations <$> rest))%Z) by done.
    rewrite Hsum in Hbound.
    cbn [tally length replicate].
    rewrite (index_Ok _ _ 0%Z), bind_Ok by (by apply list_lookup_middle).
    rewrite (index_Ok _ _ 0%Z), bind_Ok by (by apply list_lookup_middle).
    rewrite (wrap64_id (total + Bucket.Observations b)) by lia.
    rewrite !insert_middle by done.
    rewrite (cons_middle _ before_o), (cons_middle _ before_c), !app_assoc.
    replace (S (length before_o)) with (length (before_o ++ [Bucket.Observations b]))
      by (rewrite length_app; simpl; lia).
    rewrite IH; [|by rewrite !length_app, Hlen|done|lia|lia].
    rewrite fmap_cons. cbn [cumulate]. rewrite Hsum.
    rewrite <- !app_assoc. simpl. do 2 f_equal. lia.
Qed.

Lemma tally_all (bs : list B) :
  Forall (Z.le 0) (Bucket.Observations <$> bs) ->
  (sumZ (Bucket.Observations <$> bs) < 2 ^ 63)%Z ->
  tally 0 bs (replicate (length bs) 0%Z) (replicate (length bs) 0%Z) 0 =
  Ok (Bucket.Observations <$> bs, cumulate 0 (Bucket.Observations <$> bs),
      sumZ (Bucket.Observations <$> bs)).
Proof. intros Hnn Hbound. by apply (tally_spec bs [] [] 0 eq_refl). Qed.

(** ** The percentile search *)

Lemma nextNonEmptyFrom_spec (h : histogram B) (signature : string) (s : histogramValue B)
    (obs : list Z) (remaining i : nat) :
  values h !! signature = Some s ->
  length (buckets s) = length obs ->
  Forall (Z.le 0) obs ->
  remaining = length obs - i ->
  (0 < sumZ (drop i obs))%Z ->
  exists j o,
    nextNonEmptyFrom h signature remaining i obs = Ok (j, 0%Z) /\
    i <= j /\ obs !! j = Some o /\ (0 < o)%Z /\
    sumZ (take j obs) = sumZ (take i obs).
Proof.
  intros Hs Hlen Hnn. revert i.
  induction remaining as [|remaining IH]; intros i Hrem Hpos.
  - rewrite drop_ge in Hpos by lia. unfold sumZ in Hpos. simpl in Hpos. lia.
  - assert (Hi : i < length obs) by lia.
    destruct (lookup_lt_is_Some_2 obs i Hi) as [o Ho].
    cbn [nextNonEmptyFrom]. rewrite (index_Ok _ _ _ Ho), bind_Ok.
    assert (Ho0 : (0 <= o)%Z).
    { rewrite Forall_forall in Hnn. apply Hnn. by eapply list_elem_of_lookup_2. }
    destruct (Z.eqb_spec o 0) as [->|Hne].
    + rewrite (drop_S _ _ _ Ho) in Hpos.
      destruct (IH (S i)) as (j & o' & Hrun & Hle & Hj & Ho' & Hsum); [lia| |].
      { unfold sumZ in *. simpl in Hpos. lia. }
      exists j, o'. repeat split; [done|lia|done|done|].
      rewrite Hsum, (take_S_r _ _ _ Ho), sumZ_app. unfold sumZ. simpl. lia.
    + rewrite Hs. cbn [deref]. rewrite bind_Ok.
      assert (Hb : i < length (buckets s)) by lia.
      destruct (lookup_lt_is_Some_2 _ _ Hb) as [b Hbi].
      rewrite (index_Ok _ _ _ Hbi), bind_Ok.
      exists i, o. repeat split; [lia|done|lia].
Qed.

Lemma search_none (h : histogram B) (signature : string) (s : histogramValue B)
    (bucketCount : nat) (obs cum : list Z) (idx : Z) (i : nat) (rest : list Z) :
  Forall (eq 0%Z) rest ->
  search h signature s bucketCount obs cum idx i rest = Ok None.
Proof.
  intros Hall. revert i. induction Hall as [|c rest <- Hall IH]; intros i; [done|].
  cbn [search]. simpl. apply IH.
Qed.

(** With a positive total and a rank below it the search selects the
    bucket and the sub-index at which that rank sits when the buckets are
    laid end to end. *)
Lemma search_found (h : histogram B) (signature : string) (s : histogramValue B)
    (idx : Z) (rest before : list Z) :
  values h !! signature = Some s ->
  length (buckets s) = length (before ++ rest) ->
  Forall (Z.le 0) (before ++ rest) ->
  (sumZ before = 0 \/ sumZ before < idx)%Z ->
  (0 <= idx < sumZ (before ++ rest))%Z ->
  (sumZ (before ++ rest) < 2 ^ 63)%Z ->
  exists j sub o,
    search h signature s (length (before ++ rest)) (before ++ rest)
      (cumulate 0 (before ++ rest)) idx (length before)
      (cumulate (sumZ before) rest) = Ok (Some (j, sub)) /\
    (before ++ rest) !! j = Some o /\ (0 <= sub < o)%Z /\
    (sumZ (take j (before ++ rest)) + sub)%Z = idx.
Proof.
  intros Hs. revert before.
  induction rest as [|o rest IH]; intros before Hlen Hnn Hacc Hidx Hbound.
  - rewrite app_nil_r in Hidx. lia.
  - assert (Hstep : before ++ o :: rest = (before ++ [o]) ++ rest)
      by (by rewrite <- app_assoc).
    assert (Hsum : sumZ (before ++ [o]) = (sumZ before + o)%Z)
      by (rewrite sumZ_app; unfold sumZ; simpl; lia).
    assert (Hnext : search h signature s (length (before ++ o :: rest))
              (before ++ o :: rest) (cumulate 0 (before ++ o :: rest)) idx
              (S (length before)) (cumulate (sumZ before + o) rest) =
            search h signature s (length ((before ++ [o]) ++ rest))
              ((before ++ [o]) ++ rest) (cumulate 0 ((before ++ [o]) ++ rest)) idx
              (length (before ++ [o])) (cumulate (sumZ (before ++ [o])) rest)).
    { rewrite <- Hstep, Hsum.
      by replace (length (before ++ [o])) with (S (length before))
        by (rewrite length_app; simpl; lia). }
    assert (Ho0 : (0 <= o)%Z).
    { rewrite Forall_forall in Hnn. apply Hnn. apply elem_of_app. right. by left. }
    assert (Hrec : ((sumZ before + o)%Z = 0%Z \/ (sumZ before + o < idx)%Z) ->
              exists j sub o',
                search h signature s (length (before ++ o :: rest))
                  (before ++ o :: rest) (cumulate 0 (before ++ o :: rest)) idx
                  (S (length before)) (cumulate (sumZ before + o) rest) =
                  Ok (Some (j, sub)) /\
                (before ++ o :: rest) !! j = Some o' /\ (0 <= sub < o')%Z /\
                (sumZ (take j (before ++ o :: rest)) + sub)%Z = idx).
    { intros Hacc'. rewrite Hnext, Hstep.
      apply IH; rewrite <- ?Hstep, ?Hsum; try done. }
    cbn [cumulate search].
    destruct (Z.eqb_spec (sumZ before + o) 0) as [Hz|Hnz].
    { apply Hrec; lia. }
    destruct (Z.geb_spec (sumZ before + o) idx) as [Hge|Hlt]; [|apply Hrec; lia].
    rewrite previous_spec by (rewrite length_app; lia).
    rewrite bind_Ok, take_app_length.
    assert (Hlook : (before ++ o :: rest) !! length before = Some o)
      by (by apply list_lookup_middle).
    rewrite (index_Ok _ _ _ Hlook), bind_Ok.
    assert (Hbefore : (0 <= sumZ before)%Z).
    { apply sumZ_nonneg. by apply Forall_app in Hnn as [Hnn _]. }
    rewrite (wrap64_id (idx - sumZ before)) by lia.
    destruct (Z.eqb_spec o (idx - sumZ before)) as [Heq|Hneq].
    + unfold nextNonEmptyBucketElement.
      destruct (nextNonEmptyFrom_spec h signature s (before ++ o :: rest)
                  (length (before ++ o :: rest) - S (length before)) (S (length before)))
        as (j & o' & Hrun & Hle & Hj & Ho' & Hsumj); try done.
      { rewrite Hstep in Hidx |- *. rewrite sumZ_app, Hsum in Hidx.
        replace (S (length before)) with (length (before ++ [o]))
          by (rewrite length_app; simpl; lia).
        rewrite drop_app_length. lia. }
      rewrite Hrun. exists j, 0%Z, o'. repeat split; [done|lia|lia|].
      rewrite Hsumj, (take_S_r _ _ _ Hlook), take_app_length, Hsum. lia.
    + assert (Hb : length before < length (buckets s))
        by (rewrite Hlen, length_app; simpl; lia).
      destruct (lookup_lt_is_Some_2 _ _ Hb) as [b Hbi].
      rewrite (index_Ok _ _ _ Hbi), bind_Ok.
      exists (length before), (idx - sumZ before)%Z, o.
      repeat split; [done|lia|lia|]. rewrite take_app_length. lia.
Qed.

Lemma observations_nonneg (bs : list B) :
  Forall (fun b => (0 <= Bucket.Observations b)%Z) bs ->
  Forall (Z.le 0) (Bucket.Observations <$> bs).
Proof. intros Hnn. by apply Forall_fmap. Qed.

Lemma bucketSearch_series (h : histogram B) (signature : string) (s : histogramValue B)
    (p : Q) :
  values h !! signature = Some s ->
  length (buckets s) = length (bucketStarts h) ->
  Forall (fun b => (0 <= Bucket.Observations b)%Z) (buckets s) ->
  (totalObservations s < 2 ^ 63)%Z ->
  bucketSearch h signature p =
  search h signature s (length (bucketStarts h)) (Bucket.Observations <$> buckets s)
    (cumulate 0 (Bucket.Observations <$> buckets s))
    (prospectiveIndexForPercentile p (totalObservations s)) 0
    (cumulate 0 (Bucket.Observations <$> buckets s)).
Proof.
  intros Hs Hlen Hnn Hbound. unfold bucketSearch. rewrite Hs. cbn [deref].
  rewrite bind_Ok, <- Hlen, tally_all; [reflexivity|by apply observations_nonneg|done].
Qed.

(** A rank below a total in the range of [int] is found where it sits. *)
Lemma bucketSearch_rank (h : histogram B) (signature : string) (s : histogramValue B)
    (p : Q) :
  values h !! signature = Some s ->
  length (buckets s) = length (bucketStarts h) ->
  Forall (fun b => (0 <= Bucket.Observations b)%Z) (buckets s) ->
  (totalObservations s < 2 ^ 63)%Z ->
  (0 <= prospectiveIndexForPercentile p (totalObservations s) < totalObservations s)%Z ->
  exists j sub b,
    bucketSearch h signature p = Ok (Some (j, sub)) /\
    buckets s !! j = Some b /\ (0 <= sub < Bucket.Observations b)%Z /\
    (sumZ (take j (Bucket.Observations <$> buckets s)) + sub)%Z =
      prospectiveIndexForPercentile p (totalObservations s).
Proof.
  intros Hs Hlen Hnn Hbound Hidx.
  rewrite (bucketSearch_series h signature s p Hs Hlen Hnn Hbound).
  destruct (search_found h signature s
              (prospectiveIndexForPercentile p (totalObservations s))
              (Bucket.Observations <$> buckets s) [])
    as (j & sub & o & Hrun & Hj & Hsub & Hsum); simpl.
  - done.
  - by rewrite length_fmap.
  - by apply observations_nonneg.
  - by left.
  - done.
  - done.
  - simpl in Hrun, Hj, Hsum. rewrite length_fmap, Hlen in Hrun.
    rewrite list_lookup_fmap in Hj.
    destruct (buckets s !! j) as [b|] eqn:Hb; [|done]. injection Hj as <-.
    by exists j, sub, b.
Qed.

Lemma bucketSearch_found (h : histogram B) (signature : string) (s : histogramValue B)
    (p : Q) :
  values h !! signature = Some s ->
  length (buckets s) = length (bucketStarts h) ->
  Forall (fun b => (0 <= Bucket.Observations b)%Z) (buckets s) ->
  (0 < totalObservations s)%Z -> (totalObservations s <= 2 ^ 53)%Z ->
  (0 <= p)%Q -> (p <= 1)%Q ->
  exists j sub b,
    bucketSearch h signature p = Ok (Some (j, sub)) /\
    buckets s !! j = Some b /\ (0 <= sub < Bucket.Observations b)%Z /\
    (sumZ (take j (Bucket.Observations <$> buckets s)) + sub)%Z =
      prospectiveIndexForPercentile p (totalObservations s).
Proof.
  intros Hs Hlen Hnn Hpos Hbound Hp0 Hp1.
  assert (Hidx : (0 <= prospectiveIndexForPercentile p (totalObservations s)
                  <= totalObservations s - 1)%Z)
    by (apply prospectiveIndex_bounds; [done|done|done|lia]).
  apply bucketSearch_rank; [done|done|done|lia|lia].
Qed.

Lemma bucketSearch_empty (h : histogram B) (signature : string) (s : histogramValue B)
    (p : Q) :
  values h !! signature = Some s ->
  length (buckets s) = length (bucketStarts h) ->
  Forall (fun b => (0 <= Bucket.Observations b)%Z) (buckets s) ->
  totalObservations s = 0%Z ->
  bucketSearch h signature p = Ok None.
Proof.
  intros Hs Hlen Hnn Hzero.
  rewrite (bucketSearch_series h signature s p Hs Hlen Hnn) by (rewrite Hzero; lia).
  apply search_none, cumulate_zero; [by apply observations_nonneg|done].
Qed.

(** C4, as the code has it: for a series with a positive total of at
    most [2^53] observations and a percentile in (0, 1],
    [bucketForPercentile] does not reach the panic of
    [nextNonEmptyBucketElement]; it returns a bucket of the series and a
    sub-index with [0 <= subIndex < that bucket's count], which is the
    index [percentile] hands to [ValueForIndex]. Up to [2^53] the
    conversion [float64(total - 1)] is exact, so the rank stays below the
    total. *)
Theorem bucketForPercentile_in_range (h : histogram B) (signature : string)
    (s : histogramValue B) (p : Q) :
  values h !! signature = Some s ->
  length (buckets s) = length (bucketStarts h) ->
  Forall (fun b => (0 <= Bucket.Observations b)%Z) (buckets s) ->
  (0 < totalObservations s)%Z -> (totalObservations s <= 2 ^ 53)%Z ->
  (0 < p)%Q -> (p <= 1)%Q ->
  bucketForPercentile h signature p <> Panic IllegalCondition /\
  exists j sub b,
    bucketForPercentile h signature p = Ok (j, sub) /\
    buckets s !! j = Some b /\
    (0 <= sub < Bucket.Observations b)%Z /\
    percentile h signature p = Ok (Bucket.ValueForIndex b sub).
Proof.
  intros Hs Hlen Hnn Hpos Hbound Hp0 Hp1.
  destruct (bucketSearch_found h signature s p Hs Hlen Hnn Hpos Hbound
              (Qlt_le_weak _ _ Hp0) Hp1)
    as (j & sub & b & Hrun & Hj & Hsub & _).
  assert (Hsel : bucketForPercentile h signature p = Ok (j, sub)).
  { unfold bucketForPercentile. by rewrite Hrun. }
  split; [by rewrite Hsel|].
  exists j, sub, b. repeat split; [done|done|lia|lia|].
  unfold percentile. rewrite Hsel, bind_Ok. cbn beta iota.
  rewrite Hs. cbn [deref]. by rewrite bind_Ok, (index_Ok _ _ _ Hj).
Qed.

(** With no observations the query answers from bucket 0, for every
    percentile. *)
Lemma percentile_empty (h : histogram B) (signature : string) (s : histogramValue B)
    (p : Q) (b0 : B) :
  values h !! signature = Some s ->
  length (buckets s) = length (bucketStarts h) ->
  Forall (fun b => (0 <= Bucket.Observations b)%Z) (buckets s) ->
  totalObservations s = 0%Z ->
  buckets s !! 0 = Some b0 ->
  bucketForPercentile h signature p = Ok (0, 0%Z) /\
  percentile h signature p = Ok (Bucket.ValueForIndex b0 0).
Proof.
  intros Hs Hlen Hnn Hzero Hb0.
  assert (Hsel : bucketForPercentile h signature p = Ok (0, 0%Z)).
  { unfold bucketForPercentile.
    rewrite (bucketSearch_empty h signature s p Hs Hlen Hnn Hzero), bind_Ok.
    rewrite Hs. cbn [deref]. by rewrite bind_Ok, (index_Ok _ _ _ Hb0). }
  split; [done|]. unfold percentile. rewrite Hsel, bind_Ok. cbn beta iota.
  rewrite Hs. cbn [deref]. by rewrite bind_Ok, (index_Ok _ _ _ Hb0).
Qed.

(** C5, as the code has it: for a percentile in (0, 1] and a series of
    at most [2^53] observations, the search loop of [bucketForPercentile]
    runs to its end exactly when the series has no observations. With
    observations the answer of [bucketForPercentile] is the selection of
    the loop, a non-empty bucket and an index below its count. Without
    observations the answer is bucket 0 at index 0, and [percentile]
    returns that bucket's value at index 0, if the series has a bucket 0;
    a series without buckets makes the query panic on index 0. *)
Theorem bucketForPercentile_falls_through (h : histogram B) (signature : string)
    (s : histogramValue B) (p : Q) :
  values h !! signature = Some s ->
  length (buckets s) = length (bucketStarts h) ->
  Forall (fun b => (0 <= Bucket.Observations b)%Z) (buckets s) ->
  (totalObservations s <= 2 ^ 53)%Z ->
  (0 < p)%Q -> (p <= 1)%Q ->
  (bucketSearch h signature p = Ok None <-> totalObservations s = 0%Z) /\
  ((0 < totalObservations s)%Z ->
   exists j sub b,
     bucketSearch h signature p = Ok (Some (j, sub)) /\
     bucketForPercentile h signature p = Ok (j, sub) /\
     buckets s !! j = Some b /\
     (0 <= sub < Bucket.Observations b)%Z) /\
  (totalObservations s = 0%Z ->
   forall b0, buckets s !! 0 = Some b0 ->
     bucketForPercentile h signature p = Ok (0, 0%Z) /\
     percentile h signature p = Ok (Bucket.ValueForIndex b0 0)) /\
  (totalObservations s = 0%Z -> buckets s = [] ->
   bucketForPercentile h signature p = Panic (IndexOutOfRange 0 0) /\
   percentile h signature p = Panic (IndexOutOfRange 0 0)).
Proof.
  intros Hs Hlen Hnn Hbound Hp0 Hp1.
  assert (Htot : (0 <= totalObservations s)%Z).
  { apply sumZ_nonneg. by apply observations_nonneg. }
  assert (Hfound : (0 < totalObservations s)%Z ->
            exists j sub b,
              bucketSearch h signature p = Ok (Some (j, sub)) /\
              bucketForPercentile h signature p = Ok (j, sub) /\
              buckets s !! j = Some b /\
              (0 <= sub < Bucket.Observations b)%Z).
  { intros Hpos.
    destruct (bucketSearch_found h signature s p Hs Hlen Hnn Hpos Hbound) as
      (j & sub & b & Hrun & Hj & Hsub & _); [by apply Qlt_le_weak|done|].
    exists j, sub, b. repeat split; [done| |done|lia|lia].
    unfold bucketForPercentile. by rewrite Hrun. }
  split; [split|split; [done|split]].
  - intros Hnone.
    destruct (decide (totalObservations s = 0%Z)) as [|Hne]; [done|].
    destruct Hfound as (j & sub & b & Hrun & _); [lia|]. congruence.
  - by apply bucketSearch_empty.
  - intros Hzero b0 Hb0. by apply (percentile_empty h signature s p b0).
  - intros Hzero Hnil.
    assert (Hsel : bucketForPercentile h signature p = Panic (IndexOutOfRange 0 0)).
    { unfold bucketForPercentile.
      rewrite (bucketSearch_empty h signature s p Hs Hlen Hnn Hzero), bind_Ok.
      rewrite Hs. cbn [deref]. rewrite bind_Ok, Hnil. done. }
    split; [done|]. unfold percentile. by rewrite Hsel.
Qed.

(** ** What buckets report *)

(** Every value the bucket reports at an index below its count has [P]. *)
Definition reports (P : Q -> Prop) (b : B) : Prop :=
  forall k, (0 <= k < Bucket.Observations b)%Z -> P (Bucket.ValueForIndex b k).

(** [ValueForIndex] is ascending in the index. *)
Definition ascending (b : B) : Prop :=
  forall j k, (0 <= j)%Z -> (j <= k)%Z -> (k < Bucket.Observations b)%Z ->
    (Bucket.ValueForIndex b j <= Bucket.ValueForIndex b k)%Q.

(** A bucket reports only values it ingested: whatever holds of the
    values reported so far and of the new value holds of the values
    reported afterwards. *)
Definition retainsIngested : Prop :=
  forall (P : Q -> Prop) (b : B) (v : Q),
    reports P b -> P v -> reports P (Bucket.Add b v).

(** The count grows by one with each ingested value. *)
Definition countsEachValue : Prop :=
  forall (b : B) (v : Q),
    Bucket.Observations (Bucket.Add b v) = (Bucket.Observations b + 1)%Z.

(** Every value reported by bucket [i] of a series is one that [Add]
    routes to bucket [i]. *)
Definition routed (h : histogram B) : Prop :=
  forall signature s i b,
    values h !! signature = Some s -> buckets s !! i = Some b ->
    reports (fun v => lastIndexFor (bucketStarts h) v = i) b.

Lemma reports_fresh (P : Q -> Prop) (b : B) :
  Bucket.Observations b = 0%Z -> reports P b.
Proof. intros Hz k Hk. lia. Qed.

Lemma seriesFor_routed (h : histogram B) (labels : option (gmap string string))
    (i : nat) (b : B) :
  Bucket.Observations (bucketMaker h) = 0%Z -> routed h ->
  buckets (seriesFor h labels) !! i = Some b ->
  reports (fun v => lastIndexFor (bucketStarts h) v = i) b.
Proof.
  intros Hfresh Hr. unfold seriesFor.
  destruct (values h !! _) as [s|] eqn:E; simpl.
  - intros Hb. by eapply Hr.
  - intros Hb. apply lookup_replicate in Hb as [-> _]. by apply reports_fresh.
Qed.

Lemma Add_routed (h : histogram B) labels value :
  retainsIngested -> Bucket.Observations (bucketMaker h) = 0%Z ->
  routed h -> routed (fst (Add LabelsToSignature h labels value)).
Proof.
  intros Hret Hfresh Hr signature s i b. rewrite Add_bucketStarts, Add_unfold.
  destruct (buckets (seriesFor h labels) !! lastIndexFor (bucketStarts h) value)
    as [b0|] eqn:Hb0; simpl.
  - destruct (decide (LabelsToSignature (default ∅ labels) = signature)) as [->|Hne].
    + rewrite lookup_insert_eq. intros [= <-]. simpl.
      destruct (decide (lastIndexFor (bucketStarts h) value = i)) as [<-|Hi].
      * rewrite list_lookup_insert_eq by (by eapply lookup_lt_Some).
        intros [= <-]. apply Hret; [|done]. by eapply seriesFor_routed.
      * rewrite list_lookup_insert_ne by done. by apply seriesFor_routed.
    + rewrite lookup_insert_ne by done. apply Hr.
  - destruct (decide (LabelsToSignature (default ∅ labels) = signature)) as [->|Hne].
    + rewrite lookup_insert_eq. intros [= <-]. by apply seriesFor_routed.
    + rewrite lookup_insert_ne by done. apply Hr.
Qed.

Lemma reachable_routed (spec : HistogramSpecification B) (h : histogram B) :
  retainsIngested -> Bucket.Observations (BucketBuilder spec) = 0%Z ->
  reachable spec h -> routed h.
Proof.
  intros Hret Hfresh. induction 1 as [|h labels value Hreach IH|h Hreach IH].
  - intros signature s i b. simpl. by rewrite lookup_empty.
  - apply Add_routed; [done| |done].
    by rewrite (reachable_bucketMaker spec h Hreach).
  - intros signature s i b. by rewrite ResetAll_values, lookup_empty.
Qed.

Lemma sumZ_take_mono (obs : list Z) (a b : nat) :
  Forall (Z.le 0) obs -> a <= b -> (sumZ (take a obs) <= sumZ (take b obs))%Z.
Proof.
  intros Hnn Hab. replace b with (a + (b - a)) by lia.
  rewrite <- take_take_drop, sumZ_app.
  assert (Hrest : (0 <= sumZ (take (b - a) (drop a obs)))%Z)
    by (by apply sumZ_nonneg, Forall_take, Forall_drop).
  lia.
Qed.

(** Laid end to end, a lower rank sits in an earlier bucket, or in the
    same bucket at a lower sub-index. *)
Lemma rank_order (obs : list Z) (j1 j2 : nat) (sub1 sub2 o1 o2 : Z) :
  Forall (Z.le 0) obs ->
  obs !! j1 = Some o1 -> obs !! j2 = Some o2 ->
  (0 <= sub1 < o1)%Z -> (0 <= sub2 < o2)%Z ->
  (sumZ (take j1 obs) + sub1 <= sumZ (take j2 obs) + sub2)%Z ->
  j1 < j2 \/ (j1 = j2 /\ (sub1 <= sub2)%Z).
Proof.
  intros Hnn H1 H2 Hs1 Hs2 Hle.
  destruct (Nat.lt_trichotomy j1 j2) as [Hlt|[->|Hgt]]; [by left| |].
  - right. split; [done|lia].
  - exfalso.
    pose proof (sumZ_take_mono obs (S j2) j1 Hnn Hgt) as Hmono.
    rewrite (take_S_r _ _ _ H2), sumZ_app in Hmono.
    unfold sumZ in Hmono at 2. simpl in Hmono. lia.
Qed.

(** C6, as the code has it: in a series built by [Add], of at most
    [2^53] observations, with buckets that start empty, report only what
    they ingested and order their values ascending by index, the
    percentile estimate is monotone in the percentile over (0, 1]. *)
Theorem percentile_monotone (spec : HistogramSpecification B) (h : histogram B)
    (signature : string) (s : histogramValue B) (p1 p2 : Q) :
  retainsIngested ->
  Bucket.Observations (BucketBuilder spec) = 0%Z ->
  Starts spec <> [] ->
  reachable spec h ->
  values h !! signature = Some s ->
  Forall (fun b => (0 <= Bucket.Observations b)%Z) (buckets s) ->
  (totalObservations s <= 2 ^ 53)%Z ->
  Forall ascending (buckets s) ->
  (0 < p1)%Q -> (p1 <= p2)%Q -> (p2 <= 1)%Q ->
  exists v1 v2,
    percentile h signature p1 = Ok v1 /\
    percentile h signature p2 = Ok v2 /\
    (v1 <= v2)%Q.
Proof.
  intros Hret Hfresh Hstarts Hreach Hs Hnn Hbound Hasc Hp1 Hp12 Hp2.
  pose proof (reachable_wellFormed spec h Hreach signature s Hs) as Hlen.
  pose proof (reachable_routed spec h Hret Hfresh Hreach) as Hrouted.
  assert (Hp2pos : (0 < p2)%Q) by (by eapply Qlt_le_trans).
  assert (Hp1le : (p1 <= 1)%Q) by (by eapply Qle_trans).
  assert (Htot : (0 <= totalObservations s)%Z).
  { apply sumZ_nonneg. by apply observations_nonneg. }
  destruct (decide (totalObservations s = 0%Z)) as [Hzero|Hne].
  - assert (Hb0 : 0 < length (buckets s)).
    { rewrite Hlen, (reachable_bucketStarts spec h Hreach).
      destruct (Starts spec); [done|simpl; lia]. }
    destruct (lookup_lt_is_Some_2 _ _ Hb0) as [b0 Hb0'].
    destruct (percentile_empty h signature s p1 b0 Hs Hlen Hnn Hzero Hb0') as [_ ->].
    destruct (percentile_empty h signature s p2 b0 Hs Hlen Hnn Hzero Hb0') as [_ ->].
    eexists _, _. repeat split. apply Qle_refl.
  - assert (Hpos : (0 < totalObservations s)%Z) by lia.
    destruct (bucketSearch_found h signature s p1 Hs Hlen Hnn Hpos Hbound
                (Qlt_le_weak _ _ Hp1) Hp1le)
      as (j1 & sub1 & b1 & Hrun1 & Hj1 & Hsub1 & Hrank1).
    destruct (bucketSearch_found h signature s p2 Hs Hlen Hnn Hpos Hbound
                (Qlt_le_weak _ _ Hp2pos) Hp2)
      as (j2 & sub2 & b2 & Hrun2 & Hj2 & Hsub2 & Hrank2).
    assert (Hv : forall p j sub b,
              bucketSearch h signature p = Ok (Some (j, sub)) ->
              buckets s !! j = Some b ->
              percentile h signature p = Ok (Bucket.ValueForIndex b sub)).
    { intros p j sub b Hrun Hj. unfold percentile, bucketForPercentile.
      rewrite Hrun, !bind_Ok. cbn beta iota. rewrite Hs. cbn [deref].
      by rewrite bind_Ok, (index_Ok _ _ _ Hj). }
    rewrite (Hv p1 j1 sub1 b1 Hrun1 Hj1), (Hv p2 j2 sub2 b2 Hrun2 Hj2).
    eexists _, _. repeat split.
    assert (Hmono : (prospectiveIndexForPercentile p1 (totalObservations s) <=
                     prospectiveIndexForPercentile p2 (totalObservations s))%Z).
    { apply prospectiveIndex_mono; [by apply Qlt_le_weak|done|done|done|lia]. }
    destruct (rank_order (Bucket.Observations <$> buckets s) j1 j2 sub1 sub2
                (Bucket.Observations b1) (Bucket.Observations b2))
      as [Hlt|[-> Hle]].
    + by apply observations_nonneg.
    + by rewrite list_lookup_fmap, Hj1.
    + by rewrite list_lookup_fmap, Hj2.
    + done.
    + done.
    + lia.
    + pose proof (Hrouted signature s j1 b1 Hs Hj1 sub1 Hsub1) as Hr1.
      pose proof (Hrouted signature s j2 b2 Hs Hj2 sub2 Hsub2) as Hr2.
      simpl in Hr1, Hr2.
      destruct (Qlt_le_dec (Bucket.ValueForIndex b2 sub2) (Bucket.ValueForIndex b1 sub1))
        as [Hgt|Hle]; [|done].
      pose proof (lastIndexFor_mono (bucketStarts h) _ _ (Qlt_le_weak _ _ Hgt)). lia.
    + assert (b1 = b2) as -> by congruence.
      rewrite Forall_forall in Hasc. apply (Hasc b2); [|lia|done|lia].
      by eapply list_elem_of_lookup_2.
Qed.

(** ** Routing in Add *)

(** C2: with boundaries sorted ascending, [Add] hands the value to the
    bucket of the half-open interval that holds it: a value equal to
    [starts[i]] goes to bucket [i], a value strictly between [starts[i]]
    and [starts[i+1]] goes to bucket [i], a value below [starts[0]] goes
    to bucket 0 and a value at or above the last boundary goes to the last
    bucket; that bucket is the one whose [Add] method the call invokes. *)
Theorem Add_routes_to_interval (h : histogram B) (labels : option (gmap string string))
    (value : Q) :
  StronglySorted Qlt (bucketStarts h) ->
  (forall i b, bucketStarts h !! i = Some b -> (value == b)%Q ->
     lastIndexFor (bucketStarts h) value = i) /\
  (forall i lo hi,
     bucketStarts h !! i = Some lo -> bucketStarts h !! S i = Some hi ->
     (lo < value)%Q -> (value < hi)%Q ->
     lastIndexFor (bucketStarts h) value = i) /\
  (forall b, bucketStarts h !! 0 = Some b -> (value < b)%Q ->
     lastIndexFor (bucketStarts h) value = 0) /\
  (forall b, last (bucketStarts h) = Some b -> (b <= value)%Q ->
     lastIndexFor (bucketStarts h) value = length (bucketStarts h) - 1) /\
  (wellFormed h -> bucketStarts h <> [] ->
   exists b,
     buckets (seriesFor h labels) !! lastIndexFor (bucketStarts h) value = Some b /\
     Add LabelsToSignature h labels value =
     (withValues h
        (<[LabelsToSignature (default ∅ labels) :=
             withBuckets (seriesFor h labels)
               (<[lastIndexFor (bucketStarts h) value := Bucket.Add b value]>
                  (buckets (seriesFor h labels)))]> (values h)),
      Returns)).
Proof.
  intros Hsorted.
  pose proof (StronglySorted_Qlt_Qle _ Hsorted) as Hwide.
  repeat split.
  - intros i b Hi Heq. rewrite lastIndexFor_leading.
    rewrite (leading_interval _ value b i Hwide Hi); [done| |].
    + apply Qle_lteq. right. by symmetry.
    + intros hi Hhi. apply (Qle_lt_trans _ b); [apply Qle_lteq; by right|].
      by eapply StronglySorted_Qlt_next.
  - intros i lo hi Hi Hhi Hlo Hlt. rewrite lastIndexFor_leading.
    rewrite (leading_interval _ value lo i Hwide Hi); [done|by apply Qlt_le_weak|].
    intros hi' Hhi'. congruence.
  - intros b Hb Hlt. rewrite lastIndexFor_leading.
    by rewrite (leading_below _ value b Hb Hlt).
  - intros b Hb Hle. rewrite lastIndexFor_leading. rewrite last_lookup in Hb.
    rewrite (leading_interval _ value b _ Hwide Hb Hle).
    + destruct (bucketStarts h); simpl; lia.
    + intros hi Hhi. apply lookup_lt_Some in Hhi.
      destruct (bucketStarts h); simpl in *; lia.
  - intros Hwf Hne. by apply Add_returns.
Qed.

(** ** Counting Add calls *)

(** The calls of a run that carry the signature. *)
Definition callsFor (signature : string) (calls : list (option (gmap string string) * Q))
  : nat :=
  length (filter (fun call => LabelsToSignature (default ∅ (fst call)) = signature) calls).

Lemma seriesFor_total (h : histogram B) (labels : option (gmap string string)) :
  Bucket.Observations (bucketMaker h) = 0%Z ->
  totalObservations (seriesFor h labels) =
  seriesTotal h (LabelsToSignature (default ∅ labels)).
Proof.
  intros Hfresh. unfold seriesFor, seriesTotal.
  destruct (values h !! _) as [s|]; simpl; [done|].
  unfold totalObservations. simpl.
  by rewrite fmap_replicate, Hfresh, sumZ_replicate.
Qed.

Lemma Add_seriesTotal (h : histogram B) labels value (signature : string) :
  countsEachValue -> Bucket.Observations (bucketMaker h) = 0%Z ->
  snd (Add LabelsToSignature h labels value) = Returns ->
  seriesTotal (fst (Add LabelsToSignature h labels value)) signature =
  (seriesTotal h signature +
   if decide (LabelsToSignature (default ∅ labels) = signature) then 1 else 0)%Z.
Proof.
  intros Hcount Hfresh. rewrite Add_unfold.
  destruct (buckets (seriesFor h labels) !! lastIndexFor (bucketStarts h) value)
    as [b|] eqn:Hb; simpl; [intros _|done].
  unfold seriesTotal at 1. simpl.
  destruct (decide (LabelsToSignature (default ∅ labels) = signature)) as [<-|Hne].
  - rewrite lookup_insert_eq, <- (seriesFor_total h labels Hfresh).
    unfold totalObservations. simpl.
    rewrite list_fmap_insert.
    erewrite sumZ_insert by (by rewrite list_lookup_fmap, Hb).
    rewrite Hcount. lia.
  - rewrite lookup_insert_ne by done. unfold seriesTotal. lia.
Qed.

Lemma AddAll_seriesTotal (calls : list (option (gmap string string) * Q))
    (h : histogram B) (signature : string) :
  countsEachValue -> Bucket.Observations (bucketMaker h) = 0%Z ->
  snd (AddAll h calls) = Returns ->
  seriesTotal (fst (AddAll h calls)) signature =
  (seriesTotal h signature + Z.of_nat (callsFor signature calls))%Z.
Proof.
  intros Hcount. revert h.
  induction calls as [|[labels value] rest IH]; intros h Hfresh Hret.
  - unfold callsFor. simpl. lia.
  - cbn [AddAll] in *.
    pose proof (Add_seriesTotal h labels value signature Hcount Hfresh) as Hstep.
    pose proof (Add_bucketMaker h labels value) as Hmaker.
    destruct (Add LabelsToSignature h labels value) as [h' [|p]]; simpl in *; [|done].
    rewrite IH, Hstep by (done || congruence).
    unfold callsFor. rewrite filter_cons. simpl.
    case_decide; simpl; lia.
Qed.

Lemma AddAll_returns (calls : list (option (gmap string string) * Q)) (h : histogram B) :
  wellFormed h -> bucketStarts h <> [] -> snd (AddAll h calls) = Returns.
Proof.
  revert h. induction calls as [|[labels value] rest IH]; intros h Hwf Hne; [done|].
  cbn [AddAll].
  pose proof (Add_wellFormed h labels value Hwf) as Hwf'.
  pose proof (Add_bucketStarts h labels value) as Hstarts.
  destruct (Add_returns h labels value Hwf Hne) as (b & _ & Hrun).
  rewrite Hrun in Hwf', Hstarts |- *. cbn [fst] in Hwf', Hstarts.
  apply IH; [done|]. by rewrite Hstarts.
Qed.

(** C7: with buckets that start at count 0 and count each ingested value
    once, a run of [Add] calls on a fresh engine returns when there is at
    least one boundary, and whenever it returns the counts of the buckets
    of a signature's series add up to the number of calls made with that
    signature: all of them when the calls carry a single signature. *)
Theorem Add_counts_calls (spec : HistogramSpecification B)
    (calls : list (option (gmap string string) * Q)) (signature : string) :
  countsEachValue ->
  Bucket.Observations (BucketBuilder spec) = 0%Z ->
  (Starts spec <> [] -> snd (AddAll (NewHistogram spec) calls) = Returns) /\
  (snd (AddAll (NewHistogram spec) calls) = Returns ->
   seriesTotal (fst (AddAll (NewHistogram spec) calls)) signature =
     Z.of_nat (callsFor signature calls)) /\
  (Forall (fun call => LabelsToSignature (default ∅ (fst call)) = signature) calls ->
   callsFor signature calls = length calls).
Proof.
  intros Hcount Hfresh. repeat split.
  - intros Hne. apply AddAll_returns; [apply wellFormed_new|done].
  - intros Hret. rewrite AddAll_seriesTotal by done.
    unfold seriesTotal. simpl. rewrite lookup_empty. lia.
  - intros Hall. unfold callsFor. f_equal.
    induction Hall as [|call rest Hcall Hall IH]; [done|].
    rewrite filter_cons. case_decide; [|done]. by rewrite IH.
Qed.

(** ** ResetAll and construction *)

(** C8: [ResetAll] leaves no series (a snapshot afterwards lists none)
    and keeps the boundaries, the bucket factory and the percentile list;
    every bucket of every series that was tracked has [Reset] invoked
    before its series is deleted; the next [Add] builds its series anew
    from the factory. *)
Theorem ResetAll_clears_series (formatFloat : Q -> string) (h : histogram B) :
  values (fst (ResetAll h)) = ∅ /\
  AsMarshallable formatFloat (fst (ResetAll h)) = Ok [] /\
  bucketStarts (fst (ResetAll h)) = bucketStarts h /\
  bucketMaker (fst (ResetAll h)) = bucketMaker h /\
  reportablePercentiles (fst (ResetAll h)) = reportablePercentiles h /\
  (forall signature s i b,
     values h !! signature = Some s -> buckets s !! i = Some b ->
     exists before after,
       snd (ResetAll h) = before ++ BucketReset signature i (Bucket.Reset b) :: after /\
       SeriesDeleted signature ∈ after) /\
  (forall labels value,
     bucketStarts h <> [] ->
     snd (Add LabelsToSignature (fst (ResetAll h)) labels value) = Returns /\
     values (fst (Add LabelsToSignature (fst (ResetAll h)) labels value)) =
       {[ LabelsToSignature (default ∅ labels) :=
            {| buckets :=
                 <[lastIndexFor (bucketStarts h) value :=
                     Bucket.Add (bucketMaker h) value]>
                   (replicate (length (bucketStarts h)) (bucketMaker h));
               labels := default ∅ labels |} ]}).
Proof.
  split; [apply ResetAll_values|].
  split.
  { unfold AsMarshallable. by rewrite ResetAll_values, map_to_list_empty. }
  split; [apply ResetAll_bucketStarts|].
  split; [apply ResetAll_bucketMaker|].
  split; [apply ResetAll_reportablePercentiles|].
  split; [intros signature s i b; apply ResetAll_order|].
  intros labels value Hne. rewrite Add_unfold. unfold seriesFor.
  rewrite ResetAll_values, lookup_empty, ResetAll_bucketStarts, ResetAll_bucketMaker.
  cbn [default buckets].
  rewrite lookup_replicate_2 by (by apply lastIndexFor_lt).
  split; [done|]. cbn [fst values withValues]. by rewrite insert_empty.
Qed.

(** C10: [NewHistogram] accepts a specification without boundaries, and
    on every state of the engine it builds each call of [Add] panics on
    index 0 of a series without buckets. *)
Theorem Add_panics_without_boundaries (spec : HistogramSpecification B) (h : histogram B)
    (labels : option (gmap string string)) (value : Q) :
  Starts spec = [] ->
  reachable spec h ->
  bucketStarts (NewHistogram spec) = [] /\
  snd (Add LabelsToSignature h labels value) = Panics (IndexOutOfRange 0 0).
Proof.
  intros Hempty Hreach. split; [done|].
  pose proof (reachable_wellFormed spec h Hreach) as Hwf.
  pose proof (seriesFor_length h labels Hwf) as Hlen.
  rewrite (reachable_bucketStarts spec h Hreach), Hempty in Hlen.
  rewrite Add_unfold, (reachable_bucketStarts spec h Hreach), Hempty.
  destruct (buckets (seriesFor h labels)) as [|b bs]; [done|]. simpl in Hlen. lia.
Qed.

End EngineFacts.

(** ** Logarithmic boundaries *)

Lemma Qpow2_nonpos_le_1 (k : Z) : (k <= 0)%Z -> (Qpow2 k <= 1)%Q.
Proof.
  destruct k as [|p|p]; intros Hk; [apply Qle_refl|lia|].
  unfold Qpow2, Qle. simpl. lia.
Qed.

Lemma ceilLog2_positive (upper : Q) : (1 < upper)%Q -> (0 < ceilLog2 upper)%Z.
Proof.
  intros Hup.
  destruct (ceilLog2_spec upper) as [Hle _]; [by apply (Qlt_trans 0 1)|].
  destruct (Z_lt_le_dec 0 (ceilLog2 upper)) as [|Hk]; [done|].
  exfalso. apply (Qlt_not_le 1 upper Hup).
  eapply Qle_trans; [exact Hle|]. by apply Qpow2_nonpos_le_1.
Qed.

Lemma length_logStarts (i : nat) (j : Q) (n : nat) : length (logStarts i j n) = n.
Proof. revert i j. induction n as [|n IH]; intros i j; simpl; [done|]. by rewrite IH. Qed.

Lemma logStarts_head (i : nat) (j : Q) (n : nat) :
  0 < n -> logStarts i j n !! 0 = Some j.
Proof. destruct n; [lia|done]. Qed.

Lemma logStarts_tail (i : nat) (j : Q) (n k : nat) :
  S k < n -> logStarts i j n !! S k = Some (inject_Z (2 ^ Z.of_nat (i + S k))).
Proof.
  revert i j k. induction n as [|n IH]; intros i j k Hk; [lia|].
  cbn [logStarts]. rewrite lookup_cons. destruct k as [|k].
  - destruct n; [lia|]. cbn [logStarts]. rewrite lookup_cons.
    replace (Z.of_nat i + 1)%Z with (Z.of_nat (i + 1)) by lia.
    rewrite Nat.add_1_r. reflexivity.
  - rewrite IH by lia. do 3 f_equal. lia.
Qed.

Lemma ceilLog2_unique (upper : Q) (k : Z) :
  (upper <= Qpow2 k)%Q -> ~ (upper <= Qpow2 (k - 1))%Q -> (0 < upper)%Q ->
  ceilLog2 upper = k.
Proof.
  intros Hle Hnot Hpos. destruct (ceilLog2_spec upper Hpos) as [Hle' Hleast].
  destruct (Z.lt_trichotomy (ceilLog2 upper) k) as [Hlt|[Heq|Hgt]]; [|done|].
  - exfalso. apply Hnot. eapply Qle_trans; [exact Hle'|]. apply Qpow2_le. lia.
  - exfalso. by apply (Hleast k).
Qed.

(** C3, as the code has it: for every [upper > 1] and whatever [lower]
    is, [LogarithmicSizedBucketsFor] returns at least one boundary; the
    first one is 0 and each later one, at index [i >= 1], is [2^i]. For
    [upper = 2^k] there are [k] of them, and for [upper = 10] they are
    [0, 2, 4, 8]. *)
Theorem LogarithmicSizedBucketsFor_starts (lower upper : Q) :
  (1 < upper)%Q ->
  exists starts,
    LogarithmicSizedBucketsFor lower upper = Ok starts /\
    LogarithmicSizedBucketsFor 0 upper = Ok starts /\
    starts <> [] /\
    starts !! 0 = Some 0%Q /\
    (forall i, 0 < i < length starts ->
       starts !! i = Some (inject_Z (2 ^ Z.of_nat i))) /\
    (forall k, (upper == Qpow2 (Z.of_nat k))%Q -> length starts = k) /\
    (upper == 10 -> starts = [0; 2; 4; 8])%Q.
Proof.
  intros Hup.
  assert (Hpos : (0 < upper)%Q) by (by apply (Qlt_trans 0 1)).
  pose proof (ceilLog2_positive upper Hup) as Hk.
  destruct (ceilLog2_spec upper Hpos) as [Hle Hleast].
  exists (logStarts 0 0%Q (Z.to_nat (ceilLog2 upper))).
  assert (Hrun : forall l, LogarithmicSizedBucketsFor l upper =
                   Ok (logStarts 0 0%Q (Z.to_nat (ceilLog2 upper)))).
  { intros l. unfold LogarithmicSizedBucketsFor.
    destruct (Qle_bool upper 0) eqn:E.
    { apply Qle_bool_iff in E. exfalso. by apply (Qlt_not_le 0 upper). }
    destruct (Z.ltb_spec (ceilLog2 upper) 0); [lia|done]. }
  split; [apply Hrun|]. split; [apply Hrun|]. split; [|split; [|split; [|split]]].
  - intros Hnil. apply (f_equal length) in Hnil. rewrite length_logStarts in Hnil.
    simpl in Hnil. lia.
  - apply logStarts_head. lia.
  - intros i [Hi0 Hi]. rewrite length_logStarts in Hi.
    destruct i as [|i]; [lia|]. by rewrite logStarts_tail.
  - intros k Hpow. rewrite length_logStarts.
    rewrite (ceilLog2_unique upper (Z.of_nat k)); [lia| | |done].
    + rewrite Hpow. apply Qle_refl.
    + rewrite Hpow. apply Qlt_not_le, Qpow2_lt. lia.
  - intros Hten.
    rewrite (ceilLog2_unique upper 4); [done| | |done].
    + rewrite Hten. by vm_compute.
    + rewrite Hten. intros Hc. by vm_compute in Hc.
Qed.

(** C3 as stated fails: for [upper = 10] the first boundary is 0, not
    [2^0 = 1], so the result is not [1, 2, 4, 8]. *)
Lemma LogarithmicSizedBucketsFor_first_is_zero :
  exists starts,
    LogarithmicSizedBucketsFor 0 10 = Ok starts /\
    Z.of_nat (length starts) = ceilLog2 10 /\
    starts !! 0 = Some 0%Q /\
    starts !! 0 <> Some (inject_Z (2 ^ Z.of_nat 0)) /\
    starts <> [1; 2; 4; 8]%Q.
Proof. exists [0; 2; 4; 8]%Q. repeat split; done. Qed.

(** ** The concrete scenario *)

Section Scenario.

Variable LabelsToSignature : gmap string string -> string.

(** Boundaries [0, 10, 20] and exact-storage buckets. *)
Definition scenarioSpec : HistogramSpecification ExactBucket.t :=
  {| BucketBuilder := ExactBucket.empty;
     ReportablePercentiles := [1 # 2; 1]%Q;
     Starts := [0; 10; 20]%Q |}.

(** Five observations of 3, then five of 25, under the empty label set. *)
Definition scenarioCalls : list (option (gmap string string) * Q) :=
  replicate 5 (Some ∅, 3%Q) ++ replicate 5 (Some ∅, 25%Q).

Definition scenario : histogram ExactBucket.t :=
  fst (AddAll LabelsToSignature (NewHistogram scenarioSpec) scenarioCalls).

(** The series of the scenario when it holds [b0] in bucket 0 and [b2]
    in bucket 2, and the engine that tracks it. *)
Definition scenarioSeries (b0 b2 : ExactBucket.t) : histogramValue ExactBucket.t :=
  {| buckets := [b0; ExactBucket.empty; b2]; labels := ∅ |}.

Definition scenarioState (b0 b2 : ExactBucket.t) : histogram ExactBucket.t :=
  {| bucketMaker := ExactBucket.empty;
     bucketStarts := [0; 10; 20]%Q;
     values := {[ LabelsToSignature ∅ := scenarioSeries b0 b2 ]};
     reportablePercentiles := [1 # 2; 1]%Q |}.

Lemma scenarioState_lookup (b0 b2 : ExactBucket.t) :
  values (scenarioState b0 b2) !! LabelsToSignature ∅ = Some (scenarioSeries b0 b2).
Proof. apply lookup_singleton_eq. Qed.

Lemma scenario_first :
  Add LabelsToSignature (NewHistogram scenarioSpec) (Some ∅) 3%Q =
  (scenarioState [3%Q] [], Returns).
Proof.
  rewrite Add_unfold. unfold seriesFor. simpl. rewrite lookup_empty. simpl.
  unfold scenarioState, scenarioSeries, withValues. simpl. by rewrite insert_empty.
Qed.

Lemma scenario_low (b0 b2 : ExactBucket.t) :
  Add LabelsToSignature (scenarioState b0 b2) (Some ∅) 3%Q =
  (scenarioState (b0 ++ [3%Q]) b2, Returns).
Proof.
  rewrite Add_unfold. unfold seriesFor. simpl. rewrite lookup_singleton_eq. simpl.
  unfold scenarioState, scenarioSeries, withValues. simpl.
  by rewrite insert_singleton_eq.
Qed.

Lemma scenario_high (b0 b2 : ExactBucket.t) :
  Add LabelsToSignature (scenarioState b0 b2) (Some ∅) 25%Q =
  (scenarioState b0 (b2 ++ [25%Q]), Returns).
Proof.
  rewrite Add_unfold. unfold seriesFor. simpl. rewrite lookup_singleton_eq. simpl.
  unfold scenarioState, scenarioSeries, withValues. simpl.
  by rewrite insert_singleton_eq.
Qed.

Lemma scenario_state :
  scenario = scenarioState [3; 3; 3; 3; 3]%Q [25; 25; 25; 25; 25]%Q.
Proof.
  unfold scenario, scenarioCalls. cbn [replicate app AddAll].
  rewrite scenario_first. rewrite !scenario_low. rewrite !scenario_high. reflexivity.
Qed.

(** C1: with boundaries [0, 10, 20], five observations of 3 and five of
    25 under the empty label set, the buckets count 5, 0 and 5; the
    percentile 0.5 has prospective index 4 and selects bucket 0 at
    sub-index 4, whose value is 3; the percentile 1.0 has prospective
    index 9 and selects bucket 2 at sub-index 4, whose value is 25. *)
Theorem scenario_percentiles :
  values scenario !! LabelsToSignature ∅ =
    Some (scenarioSeries [3; 3; 3; 3; 3]%Q [25; 25; 25; 25; 25]%Q) /\
  Bucket.Observations <$> buckets (scenarioSeries [3; 3; 3; 3; 3]%Q [25; 25; 25; 25; 25]%Q)
    = [5; 0; 5]%Z /\
  seriesTotal scenario (LabelsToSignature ∅) = 10%Z /\
  prospectiveIndexForPercentile (1 # 2) 10 = 4%Z /\
  bucketForPercentile scenario (LabelsToSignature ∅) (1 # 2) = Ok (0, 4%Z) /\
  percentile scenario (LabelsToSignature ∅) (1 # 2) = Ok 3%Q /\
  prospectiveIndexForPercentile 1 10 = 9%Z /\
  bucketForPercentile scenario (LabelsToSignature ∅) 1 = Ok (2, 4%Z) /\
  percentile scenario (LabelsToSignature ∅) 1 = Ok 25%Q.
Proof.
  rewrite scenario_state.
  pose proof (scenarioState_lookup [3; 3; 3; 3; 3]%Q [25; 25; 25; 25; 25]%Q) as Hs.
  assert (Hrank1 : prospectiveIndexForPercentile (1 # 2) 10 = 4%Z)
    by (vm_compute; reflexivity).
  assert (Hrank2 : prospectiveIndexForPercentile 1 10 = 9%Z)
    by (vm_compute; reflexivity).
  assert (Hnn : Forall (fun b : ExactBucket.t => (0 <= Bucket.Observations b)%Z)
                  (buckets (scenarioSeries [3; 3; 3; 3; 3]%Q [25; 25; 25; 25; 25]%Q)))
    by (apply Forall_forall; intros b _; simpl; lia).
  assert (Hb : (totalObservations (scenarioSeries [3; 3; 3; 3; 3]%Q [25; 25; 25; 25; 25]%Q)
                < 2 ^ 63)%Z)
    by (vm_compute; reflexivity).
  assert (Hhalf : bucketForPercentile
                    (scenarioState [3; 3; 3; 3; 3]%Q [25; 25; 25; 25; 25]%Q)
                    (LabelsToSignature ∅) (1 # 2) = Ok (0, 4%Z)).
  { unfold bucketForPercentile.
    rewrite (bucketSearch_series _ _ _ _ Hs eq_refl Hnn Hb).
    change (totalObservations _) with 10%Z. rewrite Hrank1. reflexivity. }
  assert (Hfull : bucketForPercentile
                    (scenarioState [3; 3; 3; 3; 3]%Q [25; 25; 25; 25; 25]%Q)
                    (LabelsToSignature ∅) 1 = Ok (2, 4%Z)).
  { unfold bucketForPercentile.
    rewrite (bucketSearch_series _ _ _ _ Hs eq_refl Hnn Hb).
    change (totalObservations _) with 10%Z. rewrite Hrank2. reflexivity. }
  split; [exact Hs|]. split; [reflexivity|]. split; [unfold seriesTotal; by rewrite Hs|].
  split; [exact Hrank1|]. split; [exact Hhalf|]. split.
  { unfold percentile. rewrite Hhalf, bind_Ok. cbn beta iota. by rewrite Hs. }
  split; [exact Hrank2|]. split; [exact Hfull|].
  unfold percentile. rewrite Hfull, bind_Ok. cbn beta iota. by rewrite Hs.
Qed.

End Scenario.

(** ** The exact-storage bucket keeps the laws *)

Lemma ExactBucket_counts : countsEachValue (B := ExactBucket.t).
Proof. intros b v. simpl. rewrite length_app. simpl. lia. Qed.

Lemma ExactBucket_nonneg (b : ExactBucket.t) : (0 <= Bucket.Observations b)%Z.
Proof. simpl. lia. Qed.

Lemma ExactBucket_retains : retainsIngested (B := ExactBucket.t).
Proof.
  intros P b v Hb Hv k Hk. simpl in *. rewrite length_app in Hk. simpl in Hk.
  unfold ExactBucket.valueAt. destruct (Z.ltb_spec k 0) as [|_]; [lia|].
  destruct (decide (Z.to_nat k < length b)) as [Hlt|Hge].
  - rewrite app_nth1 by done.
    assert (Hkb : (0 <= k < Z.of_nat (length b))%Z) by lia.
    specialize (Hb k Hkb). simpl in Hb. unfold ExactBucket.valueAt in Hb.
    by destruct (Z.ltb_spec k 0) as [|_]; [lia|].
  - rewrite app_nth2 by lia.
    replace (Z.to_nat k - length b) with 0 by lia. done.
Qed.

Lemma ExactBucket_nonneg_all (bs : list ExactBucket.t) :
  Forall (fun b => (0 <= Bucket.Observations b)%Z) bs.
Proof. apply Forall_forall. intros b _. apply ExactBucket_nonneg. Qed.

(** ** The theorems at concrete inputs *)

(** One signature for every label set: enough for runs with one series. *)
Definition oneSignature (labels : gmap string string) : string := "series".

Definition emptySpec : HistogramSpecification ExactBucket.t :=
  {| BucketBuilder := ExactBucket.empty; ReportablePercentiles := []; Starts := [] |}.

(** A series that has buckets and no observations. *)
Definition idleState : histogram ExactBucket.t :=
  {| bucketMaker := ExactBucket.empty;
     bucketStarts := [0; 10]%Q;
     values :=
       {[ "series"%string :=
            {| buckets := [ExactBucket.empty; ExactBucket.empty]; labels := ∅ |} ]};
     reportablePercentiles := [] |}.

(** One observation of 3 and one of 25. *)
Definition twoCalls : list (option (gmap string string) * Q) :=
  [(None, 3%Q); (Some ∅, 25%Q)].

Lemma scenario_sorted : StronglySorted Qlt (Starts scenarioSpec).
Proof. repeat constructor; done. Qed.

Lemma Add_routes_to_interval_witness :
  lastIndexFor (bucketStarts (NewHistogram scenarioSpec)) 10 = 1.
Proof.
  apply (proj1 (Add_routes_to_interval oneSignature (NewHistogram scenarioSpec) None 10
                  scenario_sorted) 1 10%Q); reflexivity.
Defined.

Lemma LogarithmicSizedBucketsFor_starts_witness :
  exists starts, LogarithmicSizedBucketsFor 3 10 = Ok starts /\ starts !! 0 = Some 0%Q.
Proof.
  destruct (LogarithmicSizedBucketsFor_starts 3 10 eq_refl)
    as (starts & Hrun & _ & _ & Hfirst & _).
  by exists starts.
Defined.

Lemma bucketForPercentile_in_range_witness :
  bucketForPercentile (scenarioState oneSignature [3; 3; 3; 3; 3]%Q [25; 25; 25; 25; 25]%Q)
    "series" 1 <> Panic IllegalCondition.
Proof.
  apply (bucketForPercentile_in_range
           (scenarioState oneSignature [3; 3; 3; 3; 3]%Q [25; 25; 25; 25; 25]%Q)
           "series" (scenarioSeries [3; 3; 3; 3; 3]%Q [25; 25; 25; 25; 25]%Q) 1).
  - apply (scenarioState_lookup oneSignature).
  - reflexivity.
  - apply ExactBucket_nonneg_all.
  - vm_compute. reflexivity.
  - vm_compute. discriminate.
  - reflexivity.
  - apply Qle_refl.
Defined.

(** A Bucket that keeps only the number of the values it ingested and
    answers 0 at every index: an implementation of the interface for
    series with very many observations. *)
Module CountingBucket.

Definition t : Type := Z.

#[global] Instance ops : Bucket.Ops t := {|
  Bucket.Add := fun b _ => (b + 1)%Z;
  Bucket.Observations := fun b => b;
  Bucket.ValueForIndex := fun _ _ => 0%Q;
  Bucket.Reset := fun _ => 0%Z
|}.

End CountingBucket.

(** One series whose only bucket counts [2^53 + 4] observations. *)
Definition crowdedSeries : histogramValue CountingBucket.t :=
  {| buckets := [(2 ^ 53 + 4)%Z]; labels := ∅ |}.

Definition crowdedState : histogram CountingBucket.t :=
  {| bucketMaker := 0%Z;
     bucketStarts := [0%Q];
     values := {[ "series"%string := crowdedSeries ]};
     reportablePercentiles := [1%Q] |}.

(** C4 as stated fails: with [2^53 + 4] observations the conversion
    [float64(total - 1)] rounds [2^53 + 3] up to [2^53 + 4], so the
    percentile 1 gets the total as its rank, the sub-index equals the
    count of the last bucket and the query ends in the panic of
    [nextNonEmptyBucketElement]. *)
Lemma bucketForPercentile_panics_on_large_total :
  values crowdedState !! "series"%string = Some crowdedSeries /\
  length (buckets crowdedSeries) = length (bucketStarts crowdedState) /\
  Forall (fun b => (0 <= Bucket.Observations b)%Z) (buckets crowdedSeries) /\
  (0 < totalObservations crowdedSeries)%Z /\
  prospectiveIndexForPercentile 1 (totalObservations crowdedSeries) =
    totalObservations crowdedSeries /\
  bucketForPercentile crowdedState "series" 1 = Panic IllegalCondition.
Proof.
  split; [apply lookup_singleton_eq|]. split; [reflexivity|].
  split; [repeat constructor; vm_compute; discriminate|].
  split; [vm_compute; reflexivity|]. split; vm_compute; reflexivity.
Qed.

Lemma idleState_lookup :
  values idleState !! "series"%string =
  Some {| buckets := [ExactBucket.empty; ExactBucket.empty]; labels := ∅ |}.
Proof. apply lookup_singleton_eq. Qed.

Lemma bucketForPercentile_falls_through_witness :
  bucketSearch idleState "series" (1 # 2) = Ok None.
Proof.
  assert (Hbound : (totalObservations
                      {| buckets := [ExactBucket.empty; ExactBucket.empty];
                         labels := ∅ |} <= 2 ^ 53)%Z)
    by (vm_compute; discriminate).
  apply (proj1 (bucketForPercentile_falls_through idleState "series" _ (1 # 2)
                  idleState_lookup eq_refl (ExactBucket_nonneg_all _) Hbound eq_refl
                  (Qlt_le_weak _ _ (eq_refl : (1 # 2 < 1)%Q)))).
  reflexivity.
Defined.

(** The state an engine without boundaries is left in by an [Add] that
    panicked: a series without buckets. *)
Definition strandedState : histogram ExactBucket.t :=
  fst (Add oneSignature (NewHistogram emptySpec) None 7%Q).

(** One series whose only bucket counts [2^55 + 6] observations. *)
Definition overfullSeries : histogramValue CountingBucket.t :=
  {| buckets := [(2 ^ 55 + 6)%Z]; labels := ∅ |}.

Definition overfullState : histogram CountingBucket.t :=
  {| bucketMaker := 0%Z;
     bucketStarts := [0%Q];
     values := {[ "series"%string := overfullSeries ]};
     reportablePercentiles := [1%Q] |}.

(** C5 as stated fails in both of its halves. A series without buckets
    has no observations, the search loop runs to its end, and the query
    panics on bucket 0 instead of returning its value. And with
    [2^55 + 6] observations the conversion [float64(total - 1)] gives
    [2^55 + 8], the percentile 1 gets a rank above the total, and the
    loop runs to its end although the series has observations. *)
Lemma bucketForPercentile_falls_through_fails :
  (values strandedState !! "series"%string = Some {| buckets := []; labels := ∅ |} /\
   totalObservations (B := ExactBucket.t) {| buckets := []; labels := ∅ |} = 0%Z /\
   bucketSearch strandedState "series" (1 # 2) = Ok None /\
   bucketForPercentile strandedState "series" (1 # 2) = Panic (IndexOutOfRange 0 0) /\
   percentile strandedState "series" (1 # 2) = Panic (IndexOutOfRange 0 0)) /\
  (values overfullState !! "series"%string = Some overfullSeries /\
   (0 < totalObservations overfullSeries)%Z /\
   prospectiveIndexForPercentile 1 (totalObservations overfullSeries) =
     (totalObservations overfullSeries + 2)%Z /\
   bucketSearch overfullState "series" 1 = Ok None /\
   bucketForPercentile overfullState "series" 1 = Ok (0, 0%Z)).
Proof.
  split.
  - repeat split; vm_compute; reflexivity.
  - split; [apply lookup_singleton_eq|]. repeat split; vm_compute; reflexivity.
Qed.

Lemma twoCalls_reachable :
  reachable oneSignature scenarioSpec
    (fst (AddAll oneSignature (NewHistogram scenarioSpec) twoCalls)).
Proof.
  assert (Hrun : fst (AddAll oneSignature (NewHistogram scenarioSpec) twoCalls) =
                 fst (Add oneSignature
                        (fst (Add oneSignature (NewHistogram scenarioSpec) None 3%Q))
                        (Some ∅) 25%Q))
    by (vm_compute; reflexivity).
  rewrite Hrun. do 2 apply reachable_Add. apply reachable_new.
Qed.

Lemma percentile_monotone_witness :
  exists v1 v2,
    percentile (fst (AddAll oneSignature (NewHistogram scenarioSpec) twoCalls))
      "series" (1 # 2) = Ok v1 /\
    percentile (fst (AddAll oneSignature (NewHistogram scenarioSpec) twoCalls))
      "series" 1 = Ok v2 /\
    (v1 <= v2)%Q.
Proof.
  apply (percentile_monotone oneSignature scenarioSpec _ "series"
           (scenarioSeries [3%Q] [25%Q]) (1 # 2) 1).
  - apply ExactBucket_retains.
  - reflexivity.
  - discriminate.
  - apply twoCalls_reachable.
  - vm_compute. reflexivity.
  - apply ExactBucket_nonneg_all.
  - vm_compute. discriminate.
  - repeat constructor; intros j k Hj Hjk Hk; simpl in Hk;
      (lia || (assert (j = 0%Z) as -> by lia; assert (k = 0%Z) as -> by lia;
               apply Qle_refl)).
  - reflexivity.
  - discriminate.
  - apply Qle_refl.
Defined.

(** A Bucket that keeps what it ingests and answers, at every index, the
    negation of the first value it ingested: its [ValueForIndex] is
    ascending by index, and what it reports is not what it ingested. *)
Module NegatingBucket.

Record t : Type := Holding { held : list Q }.

#[global] Instance ops : Bucket.Ops t := {|
  Bucket.Add := fun b v => Holding (held b ++ [v]);
  Bucket.Observations := fun b => Z.of_nat (length (held b));
  Bucket.ValueForIndex := fun b _ => (- hd 0 (held b))%Q;
  Bucket.Reset := fun _ => Holding []
|}.

End NegatingBucket.

Definition negatingSpec : HistogramSpecification NegatingBucket.t :=
  {| BucketBuilder := NegatingBucket.Holding [];
     ReportablePercentiles := [1 # 2; 1]%Q;
     Starts := [0; 10; 20]%Q |}.

Definition negatingState : histogram NegatingBucket.t :=
  fst (AddAll oneSignature (NewHistogram negatingSpec) scenarioCalls).

Definition negatingSeries : histogramValue NegatingBucket.t :=
  {| buckets := [NegatingBucket.Holding [3; 3; 3; 3; 3]%Q;
                 NegatingBucket.Holding [];
                 NegatingBucket.Holding [25; 25; 25; 25; 25]%Q];
     labels := ∅ |}.

(** C6 as stated fails: ascending order by index alone does not make the
    estimate monotone. After five observations of 3 and five of 25 the
    negating buckets order their values ascending by index, and the
    percentile 0.5 is -3 while the percentile 1 is -25. *)
Lemma percentile_not_monotone :
  values negatingState !! "series"%string = Some negatingSeries /\
  Forall ascending (buckets negatingSeries) /\
  percentile negatingState "series" (1 # 2) = Ok (-3)%Q /\
  percentile negatingState "series" 1 = Ok (-25)%Q /\
  ~ (-3 <= -25)%Q.
Proof.
  split; [vm_compute; reflexivity|]. split.
  { apply Forall_forall. intros b _ j k _ _ _. apply Qle_refl. }
  split; [vm_compute; reflexivity|]. split; [vm_compute; reflexivity|].
  intros Hle. by vm_compute in Hle.
Qed.

Lemma Add_counts_calls_witness :
  seriesTotal (fst (AddAll oneSignature (NewHistogram scenarioSpec) twoCalls)) "series"
  = 2%Z.
Proof.
  destruct (Add_counts_calls oneSignature scenarioSpec twoCalls "series"
              ExactBucket_counts eq_refl) as (Hret & Htotal & _).
  rewrite Htotal; [reflexivity|]. apply Hret. discriminate.
Defined.

Lemma Add_panics_without_boundaries_witness :
  snd (Add oneSignature (NewHistogram emptySpec) None 7%Q) = Panics (IndexOutOfRange 0 0).
Proof.
  apply (Add_panics_without_boundaries oneSignature emptySpec (NewHistogram emptySpec)
           None 7%Q eq_refl (reachable_new oneSignature emptySpec)).
Defined.

(** * Further properties of the code *)

(** ** Equally sized boundaries *)

Lemma StronglySorted_lookup {A : Type} (R : relation A) (l : list A) :
  (forall i j a b, i < j -> l !! i = Some a -> l !! j = Some b -> R a b) ->
  StronglySorted R l.
Proof.
  induction l as [|x l IH]; intros Hl; constructor.
  - apply IH. intros i j a b Hij Ha Hb. apply (Hl (S i) (S j) a b); [lia|done|done].
  - apply Forall_lookup. intros i y Hy. apply (Hl 0 (S i) x y); [lia|done|done].
Qed.

Lemma length_equalStarts (lower partitionSize : float64) (i count : nat) :
  length (equalStarts lower partitionSize i count) = count.
Proof. revert i. induction count as [|count IH]; intros i; simpl; [done|]. by rewrite IH. Qed.

Lemma equalStarts_lookup (lower partitionSize : float64) (i count k : nat) :
  k < count ->
  equalStarts lower partitionSize i count !! k =
  Some (fadd lower (fmul (ofInt (Z.of_nat (i + k))) partitionSize)).
Proof.
  revert i k. induction count as [|count IH]; intros i k Hk; [lia|].
  destruct k as [|k]; simpl.
  - by rewrite Nat.add_0_r.
  - rewrite IH by lia. by replace (S i + k) with (i + S k) by lia.
Qed.

(** X1: [EquallySizedBucketsFor] panics on a negative count and otherwise
    returns [count] boundaries; the one at index [i] is the float sum of
    [lower] and the float product of [float64(i)] with the partition
    size, the float quotient of [upper - lower] by [float64(count)]. *)
Theorem EquallySizedBucketsFor_boundaries (lower upper : float64) (count : Z) :
  ((count < 0)%Z -> EquallySizedBucketsFor lower upper count = Panic NegativeLength) /\
  ((0 <= count)%Z ->
   exists starts,
     EquallySizedBucketsFor lower upper count = Ok starts /\
     Z.of_nat (length starts) = count /\
     forall i, (Z.of_nat i < count)%Z ->
       starts !! i =
       Some (fadd lower
               (fmul (ofInt (Z.of_nat i)) (fdiv (fsub upper lower) (ofInt count))))).
Proof.
  unfold EquallySizedBucketsFor. split; intros Hcount.
  - by destruct (Z.ltb_spec count 0); [|lia].
  - destruct (Z.ltb_spec count 0); [lia|]. eexists. split; [done|]. split.
    + rewrite length_equalStarts. lia.
    + intros i Hi. rewrite equalStarts_lookup by lia. done.
Qed.

(** *** Floats that stay finite *)

Lemma Qpow2_exact (k : Z) : (-1074 <= k)%Z -> (round64 (Qpow2 k) == Qpow2 k)%Q.
Proof. intros Hk. apply (round64_exact _ 1 k); [ring|lia|done]. Qed.

Lemma round64_abs_le (q : Q) (k : Z) :
  (-1074 <= k)%Z -> (Qabs q <= Qpow2 k)%Q -> (Qabs (round64 q) <= Qpow2 k)%Q.
Proof.
  intros Hk Hq. apply Qabs_Qle_condition in Hq as [Hlo Hhi].
  apply Qabs_Qle_condition. split.
  - rewrite <- (Qpow2_exact k Hk), <- round64_opp. by apply round64_mono.
  - rewrite <- (Qpow2_exact k Hk). by apply round64_mono.
Qed.

Lemma ieee_finite (q : Q) (k : Z) :
  (-1074 <= k)%Z -> (k < 1024)%Z -> (Qabs q <= Qpow2 k)%Q ->
  ieee q = Finite (round64 q).
Proof.
  intros Hk Hk' Hq. unfold ieee.
  destruct (Qle_bool (Qpow2 1024) (Qabs (round64 q))) eqn:E; [|done].
  apply Qle_bool_iff in E. exfalso.
  pose proof (round64_abs_le q k Hk Hq) as Hr.
  pose proof (Qpow2_lt k 1024 Hk'). lra.
Qed.

Lemma Qabs_inject_Z_le (z : Z) (k : Z) :
  (0 <= k)%Z -> (Z.abs z <= 2 ^ k)%Z -> (Qabs (inject_Z z) <= Qpow2 k)%Q.
Proof.
  intros Hk Hz. rewrite (Qpow2_nonneg k Hk).
  change (Qabs (inject_Z z)) with (inject_Z (Z.abs z)). by rewrite <- Zle_Qle.
Qed.

(** The values of the loop of [EquallySizedBucketsFor] when none of its
    operations overflows. *)
Fixpoint equalValues (lower partitionSize : Q) (i count : nat) : list Q :=
  match count with
  | O => []
  | S count' =>
      round64 (lower + round64 (round64 (inject_Z (Z.of_nat i)) * partitionSize))
        :: equalValues lower partitionSize (S i) count'
  end.

Lemma equalValues_lookup (lower partitionSize : Q) (i count k : nat) :
  k < count ->
  equalValues lower partitionSize i count !! k =
  Some (round64 (lower + round64 (round64 (inject_Z (Z.of_nat (i + k))) * partitionSize))).
Proof.
  revert i k. induction count as [|count IH]; intros i k Hk; [lia|].
  destruct k as [|k]; simpl.
  - by rewrite Nat.add_0_r.
  - rewrite IH by lia. by replace (S i + k) with (i + S k) by lia.
Qed.

Lemma index_float_bounds (i : nat) :
  (Z.of_nat i <= 2 ^ 63)%Z ->
  (0 <= round64 (inject_Z (Z.of_nat i)))%Q /\
  (round64 (inject_Z (Z.of_nat i)) <= Qpow2 63)%Q.
Proof.
  intros Hi. split.
  - apply round64_nonneg. change 0%Q with (inject_Z 0). rewrite <- Zle_Qle. lia.
  - rewrite <- (Qpow2_exact 63) by lia. apply round64_mono.
    rewrite (Qpow2_nonneg 63) by lia. by rewrite <- Zle_Qle.
Qed.

Lemma product_float_bounds (m partitionSize : Q) :
  (0 <= m)%Q -> (m <= Qpow2 63)%Q ->
  (0 <= partitionSize)%Q -> (partitionSize <= Qpow2 901)%Q ->
  (0 <= m * partitionSize)%Q /\ (m * partitionSize <= Qpow2 964)%Q.
Proof.
  intros Hm0 Hm Hp0 Hp. split; [by apply Qmult_le_0_compat|].
  replace 964%Z with (63 + 901)%Z by done. rewrite Qpow2_plus.
  by apply Qmult_le_compat_nonneg.
Qed.

Lemma equalStarts_finite (lower partitionSize : Q) (i count : nat) :
  (Qabs lower <= Qpow2 900)%Q ->
  (0 <= partitionSize)%Q -> (partitionSize <= Qpow2 901)%Q ->
  (Z.of_nat (i + count) <= 2 ^ 63)%Z ->
  equalStarts (Finite lower) (Finite partitionSize) i count =
  Finite <$> equalValues lower partitionSize i count.
Proof.
  intros Hlower Hp0 Hp. revert i.
  induction count as [|count IH]; intros i Hi; [done|].
  cbn [equalStarts equalValues]. rewrite fmap_cons, IH by lia. f_equal.
  destruct (index_float_bounds i) as [Hm0 Hm]; [lia|].
  destruct (product_float_bounds _ _ Hm0 Hm Hp0 Hp) as [Ht0 Ht].
  unfold ofInt. rewrite (ieee_finite (inject_Z (Z.of_nat i)) 63); [|lia|lia|].
  2:{ apply Qabs_inject_Z_le; lia. }
  cbn [fmul]. rewrite (ieee_finite _ 964); [|lia|lia|].
  2:{ rewrite Qabs_pos; done. }
  cbn [fadd]. rewrite (ieee_finite _ 965); [done|lia|lia|].
  assert (Hr0 : (0 <= round64 (round64 (inject_Z (Z.of_nat i)) * partitionSize))%Q)
    by (by apply round64_nonneg).
  assert (Hr : (round64 (round64 (inject_Z (Z.of_nat i)) * partitionSize) <= Qpow2 964)%Q).
  { rewrite <- (Qpow2_exact 964) by lia. by apply round64_mono. }
  apply Qabs_Qle_condition in Hlower as [Hl0 Hl1].
  pose proof (Qpow2_le 900 964 ltac:(lia)) as H1.
  assert (H2 : (Qpow2 965 == Qpow2 964 + Qpow2 964)%Q).
  { replace 965%Z with (1 + 964)%Z by done. rewrite Qpow2_plus.
    change (Qpow2 1) with 2%Q. ring. }
  pose proof (Qpow2_pos 964). apply Qabs_Qle_condition. split; lra.
Qed.

(** X2: for floats [lower < upper] of magnitude at most [2^900] and a
    positive count, no operation of [EquallySizedBucketsFor] overflows
    and the boundaries are finite, ascending in the wide sense (the
    rounding can make neighbours equal) and at least [lower], the first
    one being [lower] itself. *)
Theorem EquallySizedBucketsFor_ascending (lower upper : Q) (count : Z) :
  (round64 lower == lower)%Q ->
  (Qabs lower <= Qpow2 900)%Q -> (Qabs upper <= Qpow2 900)%Q ->
  (lower < upper)%Q -> (0 < count)%Z -> (count < 2 ^ 63)%Z ->
  exists starts,
    EquallySizedBucketsFor (Finite lower) (Finite upper) count = Ok (Finite <$> starts) /\
    Z.of_nat (length starts) = count /\
    StronglySorted Qle starts /\
    Forall (fun s => (lower <= s)%Q) starts /\
    exists first, starts !! 0 = Some first /\ (first == lower)%Q.
Proof.
  intros Hfloat Hlower Hupper Hlu Hcount Hint.
  set (d := round64 (upper + - lower)).
  set (c := round64 (inject_Z count)).
  set (size := round64 (d / c)).
  assert (Hdiff : (Qabs (upper + - lower) <= Qpow2 901)%Q).
  { assert (H2 : (Qpow2 901 == Qpow2 900 + Qpow2 900)%Q).
    { replace 901%Z with (1 + 900)%Z by done. rewrite Qpow2_plus.
      change (Qpow2 1) with 2%Q. ring. }
    apply Qabs_Qle_condition in Hlower as [Hl0 Hl1].
    apply Qabs_Qle_condition in Hupper as [Hu0 Hu1].
    apply Qabs_Qle_condition. split; lra. }
  assert (Hd0 : (0 <= d)%Q) by (apply round64_nonneg; lra).
  assert (Hd : (d <= Qpow2 901)%Q).
  { pose proof (round64_abs_le _ 901 ltac:(lia) Hdiff) as Habs.
    apply Qabs_Qle_condition in Habs as [_ Habs]. done. }
  assert (Hc : (1 <= c)%Q).
  { unfold c. rewrite <- (round64_Z 1) by lia. apply round64_mono.
    rewrite <- Zle_Qle. lia. }
  assert (Hquot0 : (0 <= d / c)%Q) by (apply Qle_shift_div_l; lra).
  assert (Hquot : (d / c <= d)%Q).
  { apply Qle_shift_div_r; [lra|].
    assert (H0 : (0 <= d * (c - 1))%Q) by (apply Qmult_le_0_compat; lra).
    assert (Hring : (d * (c - 1) == d * c - d)%Q) by ring. lra. }
  assert (Hsize0 : (0 <= size)%Q) by (by apply round64_nonneg).
  assert (Hsize : (size <= Qpow2 901)%Q).
  { unfold size. rewrite <- (Qpow2_exact 901) by lia. apply round64_mono. lra. }
  assert (Hpartition : fdiv (fsub (Finite upper) (Finite lower)) (ofInt count) = Finite size).
  { unfold fsub, ofInt. cbn [fneg fadd].
    rewrite (ieee_finite (upper + - lower) 901) by (done || lia). fold d.
    rewrite (ieee_finite (inject_Z count) 63); [|lia|lia|apply Qabs_inject_Z_le; lia].
    fold c. cbn [fdiv].
    destruct (Qeq_bool c 0) eqn:E.
    { apply Qeq_bool_iff in E. lra. }
    rewrite (ieee_finite (d / c) 901); [done|lia|lia|].
    rewrite Qabs_pos by done. lra. }
  exists (equalValues lower size 0 (Z.to_nat count)).
  unfold EquallySizedBucketsFor. destruct (Z.ltb_spec count 0); [lia|].
  rewrite Hpartition, equalStarts_finite by (done || lia).
  split; [done|].
  assert (Hlen : forall n, length (equalValues lower size 0 n) = n).
  { intros n. generalize 0. induction n as [|n IH]; intros i; simpl; [done|]. by rewrite IH. }
  split; [rewrite Hlen; lia|].
  assert (Hvalue : forall k, (0 <= round64 (round64 (inject_Z (Z.of_nat k)) * size))%Q).
  { intros k. apply round64_nonneg, Qmult_le_0_compat; [|done].
    apply round64_nonneg. change 0%Q with (inject_Z 0). rewrite <- Zle_Qle. lia. }
  split; [|split].
  - apply StronglySorted_lookup. intros i j a b Hij Ha Hb.
    pose proof (lookup_lt_Some _ _ _ Ha) as Hi. pose proof (lookup_lt_Some _ _ _ Hb) as Hj.
    rewrite Hlen in Hi, Hj.
    rewrite equalValues_lookup in Ha by done. rewrite equalValues_lookup in Hb by done.
    injection Ha as <-. injection Hb as <-. simpl.
    apply round64_mono. apply Qplus_le_r. apply round64_mono.
    apply Qmult_le_compat_r; [|done]. apply round64_mono. rewrite <- Zle_Qle. lia.
  - apply Forall_lookup. intros k a Ha.
    pose proof (lookup_lt_Some _ _ _ Ha) as Hk. rewrite Hlen in Hk.
    rewrite equalValues_lookup in Ha by done. injection Ha as <-. simpl.
    rewrite <- Hfloat at 1. apply round64_mono. specialize (Hvalue k). lra.
  - eexists. split; [apply equalValues_lookup; lia|].
    change (Z.of_nat (0 + 0)) with 0%Z.
    assert (Hzero : (round64 (inject_Z 0) == 0)%Q) by (vm_compute; reflexivity).
    assert (Hprod : (round64 (round64 (inject_Z 0) * size) == 0)%Q).
    { rewrite (round64_zero (round64 (inject_Z 0) * size)); [reflexivity|].
      rewrite Hzero. ring. }
    rewrite <- Hfloat at 2. apply round64_comp. rewrite Hprod. ring.
Qed.

(** ** Logarithmic boundaries: order and small arguments *)

Lemma Qpow2_neg_le_half (k : Z) : (k < 0)%Z -> (Qpow2 k <= 1 # 2)%Q.
Proof.
  destruct k as [| |p]; [lia|lia|]. intros _. unfold Qpow2, Qle. cbn [Qnum Qden].
  rewrite Pos2Z.inj_pow.
  assert (Hp : (2 ^ 1 <= 2 ^ Z.pos p)%Z) by (apply Z.pow_le_mono_r; lia).
  lia.
Qed.

Lemma logStarts_lookup (n i : nat) (a : Q) :
  logStarts 0 0%Q n !! i = Some a ->
  i < n /\ ((i = 0 /\ a = 0%Q) \/ (0 < i /\ a = inject_Z (2 ^ Z.of_nat i))).
Proof.
  intros Ha. pose proof (lookup_lt_Some _ _ _ Ha) as Hi. rewrite length_logStarts in Hi.
  split; [done|]. destruct i as [|i].
  - rewrite logStarts_head in Ha by done. left. split; congruence.
  - rewrite logStarts_tail in Ha by done. right. split; [lia|]. simpl in Ha. congruence.
Qed.

(** X3: for [upper > 1] the boundaries of [LogarithmicSizedBucketsFor]
    are at least one, strictly ascending, non-negative and below
    [upper]. *)
Theorem LogarithmicSizedBucketsFor_ascending (lower upper : Q) :
  (1 < upper)%Q ->
  exists starts,
    LogarithmicSizedBucketsFor lower upper = Ok starts /\
    starts <> [] /\
    StronglySorted Qlt starts /\
    Forall (fun s => (0 <= s)%Q /\ (s < upper)%Q) starts.
Proof.
  intros Hup.
  assert (Hpos : (0 < upper)%Q) by lra.
  pose proof (ceilLog2_positive upper Hup) as Hk.
  destruct (ceilLog2_spec upper Hpos) as [Hle Hleast].
  exists (logStarts 0 0%Q (Z.to_nat (ceilLog2 upper))). repeat split.
  - unfold LogarithmicSizedBucketsFor.
    destruct (Qle_bool upper 0) eqn:E.
    { apply Qle_bool_iff in E. lra. }
    destruct (Z.ltb_spec (ceilLog2 upper) 0); [lia|done].
  - intros Hnil. apply (f_equal length) in Hnil. rewrite length_logStarts in Hnil.
    simpl in Hnil. lia.
  - apply StronglySorted_lookup. intros i j a b Hij Ha Hb.
    apply logStarts_lookup in Ha as [_ Ha]. apply logStarts_lookup in Hb as [_ Hb].
    destruct Hb as [[-> _]|[_ ->]]; [lia|].
    destruct Ha as [[_ ->]|[_ ->]].
    + replace 0%Q with (inject_Z 0) by done. rewrite <- Zlt_Qlt.
      apply Z.pow_pos_nonneg; lia.
    + rewrite <- Zlt_Qlt. apply Z.pow_lt_mono_r; lia.
  - apply Forall_lookup. intros i a Ha. apply logStarts_lookup in Ha as [Hi Ha].
    destruct Ha as [[_ ->]|[Hi0 ->]]; [lra|]. split.
    + replace 0%Q with (inject_Z 0) by done. rewrite <- Zle_Qle.
      apply Z.pow_nonneg. lia.
    + assert (Hbelow : ~ (upper <= Qpow2 (ceilLog2 upper - 1))%Q) by (apply Hleast; lia).
      rewrite Qpow2_nonneg in Hbelow by lia.
      assert (Hpow : (inject_Z (2 ^ Z.of_nat i) <= inject_Z (2 ^ (ceilLog2 upper - 1)))%Q).
      { rewrite <- Zle_Qle. apply Z.pow_le_mono_r; lia. }
      apply Qnot_le_lt in Hbelow. lra.
Qed.

(** X4: for [1/2 < upper <= 1] the logarithm rounds up to zero and
    [LogarithmicSizedBucketsFor] returns no boundary at all; for
    [0 < upper <= 1/2] the bucket count is negative and [make] panics. *)
Theorem LogarithmicSizedBucketsFor_small_upper (lower upper : Q) :
  ((1 # 2 < upper)%Q -> (upper <= 1)%Q ->
   LogarithmicSizedBucketsFor lower upper = Ok []) /\
  ((0 < upper)%Q -> (upper <= 1 # 2)%Q ->
   LogarithmicSizedBucketsFor lower upper = Panic NegativeLength).
Proof.
  split.
  - intros Hlo Hhi.
    assert (Hpos : (0 < upper)%Q) by lra.
    destruct (ceilLog2_spec upper Hpos) as [Hle Hleast].
    assert (Hk : ceilLog2 upper = 0%Z).
    { destruct (Z.lt_trichotomy (ceilLog2 upper) 0) as [Hlt|[Heq|Hgt]]; [|done|].
      - pose proof (Qpow2_neg_le_half _ Hlt). lra.
      - exfalso. by apply (Hleast 0%Z). }
    unfold LogarithmicSizedBucketsFor.
    destruct (Qle_bool upper 0) eqn:E.
    { apply Qle_bool_iff in E. lra. }
    by rewrite Hk.
  - intros Hpos Hhi.
    destruct (ceilLog2_spec upper Hpos) as [Hle Hleast].
    assert (Hk : (ceilLog2 upper < 0)%Z).
    { destruct (Z_lt_le_dec (ceilLog2 upper) 0) as [|Hge]; [done|].
      exfalso. apply (Hleast (-1)%Z); [lia|]. done. }
    unfold LogarithmicSizedBucketsFor.
    destruct (Qle_bool upper 0) eqn:E; [done|].
    by destruct (Z.ltb_spec (ceilLog2 upper) 0); [|lia].
Qed.

(** ** Routing with any boundaries *)

Lemma leading_first_greater (starts : list Q) (value b : Q) (k : nat) :
  starts !! k = Some b -> (value < b)%Q ->
  (forall i a, i < k -> starts !! i = Some a -> (a <= value)%Q) ->
  leading starts value = k.
Proof.
  revert k. induction starts as [|c rest IH]; intros k Hk Hlt Hbefore; [done|].
  simpl. destruct k as [|k]; simpl in Hk.
  - injection Hk as ->. apply Qlt_bool_true in Hlt. by rewrite Hlt.
  - assert (Hc : (c <= value)%Q) by (apply (Hbefore 0 c); [lia|done]).
    apply Qlt_bool_false in Hc. rewrite Hc. f_equal. apply IH; [done|done|].
    intros i a Hi Ha. apply (Hbefore (S i) a); [lia|done].
Qed.

Lemma leading_all (starts : list Q) (value : Q) :
  Forall (fun a => (a <= value)%Q) starts -> leading starts value = length starts.
Proof.
  induction 1 as [|c rest Hc Hrest IH]; simpl; [done|].
  apply Qlt_bool_false in Hc. by rewrite Hc, IH.
Qed.

(** The boundaries [leading] passes are at most the value and the one it
    stops at is greater. *)
Lemma leading_spec (starts : list Q) (value : Q) :
  (forall i a, i < leading starts value -> starts !! i = Some a -> (a <= value)%Q) /\
  (forall b, starts !! leading starts value = Some b -> (value < b)%Q).
Proof.
  induction starts as [|c rest [IHle IHlt]]; simpl.
  - split; [lia|done].
  - destruct (Qlt_bool value c) eqn:E.
    + split; [lia|]. intros b [= <-]. by apply Qlt_bool_true.
    + apply Qlt_bool_false in E. split.
      * intros [|i] a Hi Ha; simpl in Ha; [by injection Ha as <-|].
        apply (IHle i); [lia|done].
      * intros b Hb. by apply IHlt.
Qed.

(** X5: whatever the order of the boundaries, the routing loop of [Add]
    stops at the first boundary that is greater than the value and picks
    the bucket just before it, or bucket 0 when that boundary is the first
    one; when no boundary is greater it picks the last bucket. *)
Theorem lastIndexFor_first_greater (starts : list Q) (value : Q) :
  (forall k b, starts !! k = Some b -> (value < b)%Q ->
     (forall i a, i < k -> starts !! i = Some a -> (a <= value)%Q) ->
     lastIndexFor starts value = Nat.pred k) /\
  (Forall (fun a => (a <= value)%Q) starts ->
   lastIndexFor starts value = Nat.pred (length starts)).
Proof.
  split.
  - intros k b Hk Hlt Hbefore.
    by rewrite lastIndexFor_leading, (leading_first_greater starts value b k).
  - intros Hall. by rewrite lastIndexFor_leading, leading_all.
Qed.

(** X6: the bucket index [Add] computes is a valid index whenever there
    is at least one boundary, and it never decreases when the value
    grows, sorted boundaries or not. *)
Theorem lastIndexFor_in_range_and_monotone (starts : list Q) (v w : Q) :
  (starts <> [] -> lastIndexFor starts v < length starts) /\
  ((v <= w)%Q -> lastIndexFor starts v <= lastIndexFor starts w) /\
  ((v == w)%Q -> lastIndexFor starts v = lastIndexFor starts w).
Proof.
  split; [apply lastIndexFor_lt|]. split; [apply lastIndexFor_mono|].
  intros Hvw. apply Nat.le_antisymm; apply lastIndexFor_mono; rewrite Hvw; apply Qle_refl.
Qed.

(** In boundaries sorted in the wide sense, the value routed to bucket
    [i] is below the next boundary, and at or above boundary [i] unless
    it is below them all. *)
Lemma lastIndexFor_interval (starts : list Q) (value : Q) (i : nat) :
  StronglySorted Qle starts ->
  lastIndexFor starts value = i ->
  (forall hi, starts !! S i = Some hi -> (value < hi)%Q) /\
  (forall lo, starts !! i = Some lo -> (lo <= value)%Q \/
     (i = 0 /\ (value < lo)%Q)).
Proof.
  intros Hsorted Hi. rewrite lastIndexFor_leading in Hi.
  destruct (leading_spec starts value) as [Hle Hlt].
  destruct (leading starts value) as [|k] eqn:E; simpl in Hi; subst i.
  - split.
    + intros hi Hhi. destruct starts as [|b rest]; [done|].
      specialize (Hlt b eq_refl).
      apply StronglySorted_inv in Hsorted as [_ Hall].
      rewrite Forall_forall in Hall. simpl in Hhi.
      assert (Hb : (b <= hi)%Q) by (apply Hall; by eapply list_elem_of_lookup_2).
      lra.
    + intros lo Hlo. right. split; [done|]. by apply Hlt.
  - split; [done|]. intros lo Hlo. left. apply (Hle k); [lia|done].
Qed.

(** ** What Add keeps and what it changes *)

Section EngineMore.

Context {B : Type} `{Bucket.Ops B}.
Variable LabelsToSignature : gmap string string -> string.

Lemma Add_reportablePercentiles (h : histogram B) labelSet value :
  reportablePercentiles (fst (Add LabelsToSignature h labelSet value)) =
  reportablePercentiles h.
Proof. rewrite Add_unfold. simpl. by destruct (_ !! _). Qed.

Lemma reachable_reportablePercentiles (spec : HistogramSpecification B) (h : histogram B) :
  reachable LabelsToSignature spec h ->
  reportablePercentiles h = ReportablePercentiles spec.
Proof.
  induction 1 as [|h labelSet value Hreach IH|h Hreach IH]; [done| |].
  - by rewrite Add_reportablePercentiles.
  - by rewrite ResetAll_reportablePercentiles.
Qed.

(** X7: every state an engine goes through by [Add] and [ResetAll] keeps
    the boundaries, the bucket factory and the percentiles of its
    specification, and holds exactly one bucket per boundary in each
    series; with at least one boundary no call of [Add] panics. *)
Theorem reachable_keeps_shape (spec : HistogramSpecification B) (h : histogram B) :
  reachable LabelsToSignature spec h ->
  bucketStarts h = Starts spec /\
  bucketMaker h = BucketBuilder spec /\
  reportablePercentiles h = ReportablePercentiles spec /\
  (forall signature s, values h !! signature = Some s ->
     length (buckets s) = length (Starts spec)) /\
  (Starts spec <> [] -> forall labelSet value,
     snd (Add LabelsToSignature h labelSet value) = Returns).
Proof.
  intros Hreach.
  pose proof (reachable_bucketStarts LabelsToSignature spec h Hreach) as Hstarts.
  pose proof (reachable_wellFormed LabelsToSignature spec h Hreach) as Hwf.
  split; [done|]. split; [by eapply reachable_bucketMaker|].
  split; [by apply reachable_reportablePercentiles|]. split.
  - intros signature s Hs. rewrite <- Hstarts. exact (Hwf signature s Hs).
  - intros Hne labelSet value.
    destruct (Add_returns LabelsToSignature h labelSet value Hwf) as (b & _ & ->);
      [by rewrite Hstarts|done].
Qed.

(** X8: a call of [Add] leaves every other series as it was; in the
    series of its signature it keeps the labels and the number of
    buckets and changes at most the bucket it routes to; a series it
    creates carries the labels of the call (the empty set for [nil]) and
    buckets from the factory. *)
Theorem Add_touches_one_bucket (h : histogram B) (labelSet : option (gmap string string))
    (value : Q) :
  let signature := LabelsToSignature (default ∅ labelSet) in
  let k := lastIndexFor (bucketStarts h) value in
  let h' := fst (Add LabelsToSignature h labelSet value) in
  (forall other, other <> signature -> values h' !! other = values h !! other) /\
  (forall s, values h !! signature = Some s ->
     exists s', values h' !! signature = Some s' /\
       labels s' = labels s /\
       length (buckets s') = length (buckets s) /\
       forall i, i <> k -> buckets s' !! i = buckets s !! i) /\
  (values h !! signature = None ->
     exists s', values h' !! signature = Some s' /\
       labels s' = default ∅ labelSet /\
       length (buckets s') = length (bucketStarts h) /\
       forall i, i <> k -> i < length (bucketStarts h) ->
         buckets s' !! i = Some (bucketMaker h)).
Proof.
  intros signature k h'. subst h'. rewrite Add_unfold. unfold seriesFor.
  fold signature. fold k.
  destruct (values h !! signature) as [s|] eqn:Hs; cbn [default from_option id].
  - destruct (buckets s !! k) as [b|] eqn:Hb; cbn [fst values withValues].
    + split; [intros other Hother; by rewrite lookup_insert_ne|]. split; [|done].
      intros s0 [= <-]. eexists. split; [apply lookup_insert_eq|]. simpl.
      split; [done|]. split; [by rewrite length_insert|].
      intros i Hi. by rewrite list_lookup_insert_ne.
    + split; [intros other Hother; by rewrite lookup_insert_ne|]. split; [|done].
      intros s0 [= <-]. eexists. split; [apply lookup_insert_eq|]. done.
  - destruct (buckets _ !! k) as [b|] eqn:Hb; cbn [fst values withValues].
    + split; [intros other Hother; by rewrite lookup_insert_ne|]. split; [done|].
      intros _. eexists. split; [apply lookup_insert_eq|]. simpl.
      split; [done|]. split; [by rewrite length_insert, length_replicate|].
      intros i Hi Hlt. rewrite list_lookup_insert_ne by done.
      by apply lookup_replicate_2.
    + split; [intros other Hother; by rewrite lookup_insert_ne|]. split; [done|].
      intros _. eexists. split; [apply lookup_insert_eq|]. simpl.
      split; [done|]. split; [by rewrite length_replicate|].
      intros i Hi Hlt. by apply lookup_replicate_2.
Qed.

(** ** Queries outside the expected range *)

(** X9: a percentile query for a signature that has no series
    dereferences the missing map entry: [bucketForPercentile] and
    [percentile] panic. *)
Theorem percentile_of_missing_series (h : histogram B) (signature : string) (p : Q) :
  values h !! signature = None ->
  bucketForPercentile h signature p = Panic NilDereference /\
  percentile h signature p = Panic NilDereference.
Proof.
  intros Hnone.
  assert (Hsel : bucketForPercentile h signature p = Panic NilDereference).
  { unfold bucketForPercentile, bucketSearch. by rewrite Hnone. }
  split; [done|]. unfold percentile. by rewrite Hsel.
Qed.

Lemma sumZ_zero_all (l : list Z) :
  Forall (Z.le 0) l -> sumZ l = 0%Z -> Forall (eq 0%Z) l.
Proof.
  induction 1 as [|o rest Ho Hrest IH]; intros Hsum; [constructor|].
  pose proof (sumZ_nonneg rest Hrest) as Hnn.
  unfold sumZ in Hsum, Hnn. simpl in Hsum. fold (sumZ rest) in Hsum, Hnn.
  constructor; [lia|]. apply IH. lia.
Qed.

Lemma nextNonEmptyFrom_none (h : histogram B) (signature : string) (obs : list Z)
    (remaining i : nat) :
  remaining = length obs - i ->
  Forall (eq 0%Z) (drop i obs) ->
  nextNonEmptyFrom h signature remaining i obs = Panic IllegalCondition.
Proof.
  revert i. induction remaining as [|remaining IH]; intros i Hrem Hzero; [done|].
  assert (Hi : i < length obs) by lia.
  destruct (lookup_lt_is_Some_2 obs i Hi) as [o Ho].
  rewrite (drop_S _ _ _ Ho) in Hzero. apply Forall_cons in Hzero as [<- Hzero].
  cbn [nextNonEmptyFrom]. rewrite (index_Ok _ _ _ Ho), bind_Ok. cbn [Z.eqb].
  apply IH; [lia|done].
Qed.

Lemma nextNonEmptyFrom_first (h : histogram B) (signature : string) (s : histogramValue B)
    (obs : list Z) (remaining i j : nat) (o : Z) :
  values h !! signature = Some s ->
  length (buckets s) = length obs ->
  remaining = length obs - i ->
  obs !! j = Some o -> o <> 0%Z -> i <= j ->
  (forall k, i <= k < j -> obs !! k = Some 0%Z) ->
  nextNonEmptyFrom h signature remaining i obs = Ok (j, 0%Z).
Proof.
  intros Hs Hlen Hrem Hj Ho. revert i Hrem.
  induction remaining as [|remaining IH]; intros i Hrem Hij Hzero.
  - pose proof (lookup_lt_Some _ _ _ Hj). lia.
  - cbn [nextNonEmptyFrom]. destruct (decide (i = j)) as [->|Hne].
    + rewrite (index_Ok _ _ _ Hj), bind_Ok.
      destruct (Z.eqb_spec o 0) as [|_]; [done|].
      rewrite Hs. cbn [deref]. rewrite bind_Ok.
      assert (Hb : j < length (buckets s))
        by (rewrite Hlen; by eapply lookup_lt_Some).
      destruct (lookup_lt_is_Some_2 _ _ Hb) as [b Hbj].
      by rewrite (index_Ok _ _ _ Hbj), bind_Ok.
    + rewrite (index_Ok _ _ 0%Z), bind_Ok by (apply Hzero; lia). cbn [Z.eqb].
      apply IH; [lia|lia|]. intros k Hk. apply Hzero. lia.
Qed.

Lemma nextNonEmptyFrom_panics (h : histogram B) (signature : string)
    (s : histogramValue B) (obs : list Z) (remaining i : nat) :
  values h !! signature = Some s ->
  length (buckets s) = length obs ->
  remaining = length obs - i ->
  nextNonEmptyFrom h signature remaining i obs = Panic IllegalCondition ->
  Forall (eq 0%Z) (drop i obs).
Proof.
  intros Hs Hlen. revert i.
  induction remaining as [|remaining IH]; intros i Hrem Hpanic.
  - rewrite drop_ge by lia. constructor.
  - assert (Hi : i < length obs) by lia.
    destruct (lookup_lt_is_Some_2 obs i Hi) as [o Ho].
    cbn [nextNonEmptyFrom] in Hpanic. rewrite (index_Ok _ _ _ Ho), bind_Ok in Hpanic.
    rewrite (drop_S _ _ _ Ho).
    destruct (decide (o = 0%Z)) as [Hz|Hne].
    + rewrite Hz in Hpanic |- *. cbn [Z.eqb] in Hpanic.
      constructor; [done|]. apply IH; [lia|done].
    + exfalso. apply Z.eqb_neq in Hne. rewrite Hne, Hs in Hpanic. cbn [deref] in Hpanic. rewrite bind_Ok in Hpanic.
      assert (Hb : i < length (buckets s)) by lia.
      destruct (lookup_lt_is_Some_2 _ _ Hb) as [b Hbi].
      by rewrite (index_Ok _ _ _ Hbi), bind_Ok in Hpanic.
Qed.

(** X10: [nextNonEmptyBucketElement] returns the first bucket at or after
    [currentIndex] whose count is not zero, at sub-index 0, and reaches
    its panic exactly when every remaining count is zero. *)
Theorem nextNonEmptyBucketElement_scan (h : histogram B) (signature : string)
    (s : histogramValue B) (obs : list Z) (currentIndex : nat) :
  values h !! signature = Some s ->
  length (buckets s) = length obs ->
  (forall j o, obs !! j = Some o -> o <> 0%Z -> currentIndex <= j ->
     (forall k, currentIndex <= k < j -> obs !! k = Some 0%Z) ->
     nextNonEmptyBucketElement h signature currentIndex (length obs) obs = Ok (j, 0%Z)) /\
  (Forall (eq 0%Z) (drop currentIndex obs) <->
   nextNonEmptyBucketElement h signature currentIndex (length obs) obs =
     Panic IllegalCondition).
Proof.
  intros Hs Hlen. unfold nextNonEmptyBucketElement.
  assert (Hfirst : forall j o, obs !! j = Some o -> o <> 0%Z -> currentIndex <= j ->
            (forall k, currentIndex <= k < j -> obs !! k = Some 0%Z) ->
            nextNonEmptyFrom h signature (length obs - currentIndex) currentIndex obs =
              Ok (j, 0%Z)).
  { intros j o Hj Ho Hle Hzero. by eapply nextNonEmptyFrom_first. }
  split; [done|]. split; [by apply nextNonEmptyFrom_none|].
  by eapply nextNonEmptyFrom_panics.
Qed.

Lemma fallthrough_selection (h : histogram B) (signature : string) (s : histogramValue B)
    (p : Q) (b0 : B) :
  values h !! signature = Some s ->
  buckets s !! 0 = Some b0 ->
  bucketSearch h signature p = Ok None ->
  bucketForPercentile h signature p = Ok (0, 0%Z) /\
  percentile h signature p = Ok (Bucket.ValueForIndex b0 0).
Proof.
  intros Hs Hb0 Hrun.
  assert (Hsel : bucketForPercentile h signature p = Ok (0, 0%Z)).
  { unfold bucketForPercentile. rewrite Hrun, bind_Ok, Hs. cbn [deref].
    by rewrite bind_Ok, (index_Ok _ _ _ Hb0). }
  split; [done|]. unfold percentile. rewrite Hsel, bind_Ok. cbn beta iota.
  rewrite Hs. cbn [deref]. by rewrite bind_Ok, (index_Ok _ _ _ Hb0).
Qed.

Lemma selected_value (h : histogram B) (signature : string) (s : histogramValue B)
    (p : Q) (j : nat) (sub : Z) (b : B) :
  values h !! signature = Some s ->
  buckets s !! j = Some b ->
  bucketSearch h signature p = Ok (Some (j, sub)) ->
  bucketForPercentile h signature p = Ok (j, sub) /\
  percentile h signature p = Ok (Bucket.ValueForIndex b sub).
Proof.
  intros Hs Hj Hrun.
  assert (Hsel : bucketForPercentile h signature p = Ok (j, sub)).
  { unfold bucketForPercentile. by rewrite Hrun. }
  split; [done|]. unfold percentile. rewrite Hsel, bind_Ok. cbn beta iota.
  rewrite Hs. cbn [deref]. by rewrite bind_Ok, (index_Ok _ _ _ Hj).
Qed.

Lemma search_beyond (h : histogram B) (signature : string) (s : histogramValue B)
    (bucketCount : nat) (obs cum : list Z) (idx : Z) (i : nat) (rest : list Z) :
  Forall (fun c => (c < idx)%Z) rest ->
  search h signature s bucketCount obs cum idx i rest = Ok None.
Proof.
  intros Hall. revert i. induction Hall as [|c rest Hc Hall IH]; intros i; [done|].
  cbn [search]. destruct (c =? 0)%Z; [apply IH|].
  destruct (Z.geb_spec c idx); [lia|apply IH].
Qed.

Lemma cumulate_le_total (obs : list Z) :
  Forall (Z.le 0) obs -> Forall (fun c => (c <= sumZ obs)%Z) (cumulate 0 obs).
Proof.
  intros Hnn. apply Forall_lookup. intros i c Hc.
  pose proof (lookup_lt_Some _ _ _ Hc) as Hi. rewrite length_cumulate in Hi.
  rewrite cumulate_lookup in Hc by done. injection Hc as <-.
  assert (Hm : (sumZ (take (S i) obs) <= sumZ (take (length obs) obs))%Z)
    by (apply sumZ_take_mono; [done|lia]).
  rewrite (take_ge obs (length obs)) in Hm by lia. lia.
Qed.

(** X11: when the prospective index computed by the code exceeds the
    total, as it does for the percentile 2 of ten observations, no
    running sum reaches it: the search runs to its end and the query
    answers bucket 0 at index 0, although the series has observations. *)
Theorem bucketForPercentile_rank_beyond_total (h : histogram B) (signature : string)
    (s : histogramValue B) (p : Q) (b0 : B) :
  values h !! signature = Some s ->
  length (buckets s) = length (bucketStarts h) ->
  Forall (fun b => (0 <= Bucket.Observations b)%Z) (buckets s) ->
  (totalObservations s < prospectiveIndexForPercentile p (totalObservations s))%Z ->
  buckets s !! 0 = Some b0 ->
  bucketSearch h signature p = Ok None /\
  bucketForPercentile h signature p = Ok (0, 0%Z) /\
  percentile h signature p = Ok (Bucket.ValueForIndex b0 0).
Proof.
  intros Hs Hlen Hnn Hidx Hb0.
  pose proof (prospectiveIndex_int p (totalObservations s)) as Hint.
  assert (Hrun : bucketSearch h signature p = Ok None).
  { rewrite (bucketSearch_series h signature s p Hs Hlen Hnn) by lia.
    apply search_beyond.
    eapply Forall_impl; [apply cumulate_le_total; by apply observations_nonneg|].
    intros c Hc. simpl in Hc. unfold totalObservations in *. lia. }
  split; [done|]. by apply (fallthrough_selection h signature s p b0).
Qed.

Lemma search_overflow (h : histogram B) (signature : string) (s : histogramValue B)
    (idx : Z) (rest before : list Z) :
  Forall (Z.le 0) (before ++ rest) ->
  (sumZ before = 0 \/ sumZ before < idx)%Z ->
  (0 < idx)%Z -> (idx < 2 ^ 63)%Z -> idx = sumZ (before ++ rest) ->
  search h signature s (length (before ++ rest)) (before ++ rest)
    (cumulate 0 (before ++ rest)) idx (length before)
    (cumulate (sumZ before) rest) = Panic IllegalCondition.
Proof.
  revert before.
  induction rest as [|o rest IH]; intros before Hnn Hacc Hpos Hint Hidx.
  - rewrite app_nil_r in Hidx. lia.
  - assert (Hstep : before ++ o :: rest = (before ++ [o]) ++ rest)
      by (by rewrite <- app_assoc).
    assert (Hsum : sumZ (before ++ [o]) = (sumZ before + o)%Z)
      by (rewrite sumZ_app; unfold sumZ; simpl; lia).
    assert (Hnext : search h signature s (length (before ++ o :: rest))
              (before ++ o :: rest) (cumulate 0 (before ++ o :: rest)) idx
              (S (length before)) (cumulate (sumZ before + o) rest) =
            search h signature s (length ((before ++ [o]) ++ rest))
              ((before ++ [o]) ++ rest) (cumulate 0 ((before ++ [o]) ++ rest)) idx
              (length (before ++ [o])) (cumulate (sumZ (before ++ [o])) rest)).
    { rewrite <- Hstep, Hsum.
      by replace (length (before ++ [o])) with (S (length before))
        by (rewrite length_app; simpl; lia). }
    assert (Hrec : ((sumZ before + o)%Z = 0%Z \/ (sumZ before + o < idx)%Z) ->
              search h signature s (length (before ++ o :: rest))
                (before ++ o :: rest) (cumulate 0 (before ++ o :: rest)) idx
                (S (length before)) (cumulate (sumZ before + o) rest) =
              Panic IllegalCondition).
    { intros Hacc'. rewrite Hnext.
      apply IH; rewrite <- ?Hstep, ?Hsum; done. }
    assert (Hrest : (0 <= sumZ rest)%Z).
    { apply sumZ_nonneg. apply Forall_app in Hnn as [_ Hnn].
      by apply Forall_cons in Hnn as [_ Hnn]. }
    assert (Htotal : sumZ (before ++ o :: rest) = (sumZ before + o + sumZ rest)%Z).
    { rewrite sumZ_app. unfold sumZ. simpl. lia. }
    cbn [cumulate search].
    destruct (Z.eqb_spec (sumZ before + o) 0) as [Hz|Hnz].
    { apply Hrec; lia. }
    destruct (Z.geb_spec (sumZ before + o) idx) as [Hge|Hlt]; [|apply Hrec; lia].
    rewrite previous_spec by (rewrite length_app; lia).
    rewrite bind_Ok, take_app_length.
    assert (Hlook : (before ++ o :: rest) !! length before = Some o)
      by (by apply list_lookup_middle).
    rewrite (index_Ok _ _ _ Hlook), bind_Ok.
    assert (Hbefore : (0 <= sumZ before)%Z).
    { apply sumZ_nonneg. by apply Forall_app in Hnn as [Hnn _]. }
    rewrite (wrap64_id (idx - sumZ before)) by lia.
    destruct (Z.eqb_spec o (idx - sumZ before)) as [Heq|Hneq]; [|lia].
    unfold nextNonEmptyBucketElement.
    rewrite nextNonEmptyFrom_none; [done|done|].
    rewrite Hstep.
    replace (S (length before)) with (length (before ++ [o]))
      by (rewrite length_app; simpl; lia).
    rewrite drop_app_length. apply sumZ_zero_all; [|lia].
    apply Forall_app in Hnn as [_ Hnn]. by apply Forall_cons in Hnn as [_ Hnn].
Qed.

(** X12: when the prospective index computed by the code equals the
    total, as it does for the percentile 9/8 of ten observations, the
    search stops at the last non-empty bucket with a sub-index equal to
    its count, finds no later non-empty bucket and the query panics. *)
Theorem bucketForPercentile_rank_at_total (h : histogram B) (signature : string)
    (s : histogramValue B) (p : Q) :
  values h !! signature = Some s ->
  length (buckets s) = length (bucketStarts h) ->
  Forall (fun b => (0 <= Bucket.Observations b)%Z) (buckets s) ->
  (0 < totalObservations s)%Z ->
  prospectiveIndexForPercentile p (totalObservations s) = totalObservations s ->
  bucketForPercentile h signature p = Panic IllegalCondition /\
  percentile h signature p = Panic IllegalCondition.
Proof.
  intros Hs Hlen Hnn Hpos Hidx.
  pose proof (prospectiveIndex_int p (totalObservations s)) as Hint.
  assert (Hrun : bucketSearch h signature p = Panic IllegalCondition).
  { rewrite (bucketSearch_series h signature s p Hs Hlen Hnn) by lia. rewrite Hidx.
    pose proof (search_overflow h signature s (totalObservations s)
                  (Bucket.Observations <$> buckets s) []) as Hov.
    simpl in Hov. rewrite length_fmap, Hlen in Hov.
    apply Hov; [by apply observations_nonneg|by left|done|lia|done]. }
  assert (Hsel : bucketForPercentile h signature p = Panic IllegalCondition).
  { unfold bucketForPercentile. by rewrite Hrun. }
  split; [done|]. unfold percentile. by rewrite Hsel.
Qed.

(** ** The ends of the percentile range *)

(** X13: for a percentile in [0, 1] and a positive total of at most
    [2^53], the prospective index the code computes in floating point is
    a rank between 0 and [total - 1]; it does not decrease when the
    percentile grows, and it is 0 for the percentile 0 and [total - 1]
    for the percentile 1. *)
Theorem prospectiveIndexForPercentile_range (p1 p2 : Q) (total : Z) :
  (0 <= p1)%Q -> (p1 <= p2)%Q -> (p2 <= 1)%Q -> (0 < total)%Z -> (total <= 2 ^ 53)%Z ->
  (0 <= prospectiveIndexForPercentile p1 total)%Z /\
  (prospectiveIndexForPercentile p1 total <= prospectiveIndexForPercentile p2 total)%Z /\
  (prospectiveIndexForPercentile p2 total <= total - 1)%Z /\
  prospectiveIndexForPercentile 0 total = 0%Z /\
  prospectiveIndexForPercentile 1 total = (total - 1)%Z.
Proof.
  intros Hp1 Hp12 Hp2 Hn Hbound.
  assert (Hp1' : (p1 <= 1)%Q) by lra. assert (Hp2' : (0 <= p2)%Q) by lra.
  assert (Hn' : (total - 1 <= 2 ^ 53)%Z) by lia.
  pose proof (prospectiveIndex_bounds p1 total Hp1 Hp1' Hn Hn').
  pose proof (prospectiveIndex_bounds p2 total Hp2' Hp2 Hn Hn').
  pose proof (prospectiveIndex_mono p1 p2 total Hp1 Hp12 Hp2 Hn Hn').
  split; [lia|]. split; [lia|]. split; [lia|].
  split; [apply prospectiveIndex_zero|by apply prospectiveIndex_one].
Qed.

(** X14: in a series with at least one and at most [2^53] observations
    the percentile 0 selects index 0 of the first non-empty bucket and
    the percentile 1 selects the last index of the last non-empty
    bucket. *)
Theorem percentile_extremes (h : histogram B) (signature : string) (s : histogramValue B) :
  values h !! signature = Some s ->
  length (buckets s) = length (bucketStarts h) ->
  Forall (fun b => (0 <= Bucket.Observations b)%Z) (buckets s) ->
  (0 < totalObservations s)%Z -> (totalObservations s <= 2 ^ 53)%Z ->
  (exists j b,
     buckets s !! j = Some b /\ (0 < Bucket.Observations b)%Z /\
     bucketForPercentile h signature 0 = Ok (j, 0%Z) /\
     percentile h signature 0 = Ok (Bucket.ValueForIndex b 0) /\
     forall i b', i < j -> buckets s !! i = Some b' -> Bucket.Observations b' = 0%Z) /\
  (exists j b,
     buckets s !! j = Some b /\ (0 < Bucket.Observations b)%Z /\
     bucketForPercentile h signature 1 = Ok (j, (Bucket.Observations b - 1)%Z) /\
     percentile h signature 1 = Ok (Bucket.ValueForIndex b (Bucket.Observations b - 1)) /\
     forall i b', j < i -> buckets s !! i = Some b' -> Bucket.Observations b' = 0%Z).
Proof.
  intros Hs Hlen Hnn Hpos Hbound.
  pose proof (observations_nonneg _ Hnn) as Hobs.
  set (obs := Bucket.Observations <$> buckets s) in *.
  split.
  - destruct (bucketSearch_found h signature s 0 Hs Hlen Hnn Hpos Hbound) as
      (j & sub & b & Hrun & Hj & Hsub & Hrank); [done|done|].
    fold obs in Hrank. rewrite prospectiveIndex_zero in Hrank.
    assert (Htake : (0 <= sumZ (take j obs))%Z) by (by apply sumZ_nonneg, Forall_take).
    assert (sub = 0%Z) as -> by lia.
    destruct (selected_value h signature s 0 j 0%Z b Hs Hj Hrun) as [Hsel Hval].
    exists j, b. repeat split; [done|lia|done|done|].
    intros i b' Hi Hb'.
    assert (Hzero : Forall (eq 0%Z) (take j obs))
      by (apply sumZ_zero_all; [by apply Forall_take|lia]).
    rewrite Forall_lookup in Hzero. symmetry. apply (Hzero i).
    rewrite lookup_take_lt by done. unfold obs. by rewrite list_lookup_fmap, Hb'.
  - destruct (bucketSearch_found h signature s 1 Hs Hlen Hnn Hpos Hbound) as
      (j & sub & b & Hrun & Hj & Hsub & Hrank); [done|apply Qle_refl|].
    fold obs in Hrank. rewrite prospectiveIndex_one in Hrank by lia.
    assert (Hoj : obs !! j = Some (Bucket.Observations b))
      by (unfold obs; by rewrite list_lookup_fmap, Hj).
    assert (Hsplit : sumZ obs =
              (sumZ (take j obs) + Bucket.Observations b + sumZ (drop (S j) obs))%Z).
    { rewrite <- (take_drop_middle obs j _ Hoj) at 1.
      rewrite sumZ_app. unfold sumZ. simpl. lia. }
    assert (Hdrop : (0 <= sumZ (drop (S j) obs))%Z) by (by apply sumZ_nonneg, Forall_drop).
    unfold totalObservations in Hrank, Hpos. fold obs in Hrank, Hpos.
    assert (sub = (Bucket.Observations b - 1)%Z) as -> by lia.
    destruct (selected_value h signature s 1 j _ b Hs Hj Hrun) as [Hsel Hval].
    exists j, b. repeat split; [done|lia|done|done|].
    intros i b' Hi Hb'.
    assert (Hzero : Forall (eq 0%Z) (drop (S j) obs))
      by (apply sumZ_zero_all; [by apply Forall_drop|lia]).
    rewrite Forall_lookup in Hzero. symmetry. apply (Hzero (i - S j)).
    rewrite lookup_drop. replace (S j + (i - S j)) with i by lia.
    unfold obs. by rewrite list_lookup_fmap, Hb'.
Qed.

(** ** What the estimate is *)

(** X15: with boundaries sorted ascending (repeats allowed), buckets
    that report only what they ingested and a series of at most [2^53]
    observations, the estimate of a percentile in [0, 1] lies in the
    interval of the bucket it was selected from: below the next boundary,
    and at or above the bucket's own boundary unless the bucket is the
    first one. *)
Theorem percentile_within_selected_interval (spec : HistogramSpecification B)
    (h : histogram B) (signature : string) (s : histogramValue B) (p : Q) :
  retainsIngested (B := B) ->
  Bucket.Observations (BucketBuilder spec) = 0%Z ->
  StronglySorted Qle (Starts spec) ->
  reachable LabelsToSignature spec h ->
  values h !! signature = Some s ->
  Forall (fun b => (0 <= Bucket.Observations b)%Z) (buckets s) ->
  (0 < totalObservations s)%Z -> (totalObservations s <= 2 ^ 53)%Z ->
  (0 <= p)%Q -> (p <= 1)%Q ->
  exists j sub v,
    bucketForPercentile h signature p = Ok (j, sub) /\
    percentile h signature p = Ok v /\
    (forall hi, Starts spec !! S j = Some hi -> (v < hi)%Q) /\
    (forall lo, 0 < j -> Starts spec !! j = Some lo -> (lo <= v)%Q).
Proof.
  intros Hret Hfresh Hsorted Hreach Hs Hnn Hpos Hbound Hp0 Hp1.
  pose proof (reachable_wellFormed LabelsToSignature spec h Hreach signature s Hs) as Hlen.
  pose proof (reachable_routed LabelsToSignature spec h Hret Hfresh Hreach) as Hrouted.
  pose proof (reachable_bucketStarts LabelsToSignature spec h Hreach) as Hstarts.
  destruct (bucketSearch_found h signature s p Hs Hlen Hnn Hpos Hbound Hp0 Hp1)
    as (j & sub & b & Hrun & Hj & Hsub & _).
  destruct (selected_value h signature s p j sub b Hs Hj Hrun) as [Hsel Hval].
  pose proof (Hrouted signature s j b Hs Hj sub Hsub) as Hroute. simpl in Hroute.
  rewrite Hstarts in Hroute.
  destruct (lastIndexFor_interval (Starts spec) _ j Hsorted Hroute) as [Hhi Hlo].
  exists j, sub, (Bucket.ValueForIndex b sub). repeat split; [done|done|done|].
  intros lo Hj0 Hlo'. destruct (Hlo lo Hlo') as [|[-> _]]; [done|lia].
Qed.

(** Every value a bucket of the engine reports was handed to [Add] under
    the signature of its series, in one of the calls [seen]. *)
Definition observed (seen : list (option (gmap string string) * Q)) (h : histogram B) : Prop :=
  forall signature s i b,
    values h !! signature = Some s -> buckets s !! i = Some b ->
    reports (fun v => exists labelSet,
               (labelSet, v) ∈ seen /\
               LabelsToSignature (default ∅ labelSet) = signature) b.

Lemma observed_mono (seen seen' : list (option (gmap string string) * Q)) (h : histogram B) :
  (forall call, call ∈ seen -> call ∈ seen') -> observed seen h -> observed seen' h.
Proof.
  intros Hsub Hobs signature s i b Hs Hb k Hk.
  destruct (Hobs signature s i b Hs Hb k Hk) as (labelSet & Hin & Hsig).
  exists labelSet. split; [by apply Hsub|done].
Qed.

Lemma Add_observed (seen : list (option (gmap string string) * Q)) (h : histogram B)
    labelSet value :
  retainsIngested (B := B) -> Bucket.Observations (bucketMaker h) = 0%Z ->
  observed seen h ->
  observed (seen ++ [(labelSet, value)]) (fst (Add LabelsToSignature h labelSet value)).
Proof.
  intros Hret Hfresh Hobs.
  assert (Hold : observed (seen ++ [(labelSet, value)]) h).
  { eapply observed_mono; [|exact Hobs]. intros call Hcall. apply elem_of_app. by left. }
  assert (Hseries : forall i b,
            buckets (seriesFor LabelsToSignature h labelSet) !! i = Some b ->
            reports (fun v => exists l,
                       (l, v) ∈ seen ++ [(labelSet, value)] /\
                       LabelsToSignature (default ∅ l) =
                       LabelsToSignature (default ∅ labelSet)) b).
  { intros i b. unfold seriesFor.
    destruct (values h !! _) as [s|] eqn:E; simpl.
    - intros Hb. by eapply Hold.
    - intros Hb. apply lookup_replicate in Hb as [-> _]. by apply reports_fresh. }
  intros signature s i b. rewrite Add_unfold.
  destruct (buckets (seriesFor LabelsToSignature h labelSet) !!
              lastIndexFor (bucketStarts h) value) as [b0|] eqn:Hb0; simpl.
  - destruct (decide (LabelsToSignature (default ∅ labelSet) = signature)) as [<-|Hne].
    + rewrite lookup_insert_eq. intros [= <-]. simpl.
      destruct (decide (lastIndexFor (bucketStarts h) value = i)) as [<-|Hi].
      * rewrite list_lookup_insert_eq by (by eapply lookup_lt_Some).
        intros [= <-]. apply Hret; [by eapply Hseries|].
        exists labelSet. split; [|done]. apply elem_of_app. right. by left.
      * rewrite list_lookup_insert_ne by done. apply Hseries.
    + rewrite lookup_insert_ne by done. apply Hold.
  - destruct (decide (LabelsToSignature (default ∅ labelSet) = signature)) as [<-|Hne].
    + rewrite lookup_insert_eq. intros [= <-]. apply Hseries.
    + rewrite lookup_insert_ne by done. apply Hold.
Qed.

Lemma AddAll_observed (calls seen : list (option (gmap string string) * Q))
    (h : histogram B) :
  retainsIngested (B := B) -> Bucket.Observations (bucketMaker h) = 0%Z ->
  observed seen h ->
  observed (seen ++ calls) (fst (AddAll LabelsToSignature h calls)).
Proof.
  intros Hret. revert seen h.
  induction calls as [|[labelSet value] rest IH]; intros seen h Hfresh Hobs.
  - simpl. by rewrite app_nil_r.
  - pose proof (Add_observed seen h labelSet value Hret Hfresh Hobs) as Hstep.
    pose proof (Add_bucketMaker LabelsToSignature h labelSet value) as Hmaker.
    cbn [AddAll].
    destruct (Add LabelsToSignature h labelSet value) as [h' [|pn]]; simpl in *.
    + rewrite (cons_middle _ seen rest), app_assoc. apply IH; [by rewrite Hmaker|done].
    + eapply observed_mono; [|exact Hstep]. intros call Hcall.
      rewrite (cons_middle _ seen rest), app_assoc. apply elem_of_app. by left.
Qed.

Lemma AddAll_reachable (spec : HistogramSpecification B)
    (calls : list (option (gmap string string) * Q)) (h : histogram B) :
  reachable LabelsToSignature spec h ->
  reachable LabelsToSignature spec (fst (AddAll LabelsToSignature h calls)).
Proof.
  revert h. induction calls as [|[labelSet value] rest IH]; intros h Hreach; [done|].
  pose proof (reachable_Add LabelsToSignature spec h labelSet value Hreach) as Hstep.
  cbn [AddAll].
  destruct (Add LabelsToSignature h labelSet value) as [h' [|pn]]; simpl in *.
  - by apply IH.
  - done.
Qed.

(** X16: after any run of [Add] calls on a new engine whose buckets
    report only what they ingested, the estimate of a percentile in
    [0, 1] over a series of at most [2^53] observations is one of the
    values that were added under that signature. *)
Theorem percentile_reports_an_observation (spec : HistogramSpecification B)
    (calls : list (option (gmap string string) * Q)) (signature : string)
    (s : histogramValue B) (p : Q) :
  retainsIngested (B := B) ->
  Bucket.Observations (BucketBuilder spec) = 0%Z ->
  values (fst (AddAll LabelsToSignature (NewHistogram spec) calls)) !! signature = Some s ->
  Forall (fun b => (0 <= Bucket.Observations b)%Z) (buckets s) ->
  (0 < totalObservations s)%Z -> (totalObservations s <= 2 ^ 53)%Z ->
  (0 <= p)%Q -> (p <= 1)%Q ->
  exists labelSet v,
    percentile (fst (AddAll LabelsToSignature (NewHistogram spec) calls)) signature p = Ok v /\
    (labelSet, v) ∈ calls /\
    LabelsToSignature (default ∅ labelSet) = signature.
Proof.
  intros Hret Hfresh Hs Hnn Hpos Hbound Hp0 Hp1.
  set (h := fst (AddAll LabelsToSignature (NewHistogram spec) calls)) in *.
  assert (Hreach : reachable LabelsToSignature spec h)
    by (apply AddAll_reachable, reachable_new).
  pose proof (reachable_wellFormed LabelsToSignature spec h Hreach signature s Hs) as Hlen.
  assert (Hobs : observed ([] ++ calls) h).
  { apply AddAll_observed; [done|done|].
    intros sig s0 i b. simpl. by rewrite lookup_empty. }
  destruct (bucketSearch_found h signature s p Hs Hlen Hnn Hpos Hbound Hp0 Hp1)
    as (j & sub & b & Hrun & Hj & Hsub & _).
  destruct (selected_value h signature s p j sub b Hs Hj Hrun) as [_ Hval].
  destruct (Hobs signature s j b Hs Hj sub Hsub) as (labelSet & Hin & Hsig).
  exists labelSet, (Bucket.ValueForIndex b sub). by repeat split.
Qed.

(** ** What ResetAll does and does not do *)

Lemma elem_of_trace (series : list (string * histogramValue B)) (ev : event B) :
  ev ∈ concat ((fun entry => resetSeries (fst entry) (snd entry)) <$> series) <->
  exists signature value, (signature, value) ∈ series /\ ev ∈ resetSeries signature value.
Proof.
  induction series as [|[signature value] rest IH].
  - simpl. split.
    + intros Hin. by apply elem_of_nil in Hin.
    + intros (sig & v & Hin & _). by apply elem_of_nil in Hin.
  - rewrite fmap_cons. cbn [concat fst snd]. rewrite elem_of_app, IH. split.
    + intros [Hev|(sig & v & Hin & Hev)].
      * exists signature, value. split; [by left|done].
      * exists sig, v. split; [by right|done].
    + intros (sig & v & Hin & Hev). apply elem_of_cons in Hin as [Heq|Hin].
      * injection Heq as -> ->. by left.
      * right. by exists sig, v.
Qed.

(** X17: [ResetAll] deletes exactly the series that are in the map and
    resets exactly their buckets, each to the state its own [Reset]
    gives; a second [ResetAll] right after it finds nothing to do. *)
Theorem ResetAll_trace_exact (h : histogram B) :
  (forall signature,
     SeriesDeleted signature ∈ snd (ResetAll h) <-> is_Some (values h !! signature)) /\
  (forall signature i after,
     BucketReset signature i after ∈ snd (ResetAll h) <->
     exists s b, values h !! signature = Some s /\ buckets s !! i = Some b /\
       after = Bucket.Reset b) /\
  ResetAll (fst (ResetAll h)) = (fst (ResetAll h), []).
Proof.
  rewrite ResetAll_snd, resetLoop_trace. split; [|split].
  - intros signature. rewrite elem_of_trace. split.
    + intros (sig & v & Hin & Hev). apply elem_of_map_to_list in Hin.
      unfold resetSeries in Hev. apply elem_of_app in Hev as [Hev|Hev].
      * apply elem_of_lookup_imap in Hev as (i & b & Heq & _). discriminate.
      * apply list_elem_of_singleton in Hev. injection Hev as ->. by exists v.
    + intros [v Hv]. exists signature, v. split; [by apply elem_of_map_to_list|].
      unfold resetSeries. apply elem_of_app. right. by apply list_elem_of_singleton.
  - intros signature i after. rewrite elem_of_trace. split.
    + intros (sig & v & Hin & Hev). apply elem_of_map_to_list in Hin.
      unfold resetSeries in Hev. apply elem_of_app in Hev as [Hev|Hev].
      * apply elem_of_lookup_imap in Hev as (k & b & Heq & Hb).
        injection Heq as -> -> ->. by exists v, b.
      * apply list_elem_of_singleton in Hev. discriminate.
    + intros (v & b & Hv & Hb & ->). exists signature, v.
      split; [by apply elem_of_map_to_list|].
      unfold resetSeries. apply elem_of_app. left.
      by apply (elem_of_lookup_imap_2
                  (fun i bucket => BucketReset signature i (Bucket.Reset bucket))).
  - unfold ResetAll at 1. rewrite ResetAll_values, map_to_list_empty. cbn [resetLoop].
    f_equal. rewrite <- (ResetAll_values h). apply withValues_id.
Qed.

(** ** The snapshot *)

Variable formatFloat : Q -> string.

Lemma percentile_returns (spec : HistogramSpecification B) (h : histogram B)
    (signature : string) (s : histogramValue B) (p : Q) :
  reachable LabelsToSignature spec h -> Starts spec <> [] ->
  (forall b : B, (0 <= Bucket.Observations b)%Z) ->
  values h !! signature = Some s ->
  (totalObservations s <= 2 ^ 53)%Z ->
  (0 <= p)%Q -> (p <= 1)%Q ->
  exists v, percentile h signature p = Ok v.
Proof.
  intros Hreach Hstarts Hlaw Hs Hbound Hp0 Hp1.
  pose proof (reachable_wellFormed LabelsToSignature spec h Hreach signature s Hs) as Hlen.
  assert (Hnn : Forall (fun b => (0 <= Bucket.Observations b)%Z) (buckets s))
    by (apply Forall_forall; intros b _; apply Hlaw).
  assert (Htot : (0 <= totalObservations s)%Z)
    by (apply sumZ_nonneg; by apply observations_nonneg).
  destruct (decide (totalObservations s = 0%Z)) as [Hzero|Hne].
  - assert (Hb0 : 0 < length (buckets s)).
    { rewrite Hlen, (reachable_bucketStarts LabelsToSignature spec h Hreach).
      destruct (Starts spec); [done|simpl; lia]. }
    destruct (lookup_lt_is_Some_2 _ _ Hb0) as [b0 Hb0'].
    destruct (percentile_empty h signature s p b0 Hs Hlen Hnn Hzero Hb0') as [_ Hval].
    by eexists.
  - destruct (bucketSearch_found h signature s p Hs Hlen Hnn) as
      (j & sub & b & Hrun & Hj & _); [lia|done|done|done|].
    destruct (selected_value h signature s p j sub b Hs Hj Hrun) as [_ Hval].
    by eexists.
Qed.

Lemma intermediateFor_returns (h : histogram B) (signature : string) (ps : list Q)
    (m : gmap string Q) :
  Forall (fun p => exists v, percentile h signature p = Ok v) ps ->
  exists m',
    intermediateFor formatFloat h signature ps m = Ok m' /\
    forall key, is_Some (m' !! key) <-> is_Some (m !! key) \/ key ∈ formatFloat <$> ps.
Proof.
  intros Hall. revert m. induction Hall as [|p ps [v Hv] Hall IH]; intros m.
  - exists m. split; [done|]. intros key. split; [by left|].
    intros [Hm|Hin]; [done|]. by apply elem_of_nil in Hin.
  - cbn [intermediateFor]. rewrite Hv, bind_Ok.
    destruct (IH (<[formatFloat p := v]> m)) as (m' & Hrun & Hkeys).
    exists m'. split; [done|]. intros key.
    rewrite Hkeys, fmap_cons, elem_of_cons, lookup_insert_is_Some.
    split.
    + intros [[Heq|[_ Hm]]|Hin]; [right; by left|by left|right; by right].
    + intros [Hm|[Heq|Hin]]; [|left; by left|by right].
      destruct (decide (formatFloat p = key)) as [Heq|Hne]; left; [by left|by right].
Qed.

Lemma marshalSeries_returns (h : histogram B) (series : list (string * histogramValue B)) :
  Forall (fun entry =>
            Forall (fun p => exists v, percentile h (fst entry) p = Ok v)
              (reportablePercentiles h)) series ->
  exists entries,
    marshalSeries formatFloat h series = Ok entries /\
    entries.*1 = labels <$> series.*2 /\
    Forall (fun entry => forall key,
              is_Some (snd entry !! key) <-> key ∈ formatFloat <$> reportablePercentiles h)
      entries.
Proof.
  induction 1 as [|[signature value] rest Hhead Hrest (entries & Hrun & Hlabels & Hkeys)].
  - by exists [].
  - destruct (intermediateFor_returns h signature (reportablePercentiles h) ∅ Hhead)
      as (m' & Hm' & Hdom).
    cbn [marshalSeries]. rewrite Hm', bind_Ok, Hrun, bind_Ok.
    exists ((labels value, m') :: entries). split; [done|]. split.
    + rewrite !fmap_cons. simpl. by rewrite Hlabels.
    + constructor; [|done]. intros key. simpl. rewrite Hdom, lookup_empty.
      split; [intros [[x Hx]|Hin]; done|by right].
Qed.

(** X18: on every state of an engine with at least one boundary, buckets
    with non-negative counts, series of at most [2^53] observations and
    reportable percentiles in [0, 1], the loop of [AsMarshallable]
    returns without a panic in whatever order the map hands out its
    series: one entry per series, in that order, with the series' labels
    and a table whose keys are exactly the formatted reportable
    percentiles. The order the model of [AsMarshallable] fixes is one of
    them, so its labels are those of the series up to a permutation. *)
Theorem AsMarshallable_lists_every_series (spec : HistogramSpecification B)
    (h : histogram B) :
  reachable LabelsToSignature spec h -> Starts spec <> [] ->
  (forall b : B, (0 <= Bucket.Observations b)%Z) ->
  (forall signature s, values h !! signature = Some s ->
     (totalObservations s <= 2 ^ 53)%Z) ->
  Forall (fun p => (0 <= p)%Q /\ (p <= 1)%Q) (ReportablePercentiles spec) ->
  (forall order, order ≡ₚ map_to_list (values h) ->
     exists entries,
       marshalSeries formatFloat h order = Ok entries /\
       entries.*1 = labels <$> order.*2 /\
       Forall (fun entry => forall key,
                 is_Some (snd entry !! key) <->
                 key ∈ formatFloat <$> ReportablePercentiles spec) entries) /\
  exists entries,
    AsMarshallable formatFloat h = Ok entries /\
    entries.*1 ≡ₚ labels <$> (map_to_list (values h)).*2.
Proof.
  intros Hreach Hstarts Hlaw Hbound Hps.
  pose proof (reachable_reportablePercentiles spec h Hreach) as Hpercentiles.
  assert (Hany : forall order, order ≡ₚ map_to_list (values h) ->
            exists entries,
              marshalSeries formatFloat h order = Ok entries /\
              entries.*1 = labels <$> order.*2 /\
              Forall (fun entry => forall key,
                        is_Some (snd entry !! key) <->
                        key ∈ formatFloat <$> ReportablePercentiles spec) entries).
  { intros order Horder.
    destruct (marshalSeries_returns h order) as (entries & Hrun & Hl & Hk).
    - apply Forall_forall. intros [signature s] Hin.
      rewrite Horder in Hin. apply elem_of_map_to_list in Hin.
      rewrite Hpercentiles. eapply Forall_impl; [exact Hps|].
      intros p [Hp0 Hp1].
      exact (percentile_returns spec h signature s p Hreach Hstarts Hlaw Hin
               (Hbound signature s Hin) Hp0 Hp1).
    - exists entries. rewrite <- Hpercentiles.
      split; [exact Hrun|]. split; [exact Hl|exact Hk]. }
  split; [exact Hany|].
  destruct (Hany (map_to_list (values h))) as (entries & Hrun & Hl & _); [done|].
  exists entries. split; [exact Hrun|]. by rewrite Hl.
Qed.

End EngineMore.

(** ** The rendering *)

Module Rendering.

Section Rendering.

Context {B : Type}.

(** What [fmt] prints for a label map under [%s], for a boundary under
    [%f] and for a bucket under [%s] is decided outside [histogram.go]. *)
Variable formatLabels : gmap string string -> string.
Variable formatStart : Q -> string.
Variable formatBucket : B -> string.

(** The inner loop of [String]; [i] is the position of the head of
    [starts] in [h.bucketStarts]. *)
Fixpoint renderBuckets (histogram : histogramValue B) (i : nat) (starts : list Q)
  : outcome string :=
  match starts with
  | [] => Ok ""%string
  | bucketStart :: rest =>
      bucket ← index (buckets histogram) i;
      following ← renderBuckets histogram (S i) rest;
      Ok ("[" +:+ formatStart bucketStart +:+ ", inf) = " +:+ formatBucket bucket
            +:+ ", " +:+ following)%string
  end.

(** The outer loop of [String]. *)
Fixpoint renderSeries (h : histogram B) (series : list (string * histogramValue B))
  : outcome string :=
  match series with
  | [] => Ok ""%string
  | (_, histogram) :: rest =>
      chunk ← renderBuckets histogram 0 (bucketStarts h);
      following ← renderSeries h rest;
      Ok ("Labels: " +:+ formatLabels (labels histogram) +:+ " " +:+ chunk
            +:+ following)%string
  end.

Definition String (h : histogram B) : outcome string :=
  text ← renderSeries h (map_to_list (values h));
  Ok ("[Histogram { " +:+ text +:+ "}]")%string.

End Rendering.

End Rendering.

Section RenderingFacts.

Context {B : Type} `{Bucket.Ops B}.
Variable LabelsToSignature : gmap string string -> string.
Variable formatLabels : gmap string string -> string.
Variable formatStart : Q -> string.
Variable formatBucket : B -> string.

Lemma renderBuckets_returns (histogram : histogramValue B) (i : nat) (starts : list Q) :
  i + length starts <= length (buckets histogram) ->
  exists text, Rendering.renderBuckets formatStart formatBucket histogram i starts = Ok text.
Proof.
  revert i. induction starts as [|bucketStart rest IH]; intros i Hlen; simpl in *.
  - by eexists.
  - assert (Hi : i < length (buckets histogram)) by lia.
    destruct (lookup_lt_is_Some_2 _ _ Hi) as [b Hb].
    destruct (IH (S i)) as [text Htext]; [lia|].
    rewrite (index_Ok _ _ _ Hb), bind_Ok, Htext, bind_Ok. by eexists.
Qed.

Lemma renderBuckets_panics (histogram : histogramValue B) (i : nat) (starts : list Q) :
  i <= length (buckets histogram) ->
  length (buckets histogram) < i + length starts ->
  Rendering.renderBuckets formatStart formatBucket histogram i starts =
  Panic (IndexOutOfRange (length (buckets histogram)) (length (buckets histogram))).
Proof.
  revert i. induction starts as [|bucketStart rest IH]; intros i Hle Hlen; simpl in *; [lia|].
  destruct (decide (i = length (buckets histogram))) as [->|Hne].
  - unfold index. by rewrite lookup_ge_None_2.
  - assert (Hi : i < length (buckets histogram)) by lia.
    destruct (lookup_lt_is_Some_2 _ _ Hi) as [b Hb].
    rewrite (index_Ok _ _ _ Hb), bind_Ok, IH by lia. done.
Qed.

Lemma renderSeries_returns (h : histogram B) (series : list (string * histogramValue B)) :
  Forall (fun entry => length (buckets (snd entry)) = length (bucketStarts h)) series ->
  exists text,
    Rendering.renderSeries formatLabels formatStart formatBucket h series = Ok text.
Proof.
  induction 1 as [|[signature value] rest Hhead Hrest [text Htext]]; simpl in *.
  - by eexists.
  - destruct (renderBuckets_returns value 0 (bucketStarts h)) as [chunk Hchunk]; [lia|].
    rewrite Hchunk, bind_Ok, Htext, bind_Ok. by eexists.
Qed.

(** X19: on every state an engine goes through, [String] indexes only
    buckets that exist and returns a text that opens with
    "[Histogram { " and closes with "}]"; with no series, as on a new
    engine and after [ResetAll], the text is "[Histogram { }]". A series
    with fewer buckets than boundaries would make it panic. *)
Theorem String_returns (spec : HistogramSpecification B) (h : histogram B) :
  reachable LabelsToSignature spec h ->
  (exists body,
     Rendering.String formatLabels formatStart formatBucket h =
     Ok ("[Histogram { " +:+ body +:+ "}]")%string) /\
  Rendering.String formatLabels formatStart formatBucket (NewHistogram spec) =
    Ok "[Histogram { }]"%string /\
  Rendering.String formatLabels formatStart formatBucket (fst (ResetAll h)) =
    Ok "[Histogram { }]"%string /\
  (forall signature s (other : histogram B),
     values other = {[ signature := s ]} ->
     length (buckets s) < length (bucketStarts other) ->
     Rendering.String formatLabels formatStart formatBucket other =
     Panic (IndexOutOfRange (length (buckets s)) (length (buckets s)))).
Proof.
  intros Hreach.
  pose proof (reachable_wellFormed LabelsToSignature spec h Hreach) as Hwf.
  split; [|split; [|split]].
  - destruct (renderSeries_returns h (map_to_list (values h))) as [text Htext].
    { apply Forall_forall. intros [signature s] Hin. apply elem_of_map_to_list in Hin.
      exact (Hwf signature s Hin). }
    exists text. unfold Rendering.String. by rewrite Htext.
  - unfold Rendering.String. simpl. by rewrite map_to_list_empty.
  - unfold Rendering.String. by rewrite ResetAll_values, map_to_list_empty.
  - intros signature s other Hvalues Hlen. unfold Rendering.String.
    rewrite Hvalues, map_to_list_singleton. cbn [Rendering.renderSeries].
    rewrite renderBuckets_panics by lia. done.
Qed.

End RenderingFacts.

(** ** Percentiles below zero *)

Section NegativePercentiles.

Context {B : Type} `{Bucket.Ops B}.

Lemma search_negative (h : histogram B) (signature : string) (s : histogramValue B)
    (idx : Z) (rest before : list Z) :
  length (buckets s) = length (before ++ rest) ->
  Forall (Z.le 0) (before ++ rest) ->
  sumZ before = 0%Z -> (- 2 ^ 63 <= idx < 0)%Z -> (0 < sumZ (before ++ rest))%Z ->
  exists j o,
    search h signature s (length (before ++ rest)) (before ++ rest)
      (cumulate 0 (before ++ rest)) idx (length before)
      (cumulate (sumZ before) rest) = Ok (Some (j, idx)) /\
    (before ++ rest) !! j = Some o /\ (0 < o)%Z /\
    sumZ (take j (before ++ rest)) = 0%Z.
Proof.
  revert before.
  induction rest as [|o rest IH]; intros before Hlen Hnn Hzero Hidx Hpos.
  - rewrite app_nil_r in Hpos. lia.
  - assert (Hstep : before ++ o :: rest = (before ++ [o]) ++ rest)
      by (by rewrite <- app_assoc).
    assert (Hsum : sumZ (before ++ [o]) = (sumZ before + o)%Z)
      by (rewrite sumZ_app; unfold sumZ; simpl; lia).
    assert (Ho0 : (0 <= o)%Z).
    { rewrite Forall_forall in Hnn. apply Hnn. apply elem_of_app. right. by left. }
    cbn [cumulate search].
    destruct (Z.eqb_spec (sumZ before + o) 0) as [Hz|Hnz].
    + replace (S (length before)) with (length (before ++ [o]))
        by (rewrite length_app; simpl; lia).
      rewrite <- Hsum, Hstep. apply IH; rewrite <- ?Hstep, ?Hsum; done.
    + destruct (Z.geb_spec (sumZ before + o) idx) as [_|Hlt]; [|lia].
      rewrite previous_spec by (rewrite length_app; lia).
      rewrite bind_Ok, take_app_length.
      assert (Hlook : (before ++ o :: rest) !! length before = Some o)
        by (by apply list_lookup_middle).
      rewrite (index_Ok _ _ _ Hlook), bind_Ok.
      rewrite (wrap64_id (idx - sumZ before)) by lia.
      destruct (Z.eqb_spec o (idx - sumZ before)) as [Heq|_]; [lia|].
      assert (Hb : length before < length (buckets s))
        by (rewrite Hlen, length_app; simpl; lia).
      destruct (lookup_lt_is_Some_2 _ _ Hb) as [b Hbi].
      rewrite (index_Ok _ _ _ Hbi), bind_Ok, Hzero, Z.sub_0_r.
      exists (length before), o. repeat split; [done|lia|].
      by rewrite take_app_length.
Qed.

(** X20: when the prospective index the code computes is negative and
    above the least [int], as it is for the percentile -1 of ten
    observations, the query is answered from the first non-empty bucket
    with that negative index as the sub-index handed to [ValueForIndex];
    the counts are taken to sum within the range of [int]. *)
Theorem bucketForPercentile_negative_rank (h : histogram B) (signature : string)
    (s : histogramValue B) (p : Q) :
  values h !! signature = Some s ->
  length (buckets s) = length (bucketStarts h) ->
  Forall (fun b => (0 <= Bucket.Observations b)%Z) (buckets s) ->
  (0 < totalObservations s)%Z -> (totalObservations s < 2 ^ 63)%Z ->
  (- 2 ^ 63 < prospectiveIndexForPercentile p (totalObservations s) < 0)%Z ->
  exists j b,
    buckets s !! j = Some b /\ (0 < Bucket.Observations b)%Z /\
    bucketForPercentile h signature p =
      Ok (j, prospectiveIndexForPercentile p (totalObservations s)) /\
    percentile h signature p =
      Ok (Bucket.ValueForIndex b (prospectiveIndexForPercentile p (totalObservations s))) /\
    forall i b', i < j -> buckets s !! i = Some b' -> Bucket.Observations b' = 0%Z.
Proof.
  intros Hs Hlen Hnn Hpos Hbound Hidx.
  pose proof (observations_nonneg _ Hnn) as Hobs.
  destruct (search_negative h signature s
              (prospectiveIndexForPercentile p (totalObservations s))
              (Bucket.Observations <$> buckets s) [])
    as (j & o & Hrun & Hj & Ho & Htake); simpl.
  { by rewrite length_fmap. }
  { exact Hobs. }
  { reflexivity. }
  { lia. }
  { exact Hpos. }
  simpl in Hrun, Hj, Htake. rewrite length_fmap, Hlen in Hrun.
  rewrite <- (bucketSearch_series h signature s p Hs Hlen Hnn Hbound) in Hrun.
  rewrite list_lookup_fmap in Hj.
  destruct (buckets s !! j) as [b|] eqn:Hb; [|done]. injection Hj as <-.
  destruct (selected_value h signature s p j _ b Hs Hb Hrun) as [Hsel Hval].
  exists j, b. repeat split; [done|done|done|done|].
  intros i b' Hi Hb'.
  assert (Hzero : Forall (eq 0%Z) (take j (Bucket.Observations <$> buckets s)))
    by (apply sumZ_zero_all; [by apply Forall_take|done]).
  rewrite Forall_lookup in Hzero. symmetry. apply (Hzero i).
  rewrite lookup_take_lt by done. by rewrite list_lookup_fmap, Hb'.
Qed.

End NegativePercentiles.

(** ** The further properties at concrete inputs *)

Lemma EquallySizedBucketsFor_boundaries_witness :
  exists starts,
    EquallySizedBucketsFor (Finite 0) (Finite 10) 5 = Ok starts /\
    Z.of_nat (length starts) = 5%Z.
Proof.
  destruct (proj2 (EquallySizedBucketsFor_boundaries (Finite 0) (Finite 10) 5))
    as (starts & Hrun & Hlen & _); [lia|].
  exists starts. split; [exact Hrun|exact Hlen].
Defined.

Lemma EquallySizedBucketsFor_ascending_witness :
  exists starts,
    EquallySizedBucketsFor (Finite 0) (Finite 10) 5 = Ok (Finite <$> starts) /\
    StronglySorted Qle starts.
Proof.
  destruct (EquallySizedBucketsFor_ascending 0 10 5)
    as (starts & Hrun & _ & Hsorted & _).
  - vm_compute. reflexivity.
  - vm_compute. discriminate.
  - vm_compute. discriminate.
  - reflexivity.
  - lia.
  - lia.
  - exists starts. split; [exact Hrun|exact Hsorted].
Defined.

Lemma LogarithmicSizedBucketsFor_ascending_witness :
  exists starts, LogarithmicSizedBucketsFor 0 10 = Ok starts /\ StronglySorted Qlt starts.
Proof.
  destruct (LogarithmicSizedBucketsFor_ascending 0 10) as (starts & Hrun & _ & Hsorted & _);
    [reflexivity|].
  by exists starts.
Defined.

Lemma LogarithmicSizedBucketsFor_small_upper_witness :
  LogarithmicSizedBucketsFor 0 1 = Ok [] /\
  LogarithmicSizedBucketsFor 0 (1 # 4) = Panic NegativeLength.
Proof.
  split.
  - apply (proj1 (LogarithmicSizedBucketsFor_small_upper 0 1)); [reflexivity|apply Qle_refl].
  - apply (proj2 (LogarithmicSizedBucketsFor_small_upper 0 (1 # 4))); [reflexivity|].
    unfold Qle. simpl. lia.
Defined.

(** Boundaries out of order: the bucket of the boundary 10 is never chosen. *)
Lemma lastIndexFor_first_greater_witness : lastIndexFor [0; 20; 10]%Q 15 = 0.
Proof.
  apply (proj1 (lastIndexFor_first_greater [0; 20; 10]%Q 15) 1 20%Q); [reflexivity|reflexivity|].
  intros [|i] a Hi Ha; [|lia]. injection Ha as <-. unfold Qle. simpl. lia.
Defined.

Lemma reachable_keeps_shape_witness :
  snd (Add oneSignature (fst (AddAll oneSignature (NewHistogram scenarioSpec) twoCalls))
         None 5%Q) = Returns.
Proof.
  destruct (reachable_keeps_shape oneSignature scenarioSpec _ twoCalls_reachable)
    as (_ & _ & _ & _ & Hreturns).
  apply Hreturns. discriminate.
Defined.

Lemma percentile_of_missing_series_witness :
  percentile (NewHistogram scenarioSpec) "series" (1 # 2) = Panic NilDereference.
Proof.
  apply (percentile_of_missing_series (NewHistogram scenarioSpec) "series" (1 # 2)).
  reflexivity.
Defined.

(** The state of the scenario: five values in bucket 0, five in bucket 2. *)
Definition fives : histogram ExactBucket.t :=
  scenarioState oneSignature [3; 3; 3; 3; 3]%Q [25; 25; 25; 25; 25]%Q.

Definition fivesSeries : histogramValue ExactBucket.t :=
  scenarioSeries [3; 3; 3; 3; 3]%Q [25; 25; 25; 25; 25]%Q.

Lemma fives_lookup : values fives !! "series"%string = Some fivesSeries.
Proof. apply (scenarioState_lookup oneSignature). Qed.

Lemma nextNonEmptyBucketElement_scan_witness :
  nextNonEmptyBucketElement fives "series" 1 3 [5; 0; 5]%Z = Ok (2, 0%Z).
Proof.
  apply (proj1 (nextNonEmptyBucketElement_scan fives "series" fivesSeries [5; 0; 5]%Z 1
                  fives_lookup eq_refl) 2 5%Z); [reflexivity|discriminate|lia|].
  intros k Hk. assert (k = 1) as -> by lia. reflexivity.
Defined.

Lemma bucketForPercentile_rank_beyond_total_witness :
  percentile fives "series" 2 = Ok 3%Q.
Proof.
  apply (bucketForPercentile_rank_beyond_total fives "series" fivesSeries 2
           [3; 3; 3; 3; 3]%Q fives_lookup eq_refl (ExactBucket_nonneg_all _)).
  - vm_compute. reflexivity.
  - reflexivity.
Defined.

Lemma bucketForPercentile_rank_at_total_witness :
  percentile fives "series" (9 # 8) = Panic IllegalCondition.
Proof.
  apply (bucketForPercentile_rank_at_total fives "series" fivesSeries (9 # 8)
           fives_lookup eq_refl (ExactBucket_nonneg_all _)).
  - vm_compute. reflexivity.
  - vm_compute. reflexivity.
Defined.

Lemma prospectiveIndexForPercentile_range_witness :
  (prospectiveIndexForPercentile (1 # 2) 10 <= prospectiveIndexForPercentile 1 10)%Z.
Proof.
  apply (prospectiveIndexForPercentile_range (1 # 2) 1 10).
  - unfold Qle. simpl. lia.
  - unfold Qle. simpl. lia.
  - apply Qle_refl.
  - lia.
  - lia.
Defined.

Lemma percentile_extremes_witness :
  exists j b,
    buckets fivesSeries !! j = Some b /\
    (0 < Bucket.Observations b)%Z /\
    bucketForPercentile fives "series" 0 = Ok (j, 0%Z).
Proof.
  destruct (percentile_extremes fives "series" fivesSeries fives_lookup eq_refl
              (ExactBucket_nonneg_all _)) as [(j & b & Hj & Hb & Hsel & _) _].
  - vm_compute. reflexivity.
  - vm_compute. discriminate.
  - exists j, b. split; [exact Hj|]. split; [exact Hb|exact Hsel].
Defined.

Lemma twoCalls_lookup :
  values (fst (AddAll oneSignature (NewHistogram scenarioSpec) twoCalls)) !! "series"%string =
  Some (scenarioSeries [3%Q] [25%Q]).
Proof. vm_compute. reflexivity. Qed.

Lemma percentile_within_selected_interval_witness :
  exists j sub v,
    bucketForPercentile (fst (AddAll oneSignature (NewHistogram scenarioSpec) twoCalls))
      "series" (1 # 2) = Ok (j, sub) /\
    percentile (fst (AddAll oneSignature (NewHistogram scenarioSpec) twoCalls))
      "series" (1 # 2) = Ok v /\
    (forall hi, Starts scenarioSpec !! S j = Some hi -> (v < hi)%Q) /\
    (forall lo, 0 < j -> Starts scenarioSpec !! j = Some lo -> (lo <= v)%Q).
Proof.
  apply (percentile_within_selected_interval oneSignature scenarioSpec _ "series"
           (scenarioSeries [3%Q] [25%Q]) (1 # 2)).
  - apply ExactBucket_retains.
  - reflexivity.
  - apply StronglySorted_Qlt_Qle, scenario_sorted.
  - apply twoCalls_reachable.
  - apply twoCalls_lookup.
  - apply ExactBucket_nonneg_all.
  - vm_compute. reflexivity.
  - vm_compute. discriminate.
  - unfold Qle. simpl. lia.
  - unfold Qle. simpl. lia.
Defined.

Lemma percentile_reports_an_observation_witness :
  exists labelSet v,
    percentile (fst (AddAll oneSignature (NewHistogram scenarioSpec) twoCalls))
      "series" (1 # 2) = Ok v /\
    (labelSet, v) ∈ twoCalls /\
    oneSignature (default ∅ labelSet) = "series"%string.
Proof.
  apply (percentile_reports_an_observation oneSignature scenarioSpec twoCalls "series"
           (scenarioSeries [3%Q] [25%Q]) (1 # 2)).
  - apply ExactBucket_retains.
  - reflexivity.
  - apply twoCalls_lookup.
  - apply ExactBucket_nonneg_all.
  - vm_compute. reflexivity.
  - vm_compute. discriminate.
  - unfold Qle. simpl. lia.
  - unfold Qle. simpl. lia.
Defined.

(** A stand-in for the number and text formats, which the properties do
    not depend on. *)
Definition plainFormat {A : Type} (x : A) : string := "_".

Lemma twoCalls_values :
  values (fst (AddAll oneSignature (NewHistogram scenarioSpec) twoCalls)) =
  {[ "series"%string := scenarioSeries [3%Q] [25%Q] ]}.
Proof. vm_compute. reflexivity. Qed.

Lemma AsMarshallable_lists_every_series_witness :
  exists entries,
    AsMarshallable plainFormat
      (fst (AddAll oneSignature (NewHistogram scenarioSpec) twoCalls)) = Ok entries /\
    entries.*1 ≡ₚ
      labels <$>
        (map_to_list
           (values (fst (AddAll oneSignature (NewHistogram scenarioSpec) twoCalls)))).*2.
Proof.
  destruct (AsMarshallable_lists_every_series oneSignature plainFormat scenarioSpec _
              twoCalls_reachable) as [_ (entries & Hrun & Hlabels)].
  - discriminate.
  - apply ExactBucket_nonneg.
  - intros signature s Hs. rewrite twoCalls_values in Hs.
    apply lookup_singleton_Some in Hs as [_ <-]. vm_compute. discriminate.
  - repeat constructor; unfold Qle; simpl; lia.
  - exists entries. split; [exact Hrun|exact Hlabels].
Defined.

Lemma String_returns_witness :
  exists body,
    Rendering.String plainFormat plainFormat plainFormat
      (fst (AddAll oneSignature (NewHistogram scenarioSpec) twoCalls)) =
    Ok ("[Histogram { " +:+ body +:+ "}]")%string.
Proof.
  apply (String_returns oneSignature plainFormat plainFormat plainFormat scenarioSpec _
           twoCalls_reachable).
Defined.

Lemma bucketForPercentile_negative_rank_witness :
  exists j b,
    buckets fivesSeries !! j = Some b /\
    bucketForPercentile fives "series" (-1) = Ok (j, (-9)%Z).
Proof.
  assert (Hrank : prospectiveIndexForPercentile (-1) (totalObservations fivesSeries) =
                  (-9)%Z) by (vm_compute; reflexivity).
  destruct (bucketForPercentile_negative_rank fives "series" fivesSeries (-1)
              fives_lookup eq_refl (ExactBucket_nonneg_all _))
    as (j & b & Hj & _ & Hsel & _).
  - vm_compute. reflexivity.
  - vm_compute. reflexivity.
  - rewrite Hrank. lia.
  - rewrite Hrank in Hsel. exists j, b. split; [exact Hj|exact Hsel].
Defined.
